(** * Consumer-group description: a model of
      backend/pkg/kafka/describe_consumer_groups.go

    The Go code resolves the coordinating broker of every requested
    consumer group, sends one DescribeGroups request per broker from a
    goroutine of its own, gathers the answers from a buffered channel
    in a [select] loop that also watches the caller's context, converts
    them and sorts the result.

    The embedding follows the source function by function.  The
    collaborators that live outside the repository are kept abstract:
    - the sarama client ([Coordinator], [DescribeGroups],
      [GetMemberAssignment]) is a record of functions;
    - a Go map that the code ranges over is the list of its entries in
      the order of that range loop; the order is not fixed by the map,
      so two runs against the same brokers are two services whose
      answers hold the same entries ([same_service]);
    - [sort.Slice] of the Go library is a parameter [sort_slice] known
      only by its contract (it returns a sorted permutation; it is not
      stable);
    - the Go scheduler is a list of [action]s: which worker sends next,
      when the channel is closed, when the context is cancelled and
      which ready case each [select] takes. *)

From Stdlib Require Import ZArith String List Sorted Permutation Lia.
From stdpp Require Import base option list sorting gmap strings.

Open Scope string_scope.
Open Scope list_scope.
Open Scope Z_scope.

(** ** Errors *)

(** A Go [error] value.  [KError] is sarama's protocol error code,
    [errorString] any error of a collaborator, [Errorf] the value built
    by [fmt.Errorf] (format and arguments are kept apart). *)
Inductive error : Type :=
| KError (code : Z)
| errorString (msg : string)
| Errorf (format : string) (args : list fmt_arg)
with fmt_arg : Type :=
| ArgInt32 (n : Z)
| ArgError (err : error).

(** A Go result pair [(v, err)] of which exactly one side is set. *)
Inductive result (T : Type) : Type :=
| Ok (v : T)
| Fail (err : error).
Arguments Ok {T} v.
Arguments Fail {T} err.

(** ** The zap logger: what is written to it *)
Module zap.

Inductive Level : Type := WarnLevel | ErrorLevel.

Inductive Field : Type :=
| String (key val : string)
| Error (err : error).

Record Entry : Type := mkEntry {
  level : Level;
  message : string;
  fields : list Field
}.

End zap.

(** ** The part of sarama the code reads

    The pointers to raw groups, raw members and brokers that sarama
    hands out are never nil; the pointer returned by
    [GetMemberAssignment] may be. *)
Module sarama.

Definition ErrNoError : Z := 0.

(** [ConsumerGroupMemberAssignment]: a Go map from topic to partition
    ids, listed in the order in which [range] visits it. *)
Record ConsumerGroupMemberAssignment : Type := mkAssignment {
  Topics : list (string * list Z)
}.

(** A raw member.  [GetMemberAssignment] holds what the method of that
    name returns for the member's payload: a pointer, [None] when it is
    nil, and an error, [None] when it is nil. *)
Record GroupMemberDescription : Type := mkMember {
  ClientId : string;
  ClientHost : string;
  GetMemberAssignment : option ConsumerGroupMemberAssignment * option error
}.

(** A raw group.  [Members] is a Go map keyed by member id, listed in
    the order in which [range] visits it. *)
Record GroupDescription : Type := mkGroup {
  Err : Z;
  GroupId : string;
  State : string;
  ProtocolType : string;
  Protocol : string;
  Members : list (string * GroupMemberDescription)
}.

(** A broker handle: its id and the answer of [DescribeGroups] to a
    request for the given groups. *)
Record Broker : Type := mkBroker {
  ID : Z;
  DescribeGroups : list string -> result (list GroupDescription)
}.

Record Client : Type := mkClient {
  Coordinator : string -> result Broker
}.

End sarama.

(** ** The output types of the package *)

Record GroupMemberAssignment : Type := mkGroupMemberAssignment {
  TopicName : string;
  PartitionIDs : list Z
}.

Record GroupMemberDescription : Type := mkGroupMemberDescription {
  ID : string;
  ClientID : string;
  ClientHost : string;
  Assignments : list GroupMemberAssignment
}.

Record GroupDescription : Type := mkGroupDescription {
  GroupID : string;
  State : string;
  ProtocolType : string;
  Protocol : string;
  Members : list GroupMemberDescription
}.

(** [Service] holds the sarama client; its logger is the log that the
    functions below return. *)
Record Service : Type := mkService {
  Client : sarama.Client
}.

(** ** Running Go code: a log and a possible panic *)

Inductive exec (A : Type) : Type :=
| Done (a : A)
| Panicked.
Arguments Done {A} a.
Arguments Panicked {A}.

Definition Go (A : Type) : Type := (list zap.Entry * exec A)%type.

Definition ret {A} (a : A) : Go A := ([], Done a).

Definition bind {A B} (m : Go A) (k : A -> Go B) : Go B :=
  match m with
  | (l1, Done a) => let '(l2, r) := k a in (l1 ++ l2, r)
  | (l1, Panicked) => (l1, Panicked)
  end.

Notation "'let*' x ':=' m 'in' k" := (bind m (fun x => k))
  (at level 10, x pattern, m at level 100, k at level 200).

(** A nil pointer dereference. *)
Definition panic {A} : Go A := ([], Panicked).

Definition logger_Warn (msg : string) (fs : list zap.Field) : Go unit :=
  ([zap.mkEntry zap.WarnLevel msg fs], Done tt).

Definition logger_Error (msg : string) (fs : list zap.Field) : Go unit :=
  ([zap.mkEntry zap.ErrorLevel msg fs], Done tt).

(** ** Orders used by the [less] closures *)

(** Go compares strings byte by byte, as [String.ltb] does. *)
Definition less_int32 (a b : Z) : bool := a <? b.

Definition less_TopicName (a b : GroupMemberAssignment) : bool :=
  String.ltb (TopicName a) (TopicName b).

Definition less_GroupID (a b : GroupDescription) : bool :=
  String.ltb (GroupID a) (GroupID b).

(** What [sort.Slice] leaves behind: no element is [less] than the one
    before it. *)
Definition ascending {A} (less : A -> A -> bool) : relation A :=
  fun a b => less b a = false.

(** The contract [sort.Slice] asks of [less]. *)
Record strict_weak_order {A} (less : A -> A -> bool) : Prop := {
  less_asym : forall a b, less a b = true -> less b a = false;
  less_neg_trans : forall a b c,
    less a b = false -> less b c = false -> less a c = false
}.

(** A sorting function that meets the contract, for running the model. *)
Definition merge_sort_slice (A : Type) (less : A -> A -> bool) : list A -> list A :=
  @merge_sort A (ascending less) (fun a b => decide (less b a = false)).

Section DescribeConsumerGroups.

(** [sort.Slice x less], as a function from the slice before the call
    to the slice after it. *)
Variable sort_slice : forall A : Type, (A -> A -> bool) -> list A -> list A.
Arguments sort_slice {A} _ _.

Hypothesis sort_slice_Permutation :
  forall (A : Type) (less : A -> A -> bool) (l : list A),
    Permutation (sort_slice less l) l.

Hypothesis sort_slice_Sorted :
  forall (A : Type) (less : A -> A -> bool) (l : list A),
    strict_weak_order less -> Sorted (ascending less) (sort_slice less l).

(** ** convertGroupMembers *)

(** The inner loop [for topic, partitionIDs := range assignments.Topics]. *)
Fixpoint range_Topics (topics : list (string * list Z))
    (resultAssignments : list GroupMemberAssignment) : list GroupMemberAssignment :=
  match topics with
  | [] => resultAssignments
  | (topic, partitionIDs) :: rest =>
      let partitionIDs := sort_slice less_int32 partitionIDs in
      let a := mkGroupMemberAssignment topic partitionIDs in
      range_Topics rest (resultAssignments ++ [a])
  end.

(** The body of the loop over [members] for one entry [(id, m)]. *)
Definition convertGroupMember (id : string) (m : sarama.GroupMemberDescription)
    (protocolType : string) : Go GroupMemberDescription :=
  let resultAssignments : list GroupMemberAssignment := [] in
  let* resultAssignments :=
    if String.eqb protocolType "consumer" then
      let '(assignments, err) := sarama.GetMemberAssignment m in
      let* _ :=
        match err with
        | Some err =>
            logger_Warn "failed to decode member assignments"
              [zap.String "client_id" (sarama.ClientId m); zap.Error err]
        | None => ret tt
        end in
      match assignments with
      | None => panic
      | Some assignments =>
          ret (range_Topics (sarama.Topics assignments) resultAssignments)
      end
    else ret resultAssignments in
  let resultAssignments := sort_slice less_TopicName resultAssignments in
  ret (mkGroupMemberDescription id (sarama.ClientId m) (sarama.ClientHost m)
         resultAssignments).

Fixpoint range_members (members : list (string * sarama.GroupMemberDescription))
    (protocolType : string) : Go (list GroupMemberDescription) :=
  match members with
  | [] => ret []
  | (id, m) :: rest =>
      let* d := convertGroupMember id m protocolType in
      let* ds := range_members rest protocolType in
      ret (d :: ds)
  end.

Definition convertGroupMembers (members : list (string * sarama.GroupMemberDescription))
    (protocolType : string) : Go (result (list GroupMemberDescription)) :=
  let* response := range_members members protocolType in
  ret (Ok response).

(** ** convertSaramaGroupDescriptions *)

Fixpoint convertSaramaGroupDescriptions (descriptions : list sarama.GroupDescription)
    : Go (result (list GroupDescription)) :=
  match descriptions with
  | [] => ret (Ok [])
  | d :: rest =>
      if negb (sarama.Err d =? sarama.ErrNoError)%Z then
        ret (Fail (KError (sarama.Err d)))
      else
        let* r := convertGroupMembers (sarama.Members d) (sarama.ProtocolType d) in
        match r with
        | Fail err => ret (Fail err)
        | Ok members =>
            let g := mkGroupDescription (sarama.GroupId d) (sarama.State d)
                       (sarama.ProtocolType d) (sarama.Protocol d) members in
            let* r := convertSaramaGroupDescriptions rest in
            match r with
            | Fail err => ret (Fail err)
            | Ok response => ret (Ok (g :: response))
            end
        end
  end.

(** ** DescribeConsumerGroups *)

(** Step 1, the loop over [groups] that fills the two maps. *)
Fixpoint bucket (s : Service) (groups : list string)
    (brokersByID : gmap Z sarama.Broker) (groupsByBrokerID : gmap Z (list string))
    : result (gmap Z sarama.Broker * gmap Z (list string)) :=
  match groups with
  | [] => Ok (brokersByID, groupsByBrokerID)
  | group :: rest =>
      match sarama.Coordinator (Client s) group with
      | Fail err => Fail err
      | Ok coordinator =>
          let id := sarama.ID coordinator in
          bucket s rest
            (<[id := coordinator]> brokersByID)
            (<[id := default [] (groupsByBrokerID !! id) ++ [group]]> groupsByBrokerID)
      end
  end.

(** The payload of the channel [resCh]. *)
Record response : Type := mkResponse {
  Err : option error;
  Groups : list sarama.GroupDescription;
  BrokerID : Z
}.

(** The goroutine started for one broker: one DescribeGroups request,
    one value for the channel. *)
Definition worker (b broker : sarama.Broker) (grps : list string) : response :=
  match sarama.DescribeGroups broker grps with
  | Fail err => mkResponse (Some err) [] (sarama.ID b)
  | Ok r => mkResponse None r (sarama.ID b)
  end.

(** Step 2, the loop over [groupsByBrokerID]: the requests that are
    sent, each with the broker it goes to.  [brokersByID] holds a
    broker for every key of [groupsByBrokerID] (lemma [bucket_lookup]
    below), so no entry is dropped. *)
Definition requests (brokersByID : gmap Z sarama.Broker)
    (groupsByBrokerID : gmap Z (list string)) : list (sarama.Broker * list string) :=
  omap (fun '(id, groups) =>
          match brokersByID !! id with
          | Some b => Some (b, groups)
          | None => None
          end)
       (map_to_list groupsByBrokerID).

(** The state of one call while its goroutines run.  [inflight] are
    the workers that have not sent yet, each with the value it will
    send; [resCh] is the buffer of the channel, oldest first; [closed]
    says that [close(resCh)] has run; [ctxDone] that [ctx.Done()] is
    closed; [returned] what the call has returned, if it has. *)
Record state : Type := mkState {
  inflight : list response;
  resCh : list response;
  closed : bool;
  ctxDone : bool;
  descriptions : list GroupDescription;
  logged : list zap.Entry;
  returned : option (exec (result (list GroupDescription)))
}.

Definition start (brokersByID : gmap Z sarama.Broker)
    (groupsByBrokerID : gmap Z (list string)) : state :=
  mkState (map (fun '(b, grps) => worker b b grps) (requests brokersByID groupsByBrokerID))
          [] false false [] [] None.

(** What the scheduler and the caller can make happen. *)
Inductive action : Type :=
| WorkerSend (i : nat)   (* the i-th worker in flight sends to resCh *)
| Close                  (* wg.Wait() is over: close(resCh) *)
| Cancel                 (* the caller cancels ctx *)
| Select_recv            (* select takes [d, ok := <-resCh] with ok *)
| Select_closed          (* select takes [d, ok := <-resCh] with !ok *)
| Select_ctxDone.        (* select takes [<-ctx.Done()] *)

(** The arm [case d, ok := <-resCh] with [ok] true. *)
Definition receive (st : state) (d : response) (rest : list response) : state :=
  match Err d with
  | Some err =>
      mkState (inflight st) rest (closed st) (ctxDone st) (descriptions st) (logged st)
        (Some (Done (Fail (Errorf
           "broker with id '%v' failed to describe the consumer groups: %v"
           [ArgInt32 (BrokerID d); ArgError err]))))
  | None =>
      match convertSaramaGroupDescriptions (Groups d) with
      | (lg, Panicked) =>
          mkState (inflight st) rest (closed st) (ctxDone st) (descriptions st)
            (logged st ++ lg) (Some Panicked)
      | (lg, Done (Fail err)) =>
          mkState (inflight st) rest (closed st) (ctxDone st) (descriptions st)
            (logged st ++ lg) (Some (Done (Fail err)))
      | (lg, Done (Ok converted)) =>
          mkState (inflight st) rest (closed st) (ctxDone st)
            (descriptions st ++ converted) (logged st ++ lg) None
      end
  end.

(** One action, [None] when it cannot happen in [st].  A receive from a
    channel gives the buffered values first and reports the close only
    when the buffer is empty; the [select] arms are open only while the
    call has not returned. *)
Definition step (st : state) (a : action) : option state :=
  match a with
  | WorkerSend i =>
      match inflight st !! i with
      | Some d =>
          Some (mkState (delete i (inflight st)) (resCh st ++ [d]) (closed st)
                  (ctxDone st) (descriptions st) (logged st) (returned st))
      | None => None
      end
  | Close =>
      match inflight st, closed st with
      | [], false =>
          Some (mkState [] (resCh st) true (ctxDone st) (descriptions st)
                  (logged st) (returned st))
      | _, _ => None
      end
  | Cancel =>
      Some (mkState (inflight st) (resCh st) (closed st) true (descriptions st)
              (logged st) (returned st))
  | Select_recv =>
      match returned st, resCh st with
      | None, d :: rest => Some (receive st d rest)
      | _, _ => None
      end
  | Select_closed =>
      match returned st, resCh st, closed st with
      | None, [], true =>
          Some (mkState (inflight st) [] true (ctxDone st) (descriptions st) (logged st)
                  (Some (Done (Ok (sort_slice less_GroupID (descriptions st))))))
      | _, _, _ => None
      end
  | Select_ctxDone =>
      match returned st, ctxDone st with
      | None, true =>
          Some (mkState (inflight st) (resCh st) (closed st) true (descriptions st)
                  (logged st ++ [zap.mkEntry zap.ErrorLevel "context has been cancelled"
                                   [zap.String "method" "list_consumer_groups"]])
                  (Some (Done (Fail (Errorf "context has been cancelled" [])))))
      | _, _ => None
      end
  end.

Fixpoint run (st : state) (sched : list action) : option state :=
  match sched with
  | [] => Some st
  | a :: sched =>
      match step st a with
      | Some st => run st sched
      | None => None
      end
  end.

(** The call.  The context [ctx] is in the schedule: it is cancelled
    where the schedule says [Cancel].  The result is [None] when
    [sched] is not a run of the program or stops before the call has
    returned. *)
Definition DescribeConsumerGroups (s : Service) (groups : list string)
    (sched : list action) : option (Go (result (list GroupDescription))) :=
  match bucket s groups ∅ ∅ with
  | Fail err => Some ([], Done (Fail err))
  | Ok (brokersByID, groupsByBrokerID) =>
      match run (start brokersByID groupsByBrokerID) sched with
      | Some st =>
          match returned st with
          | Some r => Some (logged st, r)
          | None => None
          end
      | None => None
      end
  end.


(** ** Concrete collaborators, for running the model *)

(** A broker that answers every request with one empty group per
    requested id. *)
Definition echo_group (group : string) : sarama.GroupDescription :=
  sarama.mkGroup sarama.ErrNoError group "Empty" "consumer" "" [].

Definition echo_broker (id : Z) : sarama.Broker :=
  sarama.mkBroker id (fun grps => Ok (map echo_group grps)).

Definition echo_description (group : string) : GroupDescription :=
  mkGroupDescription group "Empty" "consumer" "" [].

(** Every group is coordinated by broker 1. *)
Definition one_broker : Service :=
  mkService (sarama.mkClient (fun _ => Ok (echo_broker 1))).

(** "group-a" is coordinated by broker 1, every other group by broker 2. *)
Definition two_brokers : Service :=
  mkService (sarama.mkClient (fun group =>
    if String.eqb group "group-a" then Ok (echo_broker 1) else Ok (echo_broker 2))).

(** A member whose payload is cut after its first topic: the decoder
    returns what it has read and an error. *)
Definition truncated_error : error := errorString "insufficient data to decode packet".

Definition truncated_member : sarama.GroupMemberDescription :=
  sarama.mkMember "client-1" "/10.0.0.1"
    (Some (sarama.mkAssignment [("topic-x", [1])]), Some truncated_error).

(** A member for which the decoder returns a nil pointer and an error. *)
Definition nil_member : sarama.GroupMemberDescription :=
  sarama.mkMember "client-2" "/10.0.0.2" (None, Some truncated_error).

(** A member whose payload decodes. *)
Definition healthy_member : sarama.GroupMemberDescription :=
  sarama.mkMember "client-3" "/10.0.0.3"
    (Some (sarama.mkAssignment [("topic-y", [3; 1]); ("topic-x", [2; 0; 1])]), None).

(** A broker that answers with one group of one member. *)
Definition member_broker (m : sarama.GroupMemberDescription) : sarama.Broker :=
  sarama.mkBroker 1 (fun _ =>
    Ok [ sarama.mkGroup sarama.ErrNoError "group-a" "Stable" "consumer" "range"
           [("m1", m)] ]).

Definition member_service (m : sarama.GroupMemberDescription) : Service :=
  mkService (sarama.mkClient (fun _ => Ok (member_broker m))).

(** Broker 1 of the example scenario, and its member "m1". *)
Definition scenario_member : sarama.GroupMemberDescription :=
  sarama.mkMember "client-4" "/10.0.0.4"
    (Some (sarama.mkAssignment [("topic-x", [2; 0; 1])]), None).

Definition scenario_broker : sarama.Broker :=
  sarama.mkBroker 1 (fun _ =>
    Ok [ sarama.mkGroup sarama.ErrNoError "group-a" "Stable" "consumer" "range"
           [("m1", scenario_member)];
         sarama.mkGroup sarama.ErrNoError "group-b" "Empty" "consumer" "" [] ]).

Definition scenario : Service :=
  mkService (sarama.mkClient (fun _ => Ok scenario_broker)).

(** A broker that reports error code 15 for the second group it is
    asked about. *)
Definition group_error_broker : sarama.Broker :=
  sarama.mkBroker 1 (fun _ =>
    Ok [ echo_group "group-a";
         sarama.mkGroup 15 "group-b" "" "" "" [] ]).

Definition group_error_service : Service :=
  mkService (sarama.mkClient (fun _ => Ok group_error_broker)).

(** Broker 2 cannot be reached; "group-c" has no coordinator. *)
Definition unreachable : error := errorString "dial tcp: connection refused".

Definition failing_broker : sarama.Broker :=
  sarama.mkBroker 2 (fun _ => Fail unreachable).

Definition no_coordinator : error := KError 15.

Definition failing_service : Service :=
  mkService (sarama.mkClient (fun group =>
    if String.eqb group "group-a" then Ok (echo_broker 1)
    else if String.eqb group "group-c" then Fail no_coordinator
    else Ok failing_broker)).


(** ** Notions used in the statements *)

(** The entry that [convertGroupMembers] logs when a payload does not
    decode. *)
Definition decode_warning (m : sarama.GroupMemberDescription) (err : error) : zap.Entry :=
  zap.mkEntry zap.WarnLevel "failed to decode member assignments"
    [zap.String "client_id" (sarama.ClientId m); zap.Error err].

(** The assignment built from one entry of the decoded topic map. *)
Definition assignment_of (tp : string * list Z) : GroupMemberAssignment :=
  mkGroupMemberAssignment tp.1 (sort_slice less_int32 tp.2).

(** Ascending order of strings, of topic names and of group ids. *)
Definition string_le (a b : string) : Prop := String.leb a b = true.

Definition TopicName_le (a b : GroupMemberAssignment) : Prop :=
  string_le (TopicName a) (TopicName b).

Definition GroupID_le (a b : GroupDescription) : Prop :=
  string_le (GroupID a) (GroupID b).


(** The assignments that [convertGroupMembers] gives a member of a
    group of the given protocol type; [None] where it dereferences a
    nil pointer. *)
Definition member_assignments (protocolType : string)
    (m : sarama.GroupMemberDescription) : option (list GroupMemberAssignment) :=
  if String.eqb protocolType "consumer" then
    match (sarama.GetMemberAssignment m).1 with
    | Some asg => Some (sort_slice less_TopicName (map assignment_of (sarama.Topics asg)))
    | None => None
    end
  else Some [].

(** What it logs for that member. *)
Definition member_warnings (protocolType : string)
    (m : sarama.GroupMemberDescription) : list zap.Entry :=
  if String.eqb protocolType "consumer" then
    match (sarama.GetMemberAssignment m).2 with
    | Some err => [decode_warning m err]
    | None => []
    end
  else [].

(** [d] is the output member for the entry [idm] of the member map. *)
Definition member_rel (protocolType : string)
    (idm : string * sarama.GroupMemberDescription) (d : GroupMemberDescription) : Prop :=
  ID d = idm.1 /\ ClientID d = sarama.ClientId idm.2 /\
  ClientHost d = sarama.ClientHost idm.2 /\
  member_assignments protocolType idm.2 = Some (Assignments d).

(** [g] is the output group for the raw group [rg]. *)
Definition group_rel (rg : sarama.GroupDescription) (g : GroupDescription) : Prop :=
  sarama.Err rg = sarama.ErrNoError /\
  GroupID g = sarama.GroupId rg /\ State g = sarama.State rg /\
  ProtocolType g = sarama.ProtocolType rg /\ Protocol g = sarama.Protocol rg /\
  Forall2 (member_rel (sarama.ProtocolType rg)) (sarama.Members rg) (Members g).

(** No member of the raw group makes [GetMemberAssignment] return a
    nil pointer where the code dereferences it. *)
Definition decodes_non_nil (rg : sarama.GroupDescription) : Prop :=
  sarama.ProtocolType rg = "consumer" ->
  forall id m, (id, m) ∈ sarama.Members rg -> (sarama.GetMemberAssignment m).1 <> None.

(** The id of the broker that coordinates [group], when it resolves. *)
Definition coordinator_id (s : Service) (group : string) : option Z :=
  match sarama.Coordinator (Client s) group with
  | Ok coordinator => Some (sarama.ID coordinator)
  | Fail _ => None
  end.

(** The ids of the coordinators of [groups], one per group, with
    repetitions. *)
Definition coordinator_ids (s : Service) (groups : list string) : list Z :=
  omap (coordinator_id s) groups.

(** The groups of the request that are coordinated by broker [id], in
    the order of the request. *)
Definition coordinated_by (s : Service) (id : Z) (groups : list string) : list string :=
  filter (fun group => coordinator_id s group = Some id) groups.


(** The two errors that [DescribeConsumerGroups] builds itself. *)
Definition cancelled_error : error := Errorf "context has been cancelled" [].

Definition broker_failed (BrokerID : Z) (err : error) : error :=
  Errorf "broker with id '%v' failed to describe the consumer groups: %v"
    [ArgInt32 BrokerID; ArgError err].

(** The descriptions that the loop appends for a received value; [None]
    where it returns or panics instead. *)
Definition converted (d : response) : option (list GroupDescription) :=
  match Err d, convertSaramaGroupDescriptions (Groups d) with
  | None, (_, Done (Ok l)) => Some l
  | _, _ => None
  end.

(** [descriptions] after the values [rs] have been received in this
    order. *)
Fixpoint collect (rs : list response) : option (list GroupDescription) :=
  match rs with
  | [] => Some []
  | d :: rs =>
      match converted d, collect rs with
      | Some l, Some ls => Some (l ++ ls)
      | _, _ => None
      end
  end.

(** The values that the workers of a call send. *)
Definition answers (s : Service) (groups : list string) : list response :=
  match bucket s groups ∅ ∅ with
  | Ok (brokersByID, groupsByBrokerID) => inflight (start brokersByID groupsByBrokerID)
  | Fail _ => []
  end.

(** What holds of every state of a call whose workers send [W]. *)
Definition invariant (W : list response) (st : state) : Prop :=
  exists consumed,
    inflight st ++ resCh st ++ consumed ≡ₚ W /\
    (closed st = true -> inflight st = []) /\
    match returned st with
    | None => collect consumed = Some (descriptions st)
    | Some (Done (Ok out)) =>
        inflight st = [] /\ resCh st = [] /\
        exists ds, collect consumed = Some ds /\ out = sort_slice less_GroupID ds
    | Some (Done (Fail err)) =>
        (err = cancelled_error /\ ctxDone st = true) \/
        (exists d e, d ∈ W /\ Err d = Some e /\ err = broker_failed (BrokerID d) e) \/
        (exists d lg, d ∈ W /\ Err d = None /\
           convertSaramaGroupDescriptions (Groups d) = (lg, Done (Fail err)))
    | Some Panicked =>
        exists d lg, d ∈ W /\ Err d = None /\
          convertSaramaGroupDescriptions (Groups d) = (lg, Panicked)
    end.


(** Broker [b] answers a request with one raw group per requested id,
    in the order of the request, as the protocol has it. *)
Definition answers_requests (b : sarama.Broker) : Prop :=
  forall grps r, sarama.DescribeGroups b grps = Ok r -> map sarama.GroupId r = grps.

Definition brokers_answer_requests (s : Service) (groups : list string) : Prop :=
  forall group b, group ∈ groups ->
    sarama.Coordinator (Client s) group = Ok b -> answers_requests b.

(** [assignments] hold the entries of the topic map [topics]: one
    assignment per entry, with the partition ids of the entry. *)
Definition holds_topics (topics : list (string * list Z))
    (assignments : list GroupMemberAssignment) : Prop :=
  exists topics', topics' ≡ₚ topics /\
    Forall2 (fun a tp => TopicName a = tp.1 /\ PartitionIDs a ≡ₚ tp.2) assignments topics'.

(** The assignments of an output member against what the decoder gave
    for the raw member [rm]. *)
Definition assignments_from (protocolType : string)
    (rm : sarama.GroupMemberDescription) (assignments : list GroupMemberAssignment) : Prop :=
  if String.eqb protocolType "consumer" then
    exists asg err, sarama.GetMemberAssignment rm = (Some asg, err) /\
      holds_topics (sarama.Topics asg) assignments
  else assignments = [].


(** The entry that the loop logs when it takes [<-ctx.Done()]. *)
Definition cancelled_entry : zap.Entry :=
  zap.mkEntry zap.ErrorLevel "context has been cancelled"
    [zap.String "method" "list_consumer_groups"].


(** The output of the example scenario of the specification. *)
Definition example_output (protocol_a protocol_b clientId clientHost : string)
    : list GroupDescription :=
  [ mkGroupDescription "group-a" "Stable" "consumer" protocol_a
      [ mkGroupMemberDescription "m1" clientId clientHost
          [ mkGroupMemberAssignment "topic-x" [0; 1; 2] ] ];
    mkGroupDescription "group-b" "Empty" "consumer" protocol_b [] ].


(** A member map with a member whose payload is cut and one whose
    payload decodes, and what [convertGroupMembers] makes of it. *)
Definition two_members : list (string * sarama.GroupMemberDescription) :=
  [("m1", truncated_member); ("m2", healthy_member)].

Definition two_members_out : list GroupMemberDescription :=
  [ mkGroupMemberDescription "m1" "client-1" "/10.0.0.1"
      [ mkGroupMemberAssignment "topic-x" [1] ];
    mkGroupMemberDescription "m2" "client-3" "/10.0.0.3"
      [ mkGroupMemberAssignment "topic-x" [0; 1; 2];
        mkGroupMemberAssignment "topic-y" [1; 3] ] ].

(** A raw group with error code 15. *)
Definition error_group : sarama.GroupDescription :=
  sarama.mkGroup 15 "group-b" "" "" "" [].

(** The two maps that step 1 builds for ["group-b"; "group-a"] and the
    service [two_brokers]. *)
Definition two_brokers_brokersByID : gmap Z sarama.Broker :=
  <[2 := echo_broker 2]> {[1 := echo_broker 1]}.

Definition two_brokers_groupsByBrokerID : gmap Z (list string) :=
  <[2 := ["group-b"]]> {[1 := ["group-a"]]}.

(** The member that [convertGroupMembers] builds for an entry of the
    member map when its assignments are [assignments]. *)
Definition member_with (assignments : list GroupMemberAssignment)
    (idm : string * sarama.GroupMemberDescription) : GroupMemberDescription :=
  mkGroupMemberDescription idm.1 (sarama.ClientId idm.2) (sarama.ClientHost idm.2)
    assignments.

(** The warning, if any, that decoding the payload of a member gives
    rise to. *)
Definition decode_warning_of (idm : string * sarama.GroupMemberDescription)
    : option zap.Entry :=
  match (sarama.GetMemberAssignment idm.2).2 with
  | Some err => Some (decode_warning idm.2 err)
  | None => None
  end.

(** A log entry of level Warn. *)
Definition is_warning (e : zap.Entry) : Prop := zap.level e = zap.WarnLevel.

(** The shape of the log of a call that has returned [r], or has not
    returned yet: warnings, and the cancellation entry at the end
    exactly when the cancellation error is returned. *)
Definition logs_as (r : option (exec (result (list GroupDescription))))
    (lg : list zap.Entry) : Prop :=
  (r <> Some (Done (Fail cancelled_error)) /\ Forall is_warning lg) \/
  (r = Some (Done (Fail cancelled_error)) /\
   exists l, lg = l ++ [cancelled_entry] /\ Forall is_warning l).

(** ** Notions used in the revised statements *)






(** The entries of the member map of a "consumer" group that the range
    loop reaches: all of them, or those up to and including the first
    one for which the decoder returns a nil pointer. *)
Fixpoint visited (members : list (string * sarama.GroupMemberDescription))
    : list (string * sarama.GroupMemberDescription) :=
  match members with
  | [] => []
  | idm :: rest =>
      match (sarama.GetMemberAssignment idm.2).1 with
      | Some _ => idm :: visited rest
      | None => [idm]
      end
  end.

(** A member with an empty payload, for which the decoder returns a
    nil pointer and no error. *)
Definition empty_payload_member : sarama.GroupMemberDescription :=
  sarama.mkMember "client-5" "/10.0.0.5" (None, None).

(** A broker that answers with one "consumer" group per requested id,
    each with the given members. *)
Definition members_broker (members : list (string * sarama.GroupMemberDescription))
    : sarama.Broker :=
  sarama.mkBroker 1 (fun grps =>
    Ok (map (fun group =>
               sarama.mkGroup sarama.ErrNoError group "Stable" "consumer" "range" members)
            grps)).

Definition members_service (members : list (string * sarama.GroupMemberDescription))
    : Service :=
  mkService (sarama.mkClient (fun _ => Ok (members_broker members))).

(** A broker whose answer holds a group with an empty payload before a
    group with error code 15. *)
Definition nil_before_error_broker : sarama.Broker :=
  sarama.mkBroker 1 (fun _ =>
    Ok [ sarama.mkGroup sarama.ErrNoError "group-a" "Stable" "consumer" "range"
           [("m1", empty_payload_member)];
         error_group ]).

Definition nil_before_error_service : Service :=
  mkService (sarama.mkClient (fun _ => Ok nil_before_error_broker)).

(** What holds of the log of every state of a call whose workers send
    [W]: it holds the entries that the conversion of every received
    value has logged. *)
Definition logs_received (W : list response) (st : state) : Prop :=
  exists consumed,
    inflight st ++ resCh st ++ consumed ≡ₚ W /\
    (closed st = true -> inflight st = []) /\
    (forall out, returned st = Some (Done (Ok out)) ->
       inflight st = [] /\ resCh st = []) /\
    (forall d e, d ∈ consumed -> Err d = None ->
       e ∈ (convertSaramaGroupDescriptions (Groups d)).1 -> e ∈ logged st).

(** Nothing but a decode error is wrong with the answers of a call. *)
Definition healthy (d : response) : Prop :=
  Err d = None /\
  Forall (fun rg => sarama.Err rg = sarama.ErrNoError /\ decodes_non_nil rg) (Groups d).

(** ** Two runs against the same brokers

    Go visits a map in an order that changes from one range loop to the
    next.  The member maps and topic maps of two runs are lists in the
    order of their range loops; the runs are against the same brokers
    when these lists hold the same entries. *)

(** Two visits of the same decoded topic map, whose keys are distinct. *)
Definition same_assignment
    (a1 a2 : option sarama.ConsumerGroupMemberAssignment) : Prop :=
  match a1, a2 with
  | Some a1, Some a2 =>
      sarama.Topics a1 ≡ₚ sarama.Topics a2 /\ NoDup (map fst (sarama.Topics a1))
  | None, None => True
  | _, _ => False
  end.

Definition same_member (m1 m2 : sarama.GroupMemberDescription) : Prop :=
  sarama.ClientId m1 = sarama.ClientId m2 /\
  sarama.ClientHost m1 = sarama.ClientHost m2 /\
  (sarama.GetMemberAssignment m1).2 = (sarama.GetMemberAssignment m2).2 /\
  same_assignment (sarama.GetMemberAssignment m1).1 (sarama.GetMemberAssignment m2).1.

(** Two visits of the same member map. *)
Definition same_members (l1 l2 : list (string * sarama.GroupMemberDescription)) : Prop :=
  exists l, l ≡ₚ l1 /\ Forall2 (fun x y => x.1 = y.1 /\ same_member x.2 y.2) l l2.

Definition same_group (rg1 rg2 : sarama.GroupDescription) : Prop :=
  sarama.Err rg1 = sarama.Err rg2 /\ sarama.GroupId rg1 = sarama.GroupId rg2 /\
  sarama.State rg1 = sarama.State rg2 /\
  sarama.ProtocolType rg1 = sarama.ProtocolType rg2 /\
  sarama.Protocol rg1 = sarama.Protocol rg2 /\
  same_members (sarama.Members rg1) (sarama.Members rg2).

Definition same_answer (r1 r2 : result (list sarama.GroupDescription)) : Prop :=
  match r1, r2 with
  | Ok l1, Ok l2 => Forall2 same_group l1 l2
  | Fail e1, Fail e2 => e1 = e2
  | _, _ => False
  end.

Definition same_broker (b1 b2 : sarama.Broker) : Prop :=
  sarama.ID b1 = sarama.ID b2 /\
  forall grps, same_answer (sarama.DescribeGroups b1 grps) (sarama.DescribeGroups b2 grps).

Definition same_service (s1 s2 : Service) : Prop :=
  forall group,
    match sarama.Coordinator (Client s1) group, sarama.Coordinator (Client s2) group with
    | Ok b1, Ok b2 => same_broker b1 b2
    | Fail e1, Fail e2 => e1 = e2
    | _, _ => False
    end.

Definition same_brokers (bs1 bs2 : gmap Z sarama.Broker) : Prop :=
  forall id,
    match bs1 !! id, bs2 !! id with
    | Some b1, Some b2 => same_broker b1 b2
    | None, None => True
    | _, _ => False
    end.

Definition same_response (d1 d2 : response) : Prop :=
  Err d1 = Err d2 /\ BrokerID d1 = BrokerID d2 /\
  Forall2 same_group (Groups d1) (Groups d2).

(** Two descriptions of a group that differ at most in the order of
    the members. *)
Definition same_description (g1 g2 : GroupDescription) : Prop :=
  GroupID g1 = GroupID g2 /\ State g1 = State g2 /\
  ProtocolType g1 = ProtocolType g2 /\ Protocol g1 = Protocol g2 /\
  Members g1 ≡ₚ Members g2.

(** The members "m1" and "m2" of a group, as two range loops visit
    them. *)
Definition members_m1_m2 : list (string * sarama.GroupMemberDescription) :=
  [("m1", healthy_member); ("m2", scenario_member)].

Definition members_m2_m1 : list (string * sarama.GroupMemberDescription) :=
  [("m2", scenario_member); ("m1", healthy_member)].

Definition member_m1_out : GroupMemberDescription :=
  mkGroupMemberDescription "m1" "client-3" "/10.0.0.3"
    [ mkGroupMemberAssignment "topic-x" [0; 1; 2];
      mkGroupMemberAssignment "topic-y" [1; 3] ].

Definition member_m2_out : GroupMemberDescription :=
  mkGroupMemberDescription "m2" "client-4" "/10.0.0.4"
    [ mkGroupMemberAssignment "topic-x" [0; 1; 2] ].

Definition group_a_m1_m2 : GroupDescription :=
  mkGroupDescription "group-a" "Stable" "consumer" "range" [member_m1_out; member_m2_out].

Definition group_a_m2_m1 : GroupDescription :=
  mkGroupDescription "group-a" "Stable" "consumer" "range" [member_m2_out; member_m1_out].

(** Two brokers that both answer with a record for "group-a", whatever
    they are asked. *)
Definition misnaming_service : Service :=
  mkService (sarama.mkClient (fun group =>
    if String.eqb group "group-a" then
      Ok (sarama.mkBroker 1 (fun _ =>
            Ok [ sarama.mkGroup sarama.ErrNoError "group-a" "Stable" "consumer" "range" [] ]))
    else
      Ok (sarama.mkBroker 2 (fun _ =>
            Ok [ sarama.mkGroup sarama.ErrNoError "group-a" "Empty" "consumer" "" [] ])))).

(** * Proofs *)

(** ** The orders *)

Lemma Ascii_compare_Lt_trans (a b c : Ascii.ascii) :
  Ascii.compare a b = Lt -> Ascii.compare b c = Lt -> Ascii.compare a c = Lt.
Proof.
  unfold Ascii.compare. rewrite !N.compare_lt_iff. lia.
Qed.

Lemma String_compare_Lt_trans (a b c : string) :
  String.compare a b = Lt -> String.compare b c = Lt -> String.compare a c = Lt.
Proof.
  revert b c. induction a as [|x a IH]; intros [|y b] [|z c]; simpl; try congruence.
  destruct (Ascii.compare x y) eqn:Hxy; try discriminate.
  - apply Ascii.compare_eq_iff in Hxy. subst y.
    destruct (Ascii.compare x z); try congruence. apply IH.
  - intros _. destruct (Ascii.compare y z) eqn:Hyz; try discriminate.
    + apply Ascii.compare_eq_iff in Hyz. subst z. now rewrite Hxy.
    + intros _. now rewrite (Ascii_compare_Lt_trans x y z).
Qed.

Lemma String_compare_refl (a : string) : String.compare a a = Eq.
Proof.
  induction a as [|x a IH]; simpl; [reflexivity|].
  unfold Ascii.compare. now rewrite N.compare_refl.
Qed.

Lemma String_ltb_leb (a b : string) : String.ltb b a = false <-> String.leb a b = true.
Proof.
  unfold String.ltb, String.leb. rewrite (String.compare_antisym b a).
  destruct (String.compare a b); simpl; intuition congruence.
Qed.

Lemma String_ltb_strict_weak_order : strict_weak_order String.ltb.
Proof.
  split.
  - intros a b. unfold String.ltb. rewrite (String.compare_antisym b a).
    destruct (String.compare a b); simpl. all: congruence.
  - intros a b c. unfold String.ltb.
    destruct (String.compare a c) eqn:Hac; try reflexivity.
    destruct (String.compare a b) eqn:Hab; try discriminate;
      destruct (String.compare b c) eqn:Hbc; try discriminate; intros _ _; exfalso.
    + apply String.compare_eq_iff in Hab, Hbc. subst.
      rewrite String_compare_refl in Hac. discriminate.
    + apply String.compare_eq_iff in Hab. subst. congruence.
    + apply String.compare_eq_iff in Hbc. subst. congruence.
    + rewrite String.compare_antisym in Hab, Hbc.
      destruct (String.compare b a) eqn:Hba; try discriminate.
      destruct (String.compare c b) eqn:Hcb; try discriminate.
      pose proof (String_compare_Lt_trans _ _ _ Hcb Hba) as Hca.
      rewrite String.compare_antisym, Hca in Hac. discriminate.
Qed.

Lemma less_int32_strict_weak_order : strict_weak_order less_int32.
Proof.
  split; unfold less_int32; intros; lia.
Qed.

Lemma strict_weak_order_key {A K} (key : A -> K) (lt : K -> K -> bool) :
  strict_weak_order lt -> strict_weak_order (fun a b => lt (key a) (key b)).
Proof.
  intros [Hasym Hneg]. split; eauto.
Qed.

Lemma less_TopicName_strict_weak_order : strict_weak_order less_TopicName.
Proof. apply (strict_weak_order_key TopicName), String_ltb_strict_weak_order. Qed.

Lemma less_GroupID_strict_weak_order : strict_weak_order less_GroupID.
Proof. apply (strict_weak_order_key GroupID), String_ltb_strict_weak_order. Qed.

Create HintDb less discriminated.
#[local] Hint Resolve less_int32_strict_weak_order less_TopicName_strict_weak_order
  less_GroupID_strict_weak_order : less.

Lemma ascending_trans {A} (less : A -> A -> bool) :
  strict_weak_order less -> Transitive (ascending less).
Proof.
  intros [_ Hneg] a b c Hab Hbc. unfold ascending in *. eauto.
Qed.

Lemma ascending_total {A} (less : A -> A -> bool) :
  strict_weak_order less -> Total (ascending less).
Proof.
  intros [Hasym _] a b. unfold ascending.
  destruct (less b a) eqn:Hba; [right; auto | left; reflexivity].
Qed.

(** [merge_sort_slice] meets the contract of [sort.Slice]. *)
Lemma merge_sort_slice_Permutation (A : Type) (less : A -> A -> bool) (l : list A) :
  Permutation (merge_sort_slice A less l) l.
Proof. apply merge_sort_Permutation. Qed.

Lemma merge_sort_slice_Sorted (A : Type) (less : A -> A -> bool) (l : list A) :
  strict_weak_order less -> Sorted (ascending less) (merge_sort_slice A less l).
Proof.
  intros Hless. apply Sorted_merge_sort. now apply ascending_total.
Qed.

(** ** What follows from the contract of [sort.Slice] *)

Lemma sort_slice_StronglySorted {A} (less : A -> A -> bool) (l : list A) :
  strict_weak_order less -> StronglySorted (ascending less) (sort_slice less l).
Proof.
  intros Hless. apply Sorted_StronglySorted.
  - now apply ascending_trans.
  - now apply sort_slice_Sorted.
Qed.

Lemma sort_slice_elem_of {A} (less : A -> A -> bool) (l : list A) (x : A) :
  x ∈ sort_slice less l <-> x ∈ l.
Proof. now rewrite (sort_slice_Permutation A less l). Qed.

Lemma sort_slice_nil {A} (less : A -> A -> bool) : sort_slice less (@nil A) = [].
Proof. apply Permutation_nil_r, sort_slice_Permutation. Qed.

Lemma sort_slice_length {A} (less : A -> A -> bool) (l : list A) :
  length (sort_slice less l) = length l.
Proof. apply Permutation_length, sort_slice_Permutation. Qed.

(** Where [less] tells the elements of the slice apart, the sorted
    slice depends neither on the order before the call nor on the
    sorting algorithm. *)
Lemma sorted_Permutation_unique {A} (less : A -> A -> bool) (l1 l2 : list A) :
  strict_weak_order less ->
  (forall x y, x ∈ l1 -> y ∈ l1 -> less x y = false -> less y x = false -> x = y) ->
  Sorted (ascending less) l1 -> Sorted (ascending less) l2 ->
  Permutation l1 l2 -> l1 = l2.
Proof.
  intros Hless Hanti H1 H2 Hperm.
  pose proof (ascending_trans less Hless).
  apply (Sorted_unique_strong (ascending less)); auto.
  intros x y Hx Hy Hxy Hyx. apply Hanti; auto.
  now rewrite Hperm.
Qed.

Lemma sort_slice_unique {A} (less : A -> A -> bool) (l1 l2 : list A) :
  strict_weak_order less ->
  (forall x y, x ∈ l1 -> y ∈ l1 -> less x y = false -> less y x = false -> x = y) ->
  Permutation l1 l2 -> sort_slice less l1 = sort_slice less l2.
Proof.
  intros Hless Hanti Hperm.
  apply (sorted_Permutation_unique less); auto.
  - intros x y Hx Hy. apply Hanti; now rewrite <- (sort_slice_elem_of less).
  - now rewrite !sort_slice_Permutation.
Qed.

Lemma sort_slice_merge_sort {A} (less : A -> A -> bool) (l : list A) :
  strict_weak_order less ->
  (forall x y, x ∈ l -> y ∈ l -> less x y = false -> less y x = false -> x = y) ->
  sort_slice less l = merge_sort_slice A less l.
Proof.
  intros Hless Hanti.
  apply (sorted_Permutation_unique less); auto.
  - intros x y Hx Hy. apply Hanti; now rewrite <- (sort_slice_elem_of less).
  - now apply merge_sort_slice_Sorted.
  - now rewrite sort_slice_Permutation, merge_sort_slice_Permutation.
Qed.

Lemma sort_slice_int32 (l : list Z) :
  sort_slice less_int32 l = merge_sort_slice Z less_int32 l.
Proof.
  apply sort_slice_merge_sort; [apply less_int32_strict_weak_order|].
  unfold less_int32. intros; lia.
Qed.

(** Sorting by a string key yields the key order [string_le]. *)
Lemma StronglySorted_key_le {A} (key : A -> string) (l : list A) :
  StronglySorted (ascending (fun a b => String.ltb (key a) (key b))) l ->
  StronglySorted (fun a b => string_le (key a) (key b)) l.
Proof.
  induction 1 as [|a l Hl IH Ha]; constructor; auto.
  eapply Forall_impl; [exact Ha|].
  intros b Hb. now apply String_ltb_leb.
Qed.

Lemma string_le_antisym (a b : string) : string_le a b -> string_le b a -> a = b.
Proof. apply String.leb_antisym. Qed.

(** ** The monad *)

Lemma bind_Done {A B} (m : Go A) (k : A -> Go B) lg b :
  bind m k = (lg, Done b) ->
  exists l1 a l2, m = (l1, Done a) /\ k a = (l2, Done b) /\ lg = l1 ++ l2.
Proof.
  destruct m as [l1 [a|]]; simpl; [|discriminate].
  destruct (k a) as [l2 r] eqn:Hk. intros [= <- ->]. eauto 6.
Qed.

Lemma bind_Panicked {A B} (m : Go A) (k : A -> Go B) lg :
  bind m k = (lg, Panicked) ->
  m = (lg, Panicked) \/
  exists l1 a l2, m = (l1, Done a) /\ k a = (l2, Panicked) /\ lg = l1 ++ l2.
Proof.
  destruct m as [l1 [a|]]; simpl.
  - destruct (k a) as [l2 r] eqn:Hk. intros [= <- ->]. right. eauto 6.
  - intros [= <-]. now left.
Qed.

(** ** convertGroupMembers *)

Lemma range_Topics_spec topics resultAssignments :
  range_Topics topics resultAssignments = resultAssignments ++ map assignment_of topics.
Proof.
  revert resultAssignments.
  induction topics as [|[topic partitionIDs] rest IH]; intros acc; simpl.
  - now rewrite app_nil_r.
  - rewrite IH, <- app_assoc. reflexivity.
Qed.

Lemma convertGroupMember_consumer id m asg err :
  sarama.GetMemberAssignment m = (Some asg, err) ->
  convertGroupMember id m "consumer" =
    (match err with Some e => [decode_warning m e] | None => [] end,
     Done (mkGroupMemberDescription id (sarama.ClientId m) (sarama.ClientHost m)
             (sort_slice less_TopicName (map assignment_of (sarama.Topics asg))))).
Proof.
  intros Hdec. unfold convertGroupMember. simpl. rewrite Hdec.
  rewrite range_Topics_spec. destruct err; reflexivity.
Qed.

Lemma convertGroupMember_nil id m err :
  sarama.GetMemberAssignment m = (None, err) ->
  convertGroupMember id m "consumer" =
    (match err with Some e => [decode_warning m e] | None => [] end, Panicked).
Proof.
  intros Hdec. unfold convertGroupMember. simpl. rewrite Hdec.
  destruct err; reflexivity.
Qed.

Lemma convertGroupMember_other id m protocolType :
  protocolType <> "consumer" ->
  convertGroupMember id m protocolType =
    ([], Done (mkGroupMemberDescription id (sarama.ClientId m) (sarama.ClientHost m) [])).
Proof.
  intros Hne. unfold convertGroupMember.
  apply String.eqb_neq in Hne. rewrite Hne. simpl.
  now rewrite sort_slice_nil.
Qed.

Lemma convertGroupMember_spec id m protocolType :
  convertGroupMember id m protocolType =
    (member_warnings protocolType m,
     match member_assignments protocolType m with
     | Some a =>
         Done (mkGroupMemberDescription id (sarama.ClientId m) (sarama.ClientHost m) a)
     | None => Panicked
     end).
Proof.
  unfold member_warnings, member_assignments.
  destruct (String.eqb_spec protocolType "consumer") as [->|Hne].
  - destruct (sarama.GetMemberAssignment m) as [[asg|] err] eqn:Hdec; simpl.
    + now apply convertGroupMember_consumer.
    + now apply convertGroupMember_nil.
  - now apply convertGroupMember_other.
Qed.

Lemma range_members_Done members protocolType lg out :
  range_members members protocolType = (lg, Done out) ->
  Forall2 (member_rel protocolType) members out /\
  lg = concat (map (fun idm => member_warnings protocolType idm.2) members).
Proof.
  revert lg out. induction members as [|[id m] rest IH]; intros lg out; simpl.
  - intros [= <- <-]. split; [constructor | reflexivity].
  - intros H. apply bind_Done in H as (l1 & d & l2 & Hd & H & ->).
    apply bind_Done in H as (l3 & ds & l4 & Hds & [= <- <-] & ->).
    rewrite convertGroupMember_spec in Hd.
    destruct (member_assignments protocolType m) as [a|] eqn:Ha; [|discriminate].
    injection Hd as <- <-.
    destruct (IH _ _ Hds) as [Hrel ->]. split.
    + constructor; [|exact Hrel]. repeat split; simpl; auto.
    + now rewrite app_nil_r.
Qed.

Lemma range_members_total members protocolType :
  (forall id m, (id, m) ∈ members -> is_Some (member_assignments protocolType m)) ->
  exists lg out, range_members members protocolType = (lg, Done out).
Proof.
  induction members as [|[id m] rest IH]; intros Hsome; simpl.
  - eexists _, _. reflexivity.
  - destruct (Hsome id m) as [a Ha]; [left|].
    destruct IH as (lg & out & Hrest).
    { intros id' m' Hin. apply (Hsome id' m'). now right. }
    rewrite convertGroupMember_spec, Ha, Hrest. simpl. eauto.
Qed.

Lemma range_members_panics members protocolType id m :
  (id, m) ∈ members -> member_assignments protocolType m = None ->
  exists lg, range_members members protocolType = (lg, Panicked).
Proof.
  intros Hin Hnil. induction members as [|[id' m'] rest IH]; [inversion Hin|].
  simpl. rewrite convertGroupMember_spec.
  destruct (member_assignments protocolType m') as [a|] eqn:Ha; simpl; [|eauto].
  apply elem_of_cons in Hin as [[= -> ->]|Hin]; [congruence|].
  destruct (IH Hin) as [lg ->]. simpl. eauto.
Qed.

Lemma convertGroupMembers_Done members protocolType lg r :
  convertGroupMembers members protocolType = (lg, Done r) ->
  exists out, r = Ok out /\ range_members members protocolType = (lg, Done out).
Proof.
  unfold convertGroupMembers. intros H.
  apply bind_Done in H as (l1 & out & l2 & Hout & [= <- <-] & ->).
  exists out. now rewrite app_nil_r.
Qed.

Lemma decodes_non_nil_Some rg :
  decodes_non_nil rg ->
  forall id m, (id, m) ∈ sarama.Members rg ->
    is_Some (member_assignments (sarama.ProtocolType rg) m).
Proof.
  intros Hnil id m Hin. unfold member_assignments.
  destruct (String.eqb_spec (sarama.ProtocolType rg) "consumer") as [Hpt|_]; [|eauto].
  specialize (Hnil Hpt id m Hin).
  destruct (sarama.GetMemberAssignment m).1; [eauto|now destruct Hnil].
Qed.

(** ** convertSaramaGroupDescriptions *)

Lemma convertSaramaGroupDescriptions_Ok descriptions lg out :
  convertSaramaGroupDescriptions descriptions = (lg, Done (Ok out)) ->
  Forall2 group_rel descriptions out.
Proof.
  revert lg out. induction descriptions as [|d rest IH]; intros lg out; simpl.
  - intros [= <- <-]. constructor.
  - destruct (sarama.Err d =? sarama.ErrNoError)%Z eqn:Herr; simpl; [|discriminate].
    intros H. apply bind_Done in H as (l1 & r & l2 & Hmem & H & ->).
    apply convertGroupMembers_Done in Hmem as (members & -> & Hmem).
    apply bind_Done in H as (l3 & r & l4 & Hrest & H & ->).
    destruct r as [response|err]; simpl in H; [|discriminate].
    injection H as <- <-.
    constructor; [|eapply IH; eauto].
    apply range_members_Done in Hmem as [Hrel _].
    repeat split; simpl; auto. lia.
Qed.

(** The first raw group with an error code decides the result, when no
    group before it makes the conversion panic. *)
Lemma convertSaramaGroupDescriptions_Err pre d post :
  Forall (fun rg => sarama.Err rg = sarama.ErrNoError /\ decodes_non_nil rg) pre ->
  sarama.Err d <> sarama.ErrNoError ->
  exists lg, convertSaramaGroupDescriptions (pre ++ d :: post)
             = (lg, Done (Fail (KError (sarama.Err d)))).
Proof.
  intros Hpre Hd. induction Hpre as [|rg pre [Hrg Hnil] _ IH]; simpl.
  - apply Z.eqb_neq in Hd. rewrite Hd. simpl. eauto.
  - apply Z.eqb_eq in Hrg. rewrite Hrg. simpl.
    destruct (range_members_total _ _ (decodes_non_nil_Some _ Hnil)) as (l1 & members & Hmem).
    destruct IH as [l2 IH].
    unfold convertGroupMembers. rewrite Hmem. simpl. rewrite IH. simpl. eauto.
Qed.

(** A batch that holds a group with an error code is never converted. *)
Lemma convertSaramaGroupDescriptions_not_Ok descriptions d lg out :
  d ∈ descriptions -> sarama.Err d <> sarama.ErrNoError ->
  convertSaramaGroupDescriptions descriptions <> (lg, Done (Ok out)).
Proof.
  intros Hin Hd H. apply convertSaramaGroupDescriptions_Ok in H.
  apply list_elem_of_lookup in Hin as [i Hi].
  destruct (Forall2_lookup_l _ _ _ _ _ H Hi) as (g & _ & Hg).
  now destruct Hg.
Qed.

Lemma convertSaramaGroupDescriptions_total descriptions :
  Forall (fun rg => sarama.Err rg = sarama.ErrNoError /\ decodes_non_nil rg) descriptions ->
  exists lg out, convertSaramaGroupDescriptions descriptions = (lg, Done (Ok out)).
Proof.
  induction 1 as [|rg rest [Hrg Hnil] _ IH]; simpl.
  - eexists _, _. reflexivity.
  - apply Z.eqb_eq in Hrg. rewrite Hrg. simpl.
    destruct (range_members_total _ _ (decodes_non_nil_Some _ Hnil)) as (l1 & members & Hmem).
    destruct IH as (l2 & out & IH).
    unfold convertGroupMembers. rewrite Hmem. simpl. rewrite IH. simpl. eauto.
Qed.

(** ** Step 1: the two maps *)

(** One turn of the loop of [bucket]: the coordinator of the group at
    the head resolves, or the call has failed. *)
Ltac destruct_coordinator s group c Hc :=
  destruct (sarama.Coordinator (Client s) group) as [c|?] eqn:Hc; [|discriminate].

Lemma bucket_groups s groups bs0 gs0 bs gs :
  bucket s groups bs0 gs0 = Ok (bs, gs) ->
  forall id, default [] (gs !! id) = default [] (gs0 !! id) ++ coordinated_by s id groups.
Proof.
  revert bs0 gs0. induction groups as [|group rest IH]; intros bs0 gs0; simpl.
  - intros [= <- <-] id. now rewrite app_nil_r.
  - unfold coordinated_by, coordinator_id in *.
    destruct_coordinator s group c Hc.
    intros H id. rewrite (IH _ _ H id). rewrite filter_cons. rewrite Hc.
    destruct (decide (sarama.ID c = id)) as [->|Hne].
    + rewrite lookup_insert_eq. rewrite decide_True by reflexivity.
      simpl. now rewrite <- app_assoc.
    + rewrite lookup_insert_ne by exact Hne.
      rewrite decide_False by congruence. reflexivity.
Qed.

Lemma bucket_dom s groups bs0 gs0 bs gs :
  bucket s groups bs0 gs0 = Ok (bs, gs) ->
  dom gs = dom gs0 ∪ list_to_set (coordinator_ids s groups) /\
  dom bs = dom bs0 ∪ list_to_set (coordinator_ids s groups).
Proof.
  revert bs0 gs0. induction groups as [|group rest IH]; intros bs0 gs0; simpl.
  - intros [= <- <-]. unfold coordinator_ids. simpl.
    now rewrite !(right_id_L ∅ (∪)).
  - unfold coordinator_ids, coordinator_id in *. simpl.
    destruct_coordinator s group c Hc.
    intros H. destruct (IH _ _ H) as [-> ->].
    rewrite !dom_insert_L. simpl.
    split.
    + now rewrite (comm_L (∪) {[sarama.ID c]} (dom gs0)), <- (assoc_L (∪)).
    + now rewrite (comm_L (∪) {[sarama.ID c]} (dom bs0)), <- (assoc_L (∪)).
Qed.

Lemma bucket_brokers_Forall (P : Z -> sarama.Broker -> Prop) s groups bs0 gs0 bs gs :
  bucket s groups bs0 gs0 = Ok (bs, gs) ->
  (forall group b, group ∈ groups ->
     sarama.Coordinator (Client s) group = Ok b -> P (sarama.ID b) b) ->
  map_Forall P bs0 -> map_Forall P bs.
Proof.
  revert bs0 gs0. induction groups as [|group rest IH]; intros bs0 gs0; simpl.
  - now intros [= <- <-].
  - destruct (sarama.Coordinator (Client s) group) as [c|err] eqn:Hc; [|discriminate].
    intros H HP H0. eapply IH; [exact H| |].
    + intros g b Hg. apply HP. now right.
    + apply map_Forall_insert_2; [|exact H0]. apply (HP group); [left|exact Hc].
Qed.

Lemma bucket_resolved s groups bs0 gs0 bs gs :
  bucket s groups bs0 gs0 = Ok (bs, gs) ->
  Forall (fun group => is_Some (coordinator_id s group)) groups.
Proof.
  revert bs0 gs0. induction groups as [|group rest IH]; intros bs0 gs0; simpl.
  - constructor.
  - unfold coordinator_id in *.
    destruct_coordinator s group c Hc.
    intros H. constructor; [rewrite Hc; eauto | eapply IH, H].
Qed.


(** After step 1 every key of [groupsByBrokerID] holds the groups of
    its broker, and [brokersByID] holds a broker of that id. *)
Lemma bucket_lookup s groups bs gs id grps :
  bucket s groups ∅ ∅ = Ok (bs, gs) ->
  gs !! id = Some grps ->
  grps = coordinated_by s id groups /\
  exists b, bs !! id = Some b /\ sarama.ID b = id /\
    exists group, group ∈ groups /\ sarama.Coordinator (Client s) group = Ok b.
Proof.
  intros Hb Hid. split.
  - pose proof (bucket_groups _ _ _ _ _ _ Hb id) as H.
    rewrite Hid, lookup_empty in H. exact H.
  - destruct (bucket_dom _ _ _ _ _ _ Hb) as [Hgs Hbs].
    assert (id ∈ dom bs) as Hin.
    { rewrite Hbs, dom_empty_L. rewrite dom_empty_L in Hgs.
      rewrite <- Hgs. apply elem_of_dom. eauto. }
    apply elem_of_dom in Hin as [b Hbid]. exists b. split; [exact Hbid|].
    refine (bucket_brokers_Forall
      (fun id b => sarama.ID b = id /\
         exists group, group ∈ groups /\ sarama.Coordinator (Client s) group = Ok b)
      _ _ _ _ _ _ Hb _ _ id b Hbid).
    + intros group b' Hg Hc. eauto.
    + apply map_Forall_empty.
Qed.

(** ** Step 2: one request per key *)

Lemma requests_spec s groups bs gs :
  bucket s groups ∅ ∅ = Ok (bs, gs) ->
  Forall2 (fun idg bg => sarama.ID bg.1 = idg.1 /\ bg.2 = idg.2 /\ bs !! idg.1 = Some bg.1)
          (map_to_list gs) (requests bs gs).
Proof.
  intros Hb. unfold requests.
  assert (forall idg, idg ∈ map_to_list gs -> gs !! idg.1 = Some idg.2) as Hl.
  { intros [id g]. apply elem_of_map_to_list. }
  induction (map_to_list gs) as [|[id g] l IH]; simpl; [constructor|].
  destruct (bucket_lookup _ _ _ _ id g Hb) as (_ & b & Hbid & HID & _).
  { apply (Hl (id, g)). left. }
  rewrite Hbid. constructor; [now simpl|].
  apply IH. intros idg Hin. apply Hl. now right.
Qed.

Lemma requests_length s groups bs gs :
  bucket s groups ∅ ∅ = Ok (bs, gs) ->
  length (requests bs gs) = length (remove_dups (coordinator_ids s groups)).
Proof.
  intros Hb. rewrite <- (Forall2_length _ _ _ (requests_spec _ _ _ _ Hb)).
  rewrite length_map_to_list, <- (size_dom (D := gset Z)).
  destruct (bucket_dom _ _ _ _ _ _ Hb) as [-> _].
  rewrite dom_empty_L, (left_id_L ∅ (∪)).
  rewrite <- (size_list_to_set (C := gset Z) (remove_dups (coordinator_ids s groups)))
    by apply NoDup_remove_dups.
  f_equal. apply set_eq. intros id.
  now rewrite !elem_of_list_to_set, elem_of_remove_dups.
Qed.

Lemma requests_ids s groups bs gs :
  bucket s groups ∅ ∅ = Ok (bs, gs) ->
  map (fun bg => sarama.ID bg.1) (requests bs gs) = (map_to_list gs).*1.
Proof.
  intros Hb. induction (requests_spec _ _ _ _ Hb) as [|idg bg l l' (H1 & _) _ IH]; simpl.
  - reflexivity.
  - now rewrite H1, IH.
Qed.

Lemma requests_groups s groups bs gs :
  bucket s groups ∅ ∅ = Ok (bs, gs) ->
  map snd (requests bs gs) = (map_to_list gs).*2.
Proof.
  intros Hb. induction (requests_spec _ _ _ _ Hb) as [|idg bg l l' (_ & H2 & _) _ IH]; simpl.
  - reflexivity.
  - now rewrite H2, IH.
Qed.

Lemma requests_elem_of s groups bs gs b grps :
  bucket s groups ∅ ∅ = Ok (bs, gs) ->
  (b, grps) ∈ requests bs gs ->
  grps = coordinated_by s (sarama.ID b) groups /\
  exists group, group ∈ groups /\ sarama.Coordinator (Client s) group = Ok b.
Proof.
  intros Hb Hin. apply list_elem_of_lookup in Hin as [i Hi].
  destruct (Forall2_lookup_r _ _ _ _ _ (requests_spec _ _ _ _ Hb) Hi)
    as ([id g] & Hidg & HID & Hg & Hbs).
  simpl in *. subst g id.
  apply list_elem_of_lookup_2, elem_of_map_to_list in Hidg.
  destruct (bucket_lookup _ _ _ _ _ _ Hb Hidg) as (-> & b' & Hb' & _ & Hgroup).
  split; [reflexivity|].
  assert (b' = b) as -> by congruence. exact Hgroup.
Qed.

(** The requests carry the requested groups, each as often as it was
    requested. *)
Lemma bucket_concat s groups bs0 gs0 bs gs :
  bucket s groups bs0 gs0 = Ok (bs, gs) ->
  concat (map_to_list gs).*2 ≡ₚ concat (map_to_list gs0).*2 ++ groups.
Proof.
  revert bs0 gs0. induction groups as [|group rest IH]; intros bs0 gs0; simpl.
  - intros [= <- <-]. now rewrite app_nil_r.
  - destruct (sarama.Coordinator (Client s) group) as [c|err] eqn:Hc; [|discriminate].
    intros H. rewrite (IH _ _ H). clear IH H.
    change (group :: rest) with ([group] ++ rest).
    rewrite app_assoc. apply Permutation_app_tail.
    set (id := sarama.ID c).
    destruct (gs0 !! id) as [old|] eqn:Hold; simpl.
    + rewrite <- (insert_delete_eq gs0).
      rewrite map_to_list_insert by apply lookup_delete_eq.
      rewrite <- (map_to_list_delete gs0 id old Hold). simpl.
      rewrite <- !app_assoc. apply Permutation_app_head.
      rewrite Permutation_app_comm. reflexivity.
    + rewrite map_to_list_insert by exact Hold. simpl.
      rewrite Permutation_app_comm. reflexivity.
Qed.

Lemma requests_concat s groups bs gs :
  bucket s groups ∅ ∅ = Ok (bs, gs) ->
  concat (map snd (requests bs gs)) ≡ₚ groups.
Proof.
  intros Hb. rewrite (requests_groups _ _ _ _ Hb), (bucket_concat _ _ _ _ _ _ Hb).
  now rewrite map_to_list_empty.
Qed.

(** ** Step 3: the loop and the goroutines around it *)

Lemma collect_snoc rs d :
  collect (rs ++ [d]) =
    match collect rs, converted d with
    | Some ls, Some l => Some (ls ++ l)
    | _, _ => None
    end.
Proof.
  induction rs as [|d' rs IH]; simpl.
  - destruct (converted d); [now rewrite app_nil_r | reflexivity].
  - rewrite IH. destruct (converted d'), (collect rs), (converted d); try reflexivity.
    now rewrite app_assoc.
Qed.

Lemma collect_Permutation rs rs' ds :
  rs ≡ₚ rs' -> collect rs = Some ds ->
  exists ds', collect rs' = Some ds' /\ ds ≡ₚ ds'.
Proof.
  intros Hperm. revert ds.
  induction Hperm as [|d rs rs' _ IH|d1 d2 rs|rs1 rs2 rs3 _ IH1 _ IH2]; intros ds; simpl.
  - intros [= <-]. eauto.
  - destruct (converted d) as [l|]; [|discriminate].
    destruct (collect rs) as [ls|]; [|discriminate]. intros [= <-].
    destruct (IH ls eq_refl) as (ls' & -> & Hls). eexists. split; [reflexivity|].
    now rewrite Hls.
  - destruct (converted d1) as [l1|], (converted d2) as [l2|], (collect rs) as [ls|];
      try discriminate.
    intros [= <-]. eexists. split; [reflexivity|].
    rewrite !app_assoc. apply Permutation_app_tail, Permutation_app_comm.
  - intros H1. destruct (IH1 _ H1) as (ds2 & H2 & Hp12).
    destruct (IH2 _ H2) as (ds3 & H3 & Hp23). exists ds3. split; [exact H3|].
    now rewrite Hp12.
Qed.

Lemma collect_converted rs ds d :
  collect rs = Some ds -> d ∈ rs -> exists l, converted d = Some l /\ l ⊆ ds.
Proof.
  revert ds. induction rs as [|d' rs IH]; intros ds Hc Hin; [inversion Hin|].
  simpl in Hc. destruct (converted d') as [l'|] eqn:Hd'; [|discriminate].
  destruct (collect rs) as [ls|]; [|discriminate]. injection Hc as <-.
  apply elem_of_cons in Hin as [->|Hin].
  - exists l'. split; [exact Hd'|]. intros g Hg. apply elem_of_app. now left.
  - destruct (IH ls eq_refl Hin) as (l & Hl & Hsub). exists l. split; [exact Hl|].
    intros g Hg. apply elem_of_app. right. now apply Hsub.
Qed.

Lemma collect_elem_of rs ds g :
  collect rs = Some ds -> g ∈ ds ->
  exists d l, d ∈ rs /\ converted d = Some l /\ g ∈ l.
Proof.
  revert ds. induction rs as [|d' rs IH]; intros ds Hc Hin; simpl in Hc.
  - injection Hc as <-. inversion Hin.
  - destruct (converted d') as [l'|] eqn:Hd'; [|discriminate].
    destruct (collect rs) as [ls|]; [|discriminate]. injection Hc as <-.
    apply elem_of_app in Hin as [Hin|Hin].
    + exists d', l'. split; [left|auto].
    + destruct (IH ls eq_refl Hin) as (d & l & Hd & Hl & Hg).
      exists d, l. split; [now right|auto].
Qed.

Lemma converted_Some d l :
  converted d = Some l ->
  Err d = None /\ exists lg, convertSaramaGroupDescriptions (Groups d) = (lg, Done (Ok l)).
Proof.
  unfold converted. destruct (Err d); [discriminate|].
  destruct (convertSaramaGroupDescriptions (Groups d)) as [lg [[l'|err]|]];
    try discriminate.
  intros [= ->]. eauto.
Qed.

Lemma invariant_start brokersByID groupsByBrokerID :
  invariant (inflight (start brokersByID groupsByBrokerID))
            (start brokersByID groupsByBrokerID).
Proof.
  exists []. simpl. rewrite app_nil_r. repeat split; auto. discriminate.
Qed.

Lemma invariant_step W st a st' :
  invariant W st -> step st a = Some st' -> invariant W st'.
Proof.
  intros (consumed & HW & Hclosed & Hret) Hstep.
  destruct st as [fl ch cl cx ds lg rt]. simpl in *.
  destruct a; simpl in Hstep.
  - (* WorkerSend *)
    destruct (fl !! i) as [d|] eqn:Hi; [|discriminate]. injection Hstep as <-.
    exists consumed. simpl. split; [|split].
    + rewrite <- HW.
      etransitivity;
        [|apply Permutation_app_tail; symmetry; apply (delete_Permutation fl i d Hi)].
      rewrite <- (app_assoc ch [d] consumed). simpl.
      rewrite <- (Permutation_middle ch consumed d).
      rewrite <- (Permutation_middle (delete i fl) (ch ++ consumed) d). reflexivity.
    + intros Hcl. rewrite (Hclosed Hcl) in Hi. discriminate.
    + destruct rt as [[[out|err]|]|]; auto.
      destruct Hret as (-> & _). discriminate.
  - (* Close *)
    destruct fl; [|discriminate]. destruct cl; [discriminate|].
    injection Hstep as <-. exists consumed. simpl. repeat split; auto.
  - (* Cancel *)
    injection Hstep as <-. exists consumed. simpl. repeat split; auto.
    destruct rt as [[[out|err]|]|]; auto.
    destruct Hret as [[-> _]|Hret]; [left|right]; auto.
  - (* Select_recv *)
    destruct rt; [discriminate|]. destruct ch as [|d rest]; [discriminate|].
    injection Hstep as <-.
    assert (fl ++ rest ++ consumed ++ [d] ≡ₚ W) as HW'.
    { rewrite <- HW. apply Permutation_app_head. simpl.
      rewrite (app_assoc rest consumed [d]).
      now rewrite <- (Permutation_cons_append (rest ++ consumed) d). }
    assert (d ∈ W) as Hd.
    { rewrite <- HW. apply elem_of_app. right. left. }
    exists (consumed ++ [d]). unfold receive. simpl.
    pose proof (collect_snoc consumed d) as Hsnoc. rewrite Hret in Hsnoc.
    unfold converted in Hsnoc.
    destruct (Err d) as [e|] eqn:He; simpl.
    { repeat split; auto. right. left. eauto. }
    destruct (convertSaramaGroupDescriptions (Groups d)) as [l [[out|err]|]] eqn:Hconv;
      simpl; repeat split; auto.
    + right. right. eauto.
    + eauto.
  - (* Select_closed *)
    destruct rt; [discriminate|]. destruct ch; [|discriminate].
    destruct cl; [|discriminate]. injection Hstep as <-.
    exists consumed. simpl. repeat split; auto. eauto.
  - (* Select_ctxDone *)
    destruct rt; [discriminate|]. destruct cx; [|discriminate].
    injection Hstep as <-. exists consumed. simpl. repeat split; auto.
Qed.

Lemma invariant_run W st sched st' :
  invariant W st -> run st sched = Some st' -> invariant W st'.
Proof.
  revert st. induction sched as [|a sched IH]; intros st Hinv; simpl.
  - now intros [= <-].
  - destruct (step st a) as [st1|] eqn:Hstep; [|discriminate].
    apply IH. eapply invariant_step; eauto.
Qed.

(** A call that succeeds has received every value that its workers
    sent, and returns the sorted descriptions of all of them. *)
Lemma run_Ok W st out :
  invariant W st -> returned st = Some (Done (Ok out)) ->
  exists consumed ds,
    consumed ≡ₚ W /\ collect consumed = Some ds /\ out = sort_slice less_GroupID ds.
Proof.
  intros (consumed & HW & _ & Hret) Hout. rewrite Hout in Hret.
  destruct Hret as (Hfl & Hch & ds & Hds & ->).
  rewrite Hfl, Hch in HW. simpl in HW. eauto.
Qed.

(** ** The call as a whole *)

Lemma DescribeConsumerGroups_bucket_Fail s groups sched err :
  bucket s groups ∅ ∅ = Fail err ->
  DescribeConsumerGroups s groups sched = Some ([], Done (Fail err)).
Proof. unfold DescribeConsumerGroups. now intros ->. Qed.

Lemma DescribeConsumerGroups_run s groups sched lg r bs gs :
  bucket s groups ∅ ∅ = Ok (bs, gs) ->
  DescribeConsumerGroups s groups sched = Some (lg, r) ->
  exists st, run (start bs gs) sched = Some st /\ returned st = Some r /\
    logged st = lg /\ invariant (answers s groups) st.
Proof.
  unfold DescribeConsumerGroups, answers. intros ->.
  destruct (run (start bs gs) sched) as [st|] eqn:Hrun; [|discriminate].
  destruct (returned st) as [r'|] eqn:Hret; [|discriminate].
  intros [= <- <-]. exists st. repeat split; auto.
  eapply invariant_run; [apply invariant_start | exact Hrun].
Qed.

Lemma DescribeConsumerGroups_Ok s groups sched lg out :
  DescribeConsumerGroups s groups sched = Some (lg, Done (Ok out)) ->
  exists consumed ds,
    consumed ≡ₚ answers s groups /\ collect consumed = Some ds /\
    out = sort_slice less_GroupID ds.
Proof.
  intros H. destruct (bucket s groups ∅ ∅) as [[bs gs]|err] eqn:Hb.
  - destruct (DescribeConsumerGroups_run _ _ _ _ _ _ _ Hb H) as (st & _ & Hret & _ & Hinv).
    eapply run_Ok; eauto.
  - rewrite (DescribeConsumerGroups_bucket_Fail _ _ _ _ Hb) in H. discriminate.
Qed.

(** Every description of a successful call comes from a raw group of
    an answer. *)
Lemma DescribeConsumerGroups_Ok_elem_of s groups sched lg out g :
  DescribeConsumerGroups s groups sched = Some (lg, Done (Ok out)) ->
  g ∈ out ->
  exists d rg, d ∈ answers s groups /\ Err d = None /\ rg ∈ Groups d /\ group_rel rg g.
Proof.
  intros H Hg. apply DescribeConsumerGroups_Ok in H as (consumed & ds & HW & Hds & ->).
  apply sort_slice_elem_of in Hg.
  destruct (collect_elem_of _ _ _ Hds Hg) as (d & l & Hd & Hl & Hgl).
  apply converted_Some in Hl as (Herr & lg' & Hconv).
  apply convertSaramaGroupDescriptions_Ok in Hconv.
  apply list_elem_of_lookup in Hgl as [i Hi].
  destruct (Forall2_lookup_r _ _ _ _ _ Hconv Hi) as (rg & Hrg & Hrel).
  exists d, rg. split; [|split; [|split]]; auto.
  - now rewrite <- HW.
  - eapply list_elem_of_lookup_2, Hrg.
Qed.

Lemma Permutation_concat {A} (l l' : list (list A)) :
  l ≡ₚ l' -> concat l ≡ₚ concat l'.
Proof.
  induction 1 as [|x l l' _ IH|x y l|l1 l2 l3 _ IH1 _ IH2]; simpl.
  - reflexivity.
  - now rewrite IH.
  - rewrite !app_assoc. apply Permutation_app_tail, Permutation_app_comm.
  - now rewrite IH1.
Qed.

Lemma NoDup_map_inj_on {A B} (f : A -> B) (l : list A) x y :
  NoDup (map f l) -> x ∈ l -> y ∈ l -> f x = f y -> x = y.
Proof.
  induction l as [|a l IH]; simpl; intros Hnd Hx Hy Hxy; [inversion Hx|].
  apply NoDup_cons in Hnd as [Ha Hnd].
  apply elem_of_cons in Hx as [->|Hx]; apply elem_of_cons in Hy as [->|Hy]; auto.
  - exfalso. apply Ha. rewrite Hxy. apply list_elem_of_In, in_map, list_elem_of_In, Hy.
  - exfalso. apply Ha. rewrite <- Hxy. apply list_elem_of_In, in_map, list_elem_of_In, Hx.
Qed.

Lemma group_rel_ids raw l :
  Forall2 group_rel raw l -> map GroupID l = map sarama.GroupId raw.
Proof.
  induction 1 as [|rg g raw l (_ & Hid & _) _ IH]; simpl; [reflexivity|].
  now rewrite Hid, IH.
Qed.

Lemma collect_ids rs ds :
  collect rs = Some ds ->
  map GroupID ds = concat (map (fun d => map sarama.GroupId (Groups d)) rs).
Proof.
  revert ds. induction rs as [|d rs IH]; intros ds; simpl.
  - now intros [= <-].
  - destruct (converted d) as [l|] eqn:Hd; [|discriminate].
    destruct (collect rs) as [ls|]; [|discriminate]. intros [= <-].
    rewrite map_app, (IH ls eq_refl). f_equal.
    apply converted_Some in Hd as (_ & lg & Hconv).
    apply convertSaramaGroupDescriptions_Ok in Hconv.
    now apply group_rel_ids.
Qed.

(** When every broker answers its request and no request fails, the
    answers name the requested groups. *)
Lemma answers_ids s groups bs gs :
  bucket s groups ∅ ∅ = Ok (bs, gs) ->
  brokers_answer_requests s groups ->
  Forall (fun d => Err d = None) (answers s groups) ->
  concat (map (fun d => map sarama.GroupId (Groups d)) (answers s groups)) ≡ₚ groups.
Proof.
  intros Hb Hfaith. unfold answers. rewrite Hb.
  intros Herr. etransitivity; [|apply (requests_concat _ _ _ _ Hb)].
  simpl in *.
  pose proof (fun b grps => requests_elem_of s groups bs gs b grps Hb) as Hreq.
  induction (requests bs gs) as [|[b grps] reqs IH]; simpl in *; [reflexivity|].
  apply Forall_cons in Herr as [Hd Herr].
  rewrite IH; auto.
  - apply Permutation_app_tail.
    destruct (Hreq b grps) as (_ & group & Hg & Hc); [left|].
    unfold worker in *.
    destruct (sarama.DescribeGroups b grps) as [r|e] eqn:Hr; [|discriminate].
    simpl. now rewrite (Hfaith group b Hg Hc grps r Hr).
  - intros b' grps' Hin. apply Hreq. now right.
Qed.

Lemma collect_answers_ids s groups consumed ds :
  (exists bg, bucket s groups ∅ ∅ = Ok bg) ->
  brokers_answer_requests s groups ->
  consumed ≡ₚ answers s groups -> collect consumed = Some ds ->
  map GroupID ds ≡ₚ groups.
Proof.
  intros [[bs gs] Hb] Hfaith HW Hds.
  rewrite (collect_ids _ _ Hds), HW.
  apply (answers_ids _ _ _ _ Hb); [exact Hfaith|].
  apply Forall_forall. intros d Hd. rewrite <- HW in Hd.
  destruct (collect_converted _ _ _ Hds Hd) as (l & Hl & _).
  now apply converted_Some in Hl.
Qed.

Lemma DescribeConsumerGroups_Ok_bucket s groups sched lg out :
  DescribeConsumerGroups s groups sched = Some (lg, Done (Ok out)) ->
  exists bg, bucket s groups ∅ ∅ = Ok bg.
Proof.
  intros H. destruct (bucket s groups ∅ ∅) as [bg|err] eqn:Hb; [eauto|].
  rewrite (DescribeConsumerGroups_bucket_Fail _ _ _ _ Hb) in H. discriminate.
Qed.

Lemma less_GroupID_antisym_on (ds : list GroupDescription) :
  NoDup (map GroupID ds) ->
  forall x y, x ∈ ds -> y ∈ ds ->
    less_GroupID x y = false -> less_GroupID y x = false -> x = y.
Proof.
  intros Hnd x y Hx Hy Hxy Hyx.
  apply (NoDup_map_inj_on GroupID ds); auto.
  apply string_le_antisym; now apply String_ltb_leb.
Qed.

Lemma sort_slice_GroupID_le (ds : list GroupDescription) :
  StronglySorted GroupID_le (sort_slice less_GroupID ds).
Proof.
  apply (StronglySorted_key_le GroupID).
  apply sort_slice_StronglySorted. auto with less.
Qed.

Lemma StronglySorted_mono {A} (R1 R2 : relation A) (l : list A) :
  (forall x y, R1 x y -> R2 x y) -> StronglySorted R1 l -> StronglySorted R2 l.
Proof.
  intros HR. induction 1 as [|a l Hl IH Ha]; constructor; auto.
  eapply Forall_impl; eauto.
Qed.

Lemma sort_slice_int32_le (l : list Z) :
  StronglySorted Z.le (sort_slice less_int32 l).
Proof.
  apply (StronglySorted_mono (ascending less_int32)).
  - unfold ascending, less_int32. intros x y. lia.
  - apply sort_slice_StronglySorted. auto with less.
Qed.

Lemma sort_slice_TopicName_le (l : list GroupMemberAssignment) :
  StronglySorted TopicName_le (sort_slice less_TopicName l).
Proof.
  apply (StronglySorted_key_le TopicName).
  apply sort_slice_StronglySorted. auto with less.
Qed.

Lemma holds_topics_sorted (topics : list (string * list Z)) :
  holds_topics topics (sort_slice less_TopicName (map assignment_of topics)).
Proof.
  destruct (Permutation_map_inv assignment_of topics
              (sort_slice_Permutation _ less_TopicName (map assignment_of topics)))
    as (topics' & Heq & Hperm).
  exists topics'. split; [now symmetry|]. rewrite Heq. clear Heq Hperm.
  induction topics' as [|tp topics' IH]; simpl; constructor; auto.
  split; [reflexivity|]. simpl. apply sort_slice_Permutation.
Qed.

Lemma member_assignments_spec protocolType rm assignments :
  member_assignments protocolType rm = Some assignments ->
  StronglySorted TopicName_le assignments /\
  (forall a, a ∈ assignments -> StronglySorted Z.le (PartitionIDs a)) /\
  assignments_from protocolType rm assignments.
Proof.
  unfold member_assignments, assignments_from.
  destruct (String.eqb protocolType "consumer").
  - destruct (sarama.GetMemberAssignment rm) as [[asg|] err] eqn:Hdec; simpl;
      [|discriminate].
    intros [= <-]. split; [apply sort_slice_TopicName_le|split].
    + intros a Ha. apply sort_slice_elem_of, list_elem_of_In, in_map_iff in Ha
        as (tp & <- & _).
      apply sort_slice_int32_le.
    + exists asg, err. split; [reflexivity|apply holds_topics_sorted].
  - intros [= <-]. split; [constructor|split]; [|reflexivity].
    intros a Ha. inversion Ha.
Qed.

(** The member of the output at the place of an entry of the map. *)
Lemma range_members_lookup members protocolType lg out i id m :
  range_members members protocolType = (lg, Done out) ->
  members !! i = Some (id, m) ->
  exists d, out !! i = Some d /\ member_rel protocolType (id, m) d /\
    forall e, e ∈ member_warnings protocolType m -> e ∈ lg.
Proof.
  intros H Hi. apply range_members_Done in H as [Hrel ->].
  destruct (Forall2_lookup_l _ _ _ _ _ Hrel Hi) as (d & Hd & Hm).
  exists d. split; [exact Hd|split; [exact Hm|]].
  intros e He. apply list_elem_of_In, in_concat.
  exists (member_warnings protocolType m). split; [|now apply list_elem_of_In].
  apply in_map_iff. exists (id, m). split; [reflexivity|].
  eapply list_elem_of_In, list_elem_of_lookup_2, Hi.
Qed.

Lemma run_app st sched1 sched2 :
  run st (sched1 ++ sched2) =
    match run st sched1 with
    | Some st1 => run st1 sched2
    | None => None
    end.
Proof.
  revert st. induction sched1 as [|a sched1 IH]; intros st; simpl; [reflexivity|].
  destruct (step st a); [apply IH | reflexivity].
Qed.

(** A call never succeeds when one of its answers is not converted. *)
Lemma DescribeConsumerGroups_not_Ok s groups sched lg r d :
  d ∈ answers s groups -> converted d = None ->
  DescribeConsumerGroups s groups sched = Some (lg, r) ->
  forall out, r <> Done (Ok out).
Proof.
  intros Hd Hconv H out ->.
  apply DescribeConsumerGroups_Ok in H as (consumed & ds & HW & Hds & _).
  rewrite <- HW in Hd.
  destruct (collect_converted _ _ _ Hds Hd) as (l & Hl & _). congruence.
Qed.

(** The run in which worker [i] sends and the loop receives at once. *)
Lemma DescribeConsumerGroups_send_recv s groups bs gs i d :
  bucket s groups ∅ ∅ = Ok (bs, gs) ->
  inflight (start bs gs) !! i = Some d ->
  exists st1, logged st1 = [] /\ descriptions st1 = [] /\
    forall r, returned (receive st1 d []) = Some r ->
      DescribeConsumerGroups s groups [WorkerSend i; Select_recv]
        = Some (logged (receive st1 d []), r).
Proof.
  intros Hb Hi.
  set (st1 := mkState (delete i (inflight (start bs gs))) [d] false false [] [] None).
  exists st1. split; [reflexivity|split; [reflexivity|]]. intros r Hr.
  assert (step (start bs gs) (WorkerSend i) = Some st1) as H1.
  { unfold step. now rewrite Hi. }
  assert (step st1 Select_recv = Some (receive st1 d [])) as H2 by reflexivity.
  unfold DescribeConsumerGroups. rewrite Hb.
  change (run (start bs gs) [WorkerSend i; Select_recv])
    with (match step (start bs gs) (WorkerSend i) with
          | Some st => match step st Select_recv with
                       | Some st => Some st
                       | None => None
                       end
          | None => None
          end).
  now rewrite H1, H2, Hr.
Qed.

Lemma answers_lookup s groups d :
  d ∈ answers s groups ->
  exists bs gs i, bucket s groups ∅ ∅ = Ok (bs, gs) /\
    inflight (start bs gs) !! i = Some d.
Proof.
  unfold answers.
  destruct (bucket s groups ∅ ∅) as [[bs gs]|err]; intros Hd; [|inversion Hd].
  apply list_elem_of_lookup in Hd as [i Hi]. eauto.
Qed.


Lemma run_never_cancelled st sched st' :
  Cancel ∉ sched -> run st sched = Some st' -> ctxDone st = false -> ctxDone st' = false.
Proof.
  revert st. induction sched as [|a sched IH]; intros st Hno; simpl.
  - now intros [= <-].
  - destruct (step st a) as [st1|] eqn:Hstep; [|discriminate].
    intros Hrun Hcx. apply (IH st1); [| exact Hrun |].
    + intros Hin. apply Hno. now right.
    + destruct a; simpl in Hstep.
      * destruct (inflight st !! i); [|discriminate]. now injection Hstep as <-.
      * destruct (inflight st), (closed st); try discriminate. now injection Hstep as <-.
      * exfalso. apply Hno. left.
      * destruct (returned st), (resCh st) as [|d rest]; try discriminate.
        injection Hstep as <-. unfold receive.
        destruct (Err d); [exact Hcx|].
        destruct (convertSaramaGroupDescriptions (Groups d)) as [lg0 [[o|e]|]]; exact Hcx.
      * destruct (returned st), (resCh st), (closed st); try discriminate.
        now injection Hstep as <-.
      * rewrite Hcx in Hstep. destruct (returned st); discriminate.
Qed.

Lemma sort_slice_sorted {A} (less : A -> A -> bool) (l : list A) :
  strict_weak_order less ->
  (forall x y, x ∈ l -> y ∈ l -> less x y = false -> less y x = false -> x = y) ->
  Sorted (ascending less) l -> sort_slice less l = l.
Proof.
  intros Hless Hanti Hsorted.
  apply (sorted_Permutation_unique less);
    [exact Hless| |now apply sort_slice_Sorted|exact Hsorted|apply sort_slice_Permutation].
  intros x y Hx Hy. apply Hanti; now rewrite <- (sort_slice_elem_of less).
Qed.

Lemma sort_slice_singleton {A} (less : A -> A -> bool) (a : A) :
  sort_slice less [a] = [a].
Proof. apply Permutation_singleton_r, sort_slice_Permutation. Qed.

(** ** The call can always return *)

(** From a state in which the call has not returned, the workers in
    flight can send, the loop can receive what is buffered, and the
    channel can be closed: no state is a deadlock. *)
Lemma run_can_return (n : nat) st :
  (2 * length (inflight st) + length (resCh st) <= n)%nat ->
  returned st = None ->
  exists sched st', run st sched = Some st' /\ is_Some (returned st').
Proof.
  revert st. induction n as [|n IH]; intros st Hn Hret.
  - destruct st as [fl ch cl cx ds lg rt]. simpl in *. subst rt.
    destruct fl; [|simpl in Hn; lia]. destruct ch; [|simpl in Hn; lia].
    destruct cl.
    + exists [Select_closed]. eexists. simpl. split; [reflexivity|]. simpl. eauto.
    + exists [Close; Select_closed]. eexists. simpl. split; [reflexivity|]. simpl. eauto.
  - destruct (resCh st) as [|d rest] eqn:Hch.
    + destruct (inflight st) as [|d fl] eqn:Hfl.
      * apply (IH st); [rewrite Hch, Hfl; simpl; lia|exact Hret].
      * destruct (IH (mkState fl [d] (closed st) (ctxDone st) (descriptions st)
                        (logged st) (returned st))) as (sched & st' & Hrun & Hst').
        { simpl in *. lia. }
        { exact Hret. }
        exists (WorkerSend 0 :: sched), st'. split; [|exact Hst'].
        simpl. rewrite Hfl, Hch. simpl. exact Hrun.
    + destruct (returned (receive st d rest)) as [r|] eqn:Hrecv.
      * exists [Select_recv], (receive st d rest). simpl. rewrite Hret, Hch.
        split; [reflexivity|]. rewrite Hrecv. eauto.
      * destruct (IH (receive st d rest)) as (sched & st' & Hrun & Hst').
        { unfold receive in *. simpl in Hn.
          destruct (Err d); [discriminate|].
          destruct (convertSaramaGroupDescriptions (Groups d)) as [lg0 [[o|e]|]];
            try discriminate.
          simpl. lia. }
        { exact Hrecv. }
        exists (Select_recv :: sched), st'. split; [|exact Hst'].
        simpl. rewrite Hret, Hch. exact Hrun.
Qed.

(** Every run of a call that has not returned goes on to a run in
    which it returns. *)
Lemma DescribeConsumerGroups_can_return s groups sched bs gs st :
  bucket s groups ∅ ∅ = Ok (bs, gs) ->
  run (start bs gs) sched = Some st ->
  exists sched', is_Some (DescribeConsumerGroups s groups (sched ++ sched')).
Proof.
  intros Hb Hrun. unfold DescribeConsumerGroups. rewrite Hb.
  destruct (returned st) as [r|] eqn:Hret.
  - exists []. rewrite app_nil_r, Hrun, Hret. eauto.
  - destruct (run_can_return _ st (Nat.le_refl _) Hret) as (sched' & st' & Hrun' & [r Hr]).
    exists sched'. rewrite run_app, Hrun, Hrun', Hr. eauto.
Qed.

(** ** The order of the groups *)

Lemma StronglySorted_GroupID (out : list GroupDescription) :
  StronglySorted GroupID_le out -> StronglySorted string_le (map GroupID out).
Proof.
  induction 1 as [|g out Hout IH Hg]; simpl; constructor; [exact IH|].
  apply Forall_forall. intros id Hid.
  apply list_elem_of_In, in_map_iff in Hid as (g' & <- & Hg').
  rewrite Forall_forall in Hg. apply Hg, list_elem_of_In, Hg'.
Qed.

(** The group ids of a successful call are the requested ids in
    ascending order, whatever the brokers put into their records and
    in whatever order the member maps are visited. *)
Lemma DescribeConsumerGroups_group_order
    s1 s2 groups sched1 sched2 lg1 lg2 out1 out2 :
  brokers_answer_requests s1 groups ->
  brokers_answer_requests s2 groups ->
  DescribeConsumerGroups s1 groups sched1 = Some (lg1, Done (Ok out1)) ->
  DescribeConsumerGroups s2 groups sched2 = Some (lg2, Done (Ok out2)) ->
  map GroupID out1 = map GroupID out2.
Proof.
  intros Hf1 Hf2 H1 H2.
  pose proof (DescribeConsumerGroups_Ok_bucket _ _ _ _ _ H1) as Hb1.
  pose proof (DescribeConsumerGroups_Ok_bucket _ _ _ _ _ H2) as Hb2.
  apply DescribeConsumerGroups_Ok in H1 as (c1 & ds1 & HW1 & Hds1 & ->).
  apply DescribeConsumerGroups_Ok in H2 as (c2 & ds2 & HW2 & Hds2 & ->).
  apply (StronglySorted_unique_strong string_le).
  - intros x y _ _. apply string_le_antisym.
  - apply StronglySorted_GroupID, sort_slice_GroupID_le.
  - apply StronglySorted_GroupID, sort_slice_GroupID_le.
  - rewrite !(sort_slice_Permutation _ less_GroupID).
    rewrite (collect_answers_ids _ _ _ _ Hb1 Hf1 HW1 Hds1).
    now rewrite (collect_answers_ids _ _ _ _ Hb2 Hf2 HW2 Hds2).
Qed.

(** ** The claims *)

(** Two runs that visit every member map and topic map in the same
    order: for a request that names every group once, sent to brokers
    that answer what they are asked, they return the same sequence
    whatever the order in which the workers complete and the [select]
    arms are taken.  Go visits a map in a new order at every range
    loop; two runs of the code are compared at the end of the
    section. *)
Lemma DescribeConsumerGroups_deterministic
    s groups sched1 sched2 lg1 lg2 out1 out2 :
  NoDup groups ->
  brokers_answer_requests s groups ->
  DescribeConsumerGroups s groups sched1 = Some (lg1, Done (Ok out1)) ->
  DescribeConsumerGroups s groups sched2 = Some (lg2, Done (Ok out2)) ->
  out1 = out2 /\ StronglySorted GroupID_le out1.
Proof.
  intros Hnd Hfaith H1 H2.
  pose proof (DescribeConsumerGroups_Ok_bucket _ _ _ _ _ H1) as Hb.
  apply DescribeConsumerGroups_Ok in H1 as (c1 & ds1 & HW1 & Hds1 & ->).
  apply DescribeConsumerGroups_Ok in H2 as (c2 & ds2 & HW2 & Hds2 & ->).
  split; [|apply sort_slice_GroupID_le].
  assert (c1 ≡ₚ c2) as Hc by now rewrite HW1, HW2.
  destruct (collect_Permutation _ _ _ Hc Hds1) as (ds2' & Hds2' & Hperm).
  assert (ds2' = ds2) as -> by congruence.
  apply sort_slice_unique; [apply less_GroupID_strict_weak_order| |exact Hperm].
  apply less_GroupID_antisym_on.
  rewrite (collect_answers_ids _ _ _ _ Hb Hfaith HW1 Hds1). exact Hnd.
Qed.

(** C4, as the code has it.  The call does not merge duplicates: when
    the brokers answer what they are asked, a successful call returns
    one description per requested entry, so the group ids of the output
    are the requested ids with their repetitions.  None appears that
    was not requested, and none appears twice when the request names
    every group once. *)
Theorem DescribeConsumerGroups_one_per_entry s groups sched lg out :
  brokers_answer_requests s groups ->
  DescribeConsumerGroups s groups sched = Some (lg, Done (Ok out)) ->
  map GroupID out ≡ₚ groups /\
  (forall g, g ∈ out -> GroupID g ∈ groups) /\
  (NoDup groups -> NoDup (map GroupID out)).
Proof.
  intros Hfaith H.
  pose proof (DescribeConsumerGroups_Ok_bucket _ _ _ _ _ H) as Hb.
  apply DescribeConsumerGroups_Ok in H as (c & ds & HW & Hds & ->).
  assert (map GroupID (sort_slice less_GroupID ds) ≡ₚ groups) as Hperm.
  { rewrite (sort_slice_Permutation _ less_GroupID ds).
    exact (collect_answers_ids _ _ _ _ Hb Hfaith HW Hds). }
  split; [exact Hperm|split].
  - intros g Hg. rewrite <- Hperm.
    apply list_elem_of_In, in_map, list_elem_of_In, Hg.
  - intros Hnd. now rewrite Hperm.
Qed.


(** C8.  Assignment ordering: in the output of a successful call every
    member has its assignments sorted by topic name, every assignment
    has its partition ids sorted, and the assignments are the entries
    of the topic map that the decoder gave for that member, each with
    the same partition ids counted with their repetitions (none when
    the group is not of protocol type "consumer"). *)
Theorem assignments_ordered s groups sched lg out g m :
  DescribeConsumerGroups s groups sched = Some (lg, Done (Ok out)) ->
  g ∈ out -> m ∈ Members g ->
  StronglySorted TopicName_le (Assignments m) /\
  (forall a, a ∈ Assignments m -> StronglySorted Z.le (PartitionIDs a)) /\
  exists d rg id rm,
    d ∈ answers s groups /\ rg ∈ Groups d /\ GroupID g = sarama.GroupId rg /\
    (id, rm) ∈ sarama.Members rg /\ ID m = id /\
    assignments_from (sarama.ProtocolType rg) rm (Assignments m).
Proof.
  intros H Hg Hm.
  destruct (DescribeConsumerGroups_Ok_elem_of _ _ _ _ _ _ H Hg)
    as (d & rg & Hd & _ & Hrg & _ & Hid & _ & _ & _ & Hmem).
  apply list_elem_of_lookup in Hm as [i Hi].
  destruct (Forall2_lookup_r _ _ _ _ _ Hmem Hi) as ([id rm] & Hrm & HID & _ & _ & Hasg).
  simpl in *.
  destruct (member_assignments_spec _ _ _ Hasg) as (Hs & Hp & Hfrom).
  split; [exact Hs|split; [exact Hp|]].
  exists d, rg, id, rm. repeat split; auto.
  eapply list_elem_of_lookup_2, Hrm.
Qed.

(** C10.  When the protocol type is "consumer" and the decoder returns
    an error, [convertGroupMembers] logs the warning and still reads
    the topic map of the value returned with the error: the member's
    assignments are the sorted entries of that map.  When the decoder
    returns a nil pointer with an error for some member, the function
    dereferences it and panics; it returns when no member makes the
    decoder return a nil pointer. *)
Theorem decode_error_value_is_read :
  (forall id m asg err,
     sarama.GetMemberAssignment m = (Some asg, Some err) ->
     convertGroupMember id m "consumer" =
       ([decode_warning m err],
        Done (mkGroupMemberDescription id (sarama.ClientId m) (sarama.ClientHost m)
                (sort_slice less_TopicName (map assignment_of (sarama.Topics asg)))))) /\
  (forall members lg out i id m asg err,
     convertGroupMembers members "consumer" = (lg, Done (Ok out)) ->
     members !! i = Some (id, m) ->
     sarama.GetMemberAssignment m = (Some asg, Some err) ->
     exists d, out !! i = Some d /\ ID d = id /\
       Assignments d = sort_slice less_TopicName (map assignment_of (sarama.Topics asg)) /\
       StronglySorted TopicName_le (Assignments d) /\
       holds_topics (sarama.Topics asg) (Assignments d)) /\
  (forall members id m err,
     (id, m) ∈ members ->
     sarama.GetMemberAssignment m = (None, Some err) ->
     exists lg, convertGroupMembers members "consumer" = (lg, Panicked)) /\
  (forall members,
     (forall id m, (id, m) ∈ members -> (sarama.GetMemberAssignment m).1 <> None) ->
     exists lg out, convertGroupMembers members "consumer" = (lg, Done (Ok out))).
Proof.
  split; [|split; [|split]].
  - intros id m asg err Hdec. now rewrite (convertGroupMember_consumer id m asg (Some err)).
  - intros members lg out i id m asg err H Hi Hdec.
    apply convertGroupMembers_Done in H as (out' & [= <-] & H).
    destruct (range_members_lookup _ _ _ _ _ _ _ H Hi) as (d & Hd & (HID & _ & _ & Ha) & _).
    exists d. split; [exact Hd|split; [exact HID|]].
    unfold member_assignments in Ha. simpl in Ha. rewrite Hdec in Ha. simpl in Ha.
    injection Ha as <-.
    split; [reflexivity|split]; [apply sort_slice_TopicName_le|apply holds_topics_sorted].
  - intros members id m err Hin Hdec.
    destruct (range_members_panics members "consumer" id m Hin) as [lg Hp].
    { unfold member_assignments. simpl. now rewrite Hdec. }
    exists lg. unfold convertGroupMembers. now rewrite Hp.
  - intros members Hnil.
    destruct (range_members_total members "consumer") as (lg & out & H).
    { intros id m Hin. specialize (Hnil id m Hin).
      unfold member_assignments. simpl.
      destruct (sarama.GetMemberAssignment m) as [[asg|] err]; simpl in *; [eauto|].
      now destruct Hnil. }
    exists (lg ++ []), out. unfold convertGroupMembers. now rewrite H.
Qed.

(** A payload that does not decode does not make [convertGroupMembers]
    fail, as long as the decoder returns a value with its error: the
    warning is logged and the member is in the output, with the sorted
    entries of the topic map of that value as its assignments; they are
    empty when that map is empty.  The call as a whole is taken up at
    the end of the section. *)
Lemma decode_failure_not_fatal members i id m asg err :
  (forall id' m', (id', m') ∈ members -> (sarama.GetMemberAssignment m').1 <> None) ->
  members !! i = Some (id, m) ->
  sarama.GetMemberAssignment m = (Some asg, Some err) ->
  exists lg out d,
    convertGroupMembers members "consumer" = (lg, Done (Ok out)) /\
    decode_warning m err ∈ lg /\
    out !! i = Some d /\ ID d = id /\
    Assignments d = sort_slice less_TopicName (map assignment_of (sarama.Topics asg)) /\
    (sarama.Topics asg = [] -> Assignments d = []).
Proof.
  intros Hnil Hi Hdec.
  destruct (range_members_total members "consumer") as (lg & out & H).
  { intros id' m' Hin. specialize (Hnil id' m' Hin).
    unfold member_assignments. simpl.
    destruct (sarama.GetMemberAssignment m') as [[asg'|] err']; simpl in *; [eauto|].
    now destruct Hnil. }
  destruct (range_members_lookup _ _ _ _ _ _ _ H Hi) as (d & Hd & (HID & _ & _ & Ha) & Hw).
  unfold member_assignments in Ha. simpl in Ha. rewrite Hdec in Ha. simpl in Ha.
  injection Ha as Ha.
  exists (lg ++ []), out, d. unfold convertGroupMembers. rewrite H. simpl.
  split; [reflexivity|]. rewrite app_nil_r. split; [|split; [exact Hd|split; [exact HID|]]].
  - apply Hw. unfold member_warnings. simpl. rewrite Hdec. simpl. left.
  - split; [now symmetry|]. intros Hempty. rewrite <- Ha, Hempty. simpl.
    apply sort_slice_nil.
Qed.

(** The entries of the loop of step 2: when every requested group
    resolves, there is one per distinct coordinator of the requested
    groups, no two for the same broker id, and each carries all the
    requested groups that its broker coordinates.  The requests that
    the workers issue are counted at the end of the section. *)
Lemma one_request_per_coordinator s groups bs gs :
  bucket s groups ∅ ∅ = Ok (bs, gs) ->
  Forall (fun group => is_Some (coordinator_id s group)) groups /\
  length (requests bs gs) = length (remove_dups (coordinator_ids s groups)) /\
  length (inflight (start bs gs)) = length (requests bs gs) /\
  NoDup (map (fun bg => sarama.ID bg.1) (requests bs gs)) /\
  (forall b grps, (b, grps) ∈ requests bs gs ->
     grps = coordinated_by s (sarama.ID b) groups).
Proof.
  intros Hb. split; [|split; [|split; [|split]]].
  - eapply bucket_resolved, Hb.
  - eapply requests_length, Hb.
  - simpl. apply length_map.
  - rewrite (requests_ids _ _ _ _ Hb). apply NoDup_fst_map_to_list.
  - intros b grps Hin. now destruct (requests_elem_of _ _ _ _ _ _ Hb Hin).
Qed.

(** C6, as the code has it.  A raw group with an error code fails the
    whole call: when the loop receives a batch whose first such group
    follows groups without a member that decodes to a nil pointer, the
    call returns that group's error and no description; no run of the
    call succeeds, and some run returns that error. *)
Theorem group_error_fails_call s groups d pre rg post :
  d ∈ answers s groups -> Err d = None ->
  Groups d = pre ++ rg :: post ->
  Forall (fun g => sarama.Err g = sarama.ErrNoError /\ decodes_non_nil g) pre ->
  sarama.Err rg <> sarama.ErrNoError ->
  (forall st rest, returned st = None -> resCh st = d :: rest ->
     exists st', step st Select_recv = Some st' /\
       returned st' = Some (Done (Fail (KError (sarama.Err rg))))) /\
  (forall sched lg r, DescribeConsumerGroups s groups sched = Some (lg, r) ->
     forall out, r <> Done (Ok out)) /\
  (exists sched lg, DescribeConsumerGroups s groups sched
     = Some (lg, Done (Fail (KError (sarama.Err rg))))).
Proof.
  intros Hd Herr Hgroups Hpre Hrg.
  destruct (convertSaramaGroupDescriptions_Err pre rg post Hpre Hrg) as [lg0 Hconv].
  rewrite <- Hgroups in Hconv.
  split; [|split].
  - intros st rest Hret Hch. eexists. unfold step. rewrite Hret, Hch.
    split; [reflexivity|]. unfold receive. now rewrite Herr, Hconv.
  - intros sched lg r. apply DescribeConsumerGroups_not_Ok with (d := d); [exact Hd|].
    unfold converted. now rewrite Herr, Hconv.
  - destruct (answers_lookup _ _ _ Hd) as (bs & gs & i & Hb & Hi).
    destruct (DescribeConsumerGroups_send_recv _ _ _ _ _ _ Hb Hi) as (st1 & _ & _ & H).
    exists [WorkerSend i; Select_recv]. eexists. apply H.
    unfold receive. now rewrite Herr, Hconv.
Qed.


(** C5, as the code has it.  Once the context is cancelled the [select]
    may take [<-ctx.Done()] at any iteration, and when it does the call
    logs the error and returns the cancellation error without output,
    whatever has been aggregated.  That arm is the only one that is
    ready when the channel is empty and not closed; when a value is
    buffered or the channel is closed as well, the [select] may take
    that arm instead. *)
Theorem cancellation_when_selected s groups bs gs sched st :
  bucket s groups ∅ ∅ = Ok (bs, gs) ->
  run (start bs gs) sched = Some st ->
  returned st = None -> ctxDone st = true ->
  DescribeConsumerGroups s groups (sched ++ [Select_ctxDone])
    = Some (logged st ++ [cancelled_entry], Done (Fail cancelled_error)) /\
  (resCh st = [] -> closed st = false ->
     step st Select_recv = None /\ step st Select_closed = None).
Proof.
  intros Hb Hrun Hret Hcx. split.
  - unfold DescribeConsumerGroups. rewrite Hb, run_app, Hrun. simpl.
    now rewrite Hret, Hcx.
  - intros Hch Hcl. unfold step. now rewrite Hret, Hch, Hcl.
Qed.

(** C2.  The example scenario: the request is ["group-a"; "group-b"],
    both groups resolve to broker 1, and broker 1 answers with group-a
    (state "Stable", protocol type "consumer", one member "m1" whose
    assignment decodes to topic-x with partitions 2, 0, 1) and group-b
    (state "Empty", protocol type "consumer", no member).  The run in
    which the worker sends, the loop receives and the channel is closed
    returns group-a with member m1 assigned topic-x with partitions
    0, 1, 2, followed by group-b without members; so does every run in
    which the context is not cancelled. *)
Theorem example_scenario s b1 m1 protocol_a protocol_b :
  sarama.Coordinator (Client s) "group-a" = Ok b1 ->
  sarama.Coordinator (Client s) "group-b" = Ok b1 ->
  sarama.ID b1 = 1 ->
  sarama.GetMemberAssignment m1
    = (Some (sarama.mkAssignment [("topic-x", [2; 0; 1])]), None) ->
  sarama.DescribeGroups b1 ["group-a"; "group-b"]
    = Ok [ sarama.mkGroup sarama.ErrNoError "group-a" "Stable" "consumer" protocol_a
             [("m1", m1)];
           sarama.mkGroup sarama.ErrNoError "group-b" "Empty" "consumer" protocol_b [] ] ->
  DescribeConsumerGroups s ["group-a"; "group-b"]
      [WorkerSend 0; Select_recv; Close; Select_closed]
    = Some ([], Done (Ok (example_output protocol_a protocol_b
                            (sarama.ClientId m1) (sarama.ClientHost m1)))) /\
  (forall sched lg r,
     Cancel ∉ sched ->
     DescribeConsumerGroups s ["group-a"; "group-b"] sched = Some (lg, r) ->
     r = Done (Ok (example_output protocol_a protocol_b
                     (sarama.ClientId m1) (sarama.ClientHost m1)))).
Proof.
  intros Ha Hb HID Hm1 Hdesc.
  set (ga := sarama.mkGroup sarama.ErrNoError "group-a" "Stable" "consumer" protocol_a
               [("m1", m1)]) in *.
  set (gb := sarama.mkGroup sarama.ErrNoError "group-b" "Empty" "consumer" protocol_b [])
    in *.
  set (expected := example_output protocol_a protocol_b
                     (sarama.ClientId m1) (sarama.ClientHost m1)).
  set (d0 := mkResponse None [ga; gb] 1).
  assert (bucket s ["group-a"; "group-b"] ∅ ∅
          = Ok ({[1 := b1]}, {[1 := ["group-a"; "group-b"]]})) as Hbucket.
  { simpl. rewrite Ha, Hb, HID. rewrite lookup_empty, lookup_insert_eq. simpl.
    now rewrite !insert_insert_eq. }
  assert (inflight (start {[1 := b1]} {[1 := ["group-a"; "group-b"]]}) = [d0]) as Hstart.
  { simpl. unfold requests. rewrite map_to_list_singleton. simpl.
    rewrite lookup_singleton_eq. simpl. unfold worker. now rewrite Hdesc, HID. }
  assert (convertSaramaGroupDescriptions [ga; gb] = ([], Done (Ok expected))) as Hconv.
  { simpl. unfold convertGroupMembers. simpl.
    rewrite (convertGroupMember_consumer "m1" m1 _ None Hm1). simpl.
    rewrite sort_slice_singleton. unfold assignment_of. simpl.
    rewrite sort_slice_int32. reflexivity. }
  assert (sort_slice less_GroupID expected = expected) as Hsort.
  { apply sort_slice_sorted.
    - apply less_GroupID_strict_weak_order.
    - apply less_GroupID_antisym_on. simpl.
      repeat constructor; rewrite ?elem_of_cons, ?elem_of_nil; intuition discriminate.
    - repeat constructor. }
  split.
  - set (st0 := start {[1 := b1]} {[1 := ["group-a"; "group-b"]]}) in *.
    set (st1 := mkState [] [d0] false false [] [] None).
    set (st2 := mkState [] [] false false expected [] None).
    set (st3 := mkState [] [] true false expected [] None).
    set (st4 := mkState [] [] true false expected [] (Some (Done (Ok expected)))).
    assert (step st0 (WorkerSend 0) = Some st1) as H1.
    { unfold step. rewrite Hstart. reflexivity. }
    assert (step st1 Select_recv = Some st2) as H2.
    { unfold step, receive. cbn [returned resCh Err Groups st1 d0]. now rewrite Hconv. }
    assert (step st2 Close = Some st3) as H3 by reflexivity.
    assert (step st3 Select_closed = Some st4) as H4.
    { unfold step. cbn [returned resCh closed descriptions st3]. now rewrite Hsort. }
    unfold DescribeConsumerGroups. rewrite Hbucket. fold st0.
    cbn [run]. rewrite H1. cbn [run]. rewrite H2. cbn [run]. rewrite H3.
    cbn [run]. rewrite H4. reflexivity.
  - intros sched lg r Hno H.
    destruct (DescribeConsumerGroups_run _ _ _ _ _ _ _ Hbucket H)
      as (st & Hrun & Hret & _ & Hinv).
    pose proof (run_never_cancelled _ _ _ Hno Hrun eq_refl) as Hcx.
    unfold answers in Hinv. rewrite Hbucket, Hstart in Hinv.
    destruct Hinv as (consumed & HW & _ & Hr). rewrite Hret in Hr.
    assert (converted d0 = Some expected) as Hd0.
    { unfold converted. cbn [Err Groups d0]. now rewrite Hconv. }
    destruct r as [[out|err]|].
    + destruct Hr as (Hfl & Hch & ds & Hds & ->). rewrite Hfl, Hch in HW. simpl in HW.
      apply Permutation_singleton_r in HW. subst consumed.
      cbn [collect] in Hds. rewrite Hd0 in Hds. injection Hds as <-.
      assert (forall x, x = expected ->
                Done (Ok (sort_slice less_GroupID x)) = Done (Ok expected)) as Hgoal.
      { intros x ->. now rewrite Hsort. }
      apply Hgoal. reflexivity.
    + exfalso. destruct Hr as [[_ Hc]|[(d & e & Hd & He & _)|(d & l & Hd & _ & Hc)]].
      * congruence.
      * apply list_elem_of_singleton in Hd. subst d. discriminate.
      * apply list_elem_of_singleton in Hd. subst d. cbn [Groups d0] in Hc. congruence.
    + exfalso. destruct Hr as (d & l & Hd & _ & Hc).
      apply list_elem_of_singleton in Hd. subst d. cbn [Groups d0] in Hc. congruence.
Qed.

(** * Further properties of the code *)

(** ** convertGroupMembers *)

Lemma range_members_other members protocolType :
  protocolType <> "consumer" ->
  range_members members protocolType = ([], Done (map (member_with []) members)).
Proof.
  intros Hne. induction members as [|[id m] rest IH]; simpl; [reflexivity|].
  now rewrite (convertGroupMember_other id m protocolType Hne), IH.
Qed.

(** X1.  For a group whose protocol type is not "consumer" the payloads
    are not decoded: nothing is logged, nothing can panic, and every
    entry of the member map gives a member without assignments, in the
    order of the range loop. *)
Theorem convertGroupMembers_other_protocol members protocolType :
  protocolType <> "consumer" ->
  convertGroupMembers members protocolType
    = ([], Done (Ok (map (member_with []) members))).
Proof.
  intros Hne. unfold convertGroupMembers.
  now rewrite (range_members_other members protocolType Hne).
Qed.

Lemma member_rel_fields protocolType members out :
  Forall2 (member_rel protocolType) members out ->
  map ID out = map fst members /\
  map ClientID out = map (fun idm => sarama.ClientId idm.2) members /\
  map ClientHost out = map (fun idm => sarama.ClientHost idm.2) members.
Proof.
  induction 1 as [|idm d members out (H1 & H2 & H3 & _) _ (IH1 & IH2 & IH3)]; simpl.
  - auto.
  - now rewrite H1, H2, H3, IH1, IH2, IH3.
Qed.

(** X2.  When [convertGroupMembers] returns, it returns no error but
    one member per entry of the member map, in the order of the range
    loop: the id is the key of the entry, client id and client host are
    copied; distinct keys give distinct member ids. *)
Theorem convertGroupMembers_members members protocolType lg r :
  convertGroupMembers members protocolType = (lg, Done r) ->
  exists out, r = Ok out /\
    length out = length members /\
    map ID out = map fst members /\
    map ClientID out = map (fun idm => sarama.ClientId idm.2) members /\
    map ClientHost out = map (fun idm => sarama.ClientHost idm.2) members /\
    (NoDup (map fst members) -> NoDup (map ID out)).
Proof.
  intros H. apply convertGroupMembers_Done in H as (out & -> & H).
  apply range_members_Done in H as [Hrel _].
  destruct (member_rel_fields _ _ _ Hrel) as (H1 & H2 & H3).
  exists out. repeat split; auto.
  - symmetry. eapply Forall2_length, Hrel.
  - now rewrite H1.
Qed.

Lemma member_warnings_consumer (members : list (string * sarama.GroupMemberDescription)) :
  concat (map (fun idm => member_warnings "consumer" idm.2) members)
    = omap decode_warning_of members.
Proof.
  induction members as [|[id m] rest IH]; [reflexivity|].
  assert (member_warnings "consumer" m
          = match decode_warning_of (id, m) with Some e => [e] | None => [] end) as Hhead.
  { unfold member_warnings, decode_warning_of. simpl.
    now destruct (sarama.GetMemberAssignment m).2. }
  cbn [map concat snd]. rewrite IH, Hhead.
  change (omap decode_warning_of ((id, m) :: rest))
    with (match decode_warning_of (id, m) with
          | Some e => e :: omap decode_warning_of rest
          | None => omap decode_warning_of rest
          end).
  now destruct (decode_warning_of (id, m)).
Qed.

Lemma range_members_log_visited members :
  (range_members members "consumer").1 = omap decode_warning_of (visited members).
Proof.
  induction members as [|[id m] rest IH]; [reflexivity|].
  assert (member_warnings "consumer" m
          = match decode_warning_of (id, m) with Some e => [e] | None => [] end) as Hhead.
  { unfold member_warnings, decode_warning_of. simpl.
    now destruct (sarama.GetMemberAssignment m).2. }
  cbn [range_members visited snd]. rewrite convertGroupMember_spec, Hhead.
  unfold member_assignments. cbn [String.eqb Ascii.eqb Bool.eqb].
  destruct (sarama.GetMemberAssignment m).1 as [asg|]; simpl.
  - destruct (range_members rest "consumer") as [l2 [ds|]]; simpl in *;
      rewrite ?app_nil_r, IH;
      change (omap decode_warning_of ((id, m) :: visited rest))
        with (match decode_warning_of (id, m) with
              | Some e => e :: omap decode_warning_of (visited rest)
              | None => omap decode_warning_of (visited rest)
              end);
      now destruct (decode_warning_of (id, m)).
  - change (omap decode_warning_of [(id, m)])
      with (match decode_warning_of (id, m) with
            | Some e => [e]
            | None => []
            end).
    now destruct (decode_warning_of (id, m)).
Qed.

Lemma visited_all members :
  (forall id m, (id, m) ∈ members -> (sarama.GetMemberAssignment m).1 <> None) ->
  visited members = members.
Proof.
  induction members as [|[id m] rest IH]; intros Hnil; [reflexivity|]. simpl.
  destruct (sarama.GetMemberAssignment m).1 eqn:Hm.
  - f_equal. apply IH. intros id' m' Hin. apply (Hnil id' m'). now right.
  - exfalso. apply (Hnil id m); [left|exact Hm].
Qed.

(** X3.  The log of [convertGroupMembers] for a "consumer" group holds
    one warning for every member that the loop reaches and whose
    payload gave a decode error, in the order of the range loop, with
    the client id of the member and the error, and nothing else.  The
    loop reaches every member when the function returns, and the
    members up to and including the first one that decodes to a nil
    pointer when it panics there. *)
Theorem convertGroupMembers_log members :
  (convertGroupMembers members "consumer").1 = omap decode_warning_of (visited members) /\
  ((forall id m, (id, m) ∈ members -> (sarama.GetMemberAssignment m).1 <> None) ->
   visited members = members) /\
  (forall lg r, convertGroupMembers members "consumer" = (lg, Done r) ->
     lg = omap decode_warning_of members).
Proof.
  split; [|split].
  - unfold convertGroupMembers. rewrite <- range_members_log_visited.
    destruct (range_members members "consumer") as [l [out|]]; simpl;
      [apply app_nil_r|reflexivity].
  - apply visited_all.
  - intros lg r H. apply convertGroupMembers_Done in H as (out & -> & H).
    apply range_members_Done in H as [_ ->]. apply member_warnings_consumer.
Qed.

Lemma assignment_of_antisym_on (topics : list (string * list Z)) :
  NoDup (map fst topics) ->
  forall x y, x ∈ map assignment_of topics -> y ∈ map assignment_of topics ->
    less_TopicName x y = false -> less_TopicName y x = false -> x = y.
Proof.
  intros Hnd x y Hx Hy Hxy Hyx.
  apply list_elem_of_In, in_map_iff in Hx as (tx & <- & Hx).
  apply list_elem_of_In, in_map_iff in Hy as (ty & <- & Hy).
  f_equal. apply (NoDup_map_inj_on fst topics); auto; try now apply list_elem_of_In.
  apply string_le_antisym; now apply String_ltb_leb.
Qed.

(** X4.  The assignments of a member do not depend on the order in
    which the range loop visits the decoded topic map: two visits of a
    map with distinct topic names give the same member, whose topic
    names are distinct again. *)
Theorem convertGroupMember_topic_order id clientId clientHost topics topics' err :
  NoDup (map fst topics) -> topics ≡ₚ topics' ->
  convertGroupMember id
      (sarama.mkMember clientId clientHost (Some (sarama.mkAssignment topics), err))
      "consumer"
    = convertGroupMember id
        (sarama.mkMember clientId clientHost (Some (sarama.mkAssignment topics'), err))
        "consumer" /\
  exists lg d,
    convertGroupMember id
      (sarama.mkMember clientId clientHost (Some (sarama.mkAssignment topics), err))
      "consumer" = (lg, Done d) /\
    NoDup (map TopicName (Assignments d)).
Proof.
  intros Hnd Hperm.
  rewrite (convertGroupMember_consumer id
             (sarama.mkMember clientId clientHost (Some (sarama.mkAssignment topics), err))
             (sarama.mkAssignment topics) err eq_refl).
  rewrite (convertGroupMember_consumer id
             (sarama.mkMember clientId clientHost (Some (sarama.mkAssignment topics'), err))
             (sarama.mkAssignment topics') err eq_refl).
  simpl. split.
  - assert (sort_slice less_TopicName (map assignment_of topics)
            = sort_slice less_TopicName (map assignment_of topics')) as Hs.
    { apply sort_slice_unique; [auto with less| |now apply Permutation_map].
      now apply assignment_of_antisym_on. }
    rewrite Hs. unfold decode_warning. reflexivity.
  - eexists _, _. split; [reflexivity|]. simpl.
    rewrite (sort_slice_Permutation _ less_TopicName), map_map. simpl. exact Hnd.
Qed.

Lemma range_members_map members protocolType lg out :
  range_members members protocolType = (lg, Done out) ->
  Forall (fun idm => is_Some (member_assignments protocolType idm.2)) members /\
  out = map (fun idm =>
               member_with (default [] (member_assignments protocolType idm.2)) idm)
            members.
Proof.
  intros H. apply range_members_Done in H as [Hrel _].
  induction Hrel as [|[id m] d members out (H1 & H2 & H3 & H4) _ [IH1 IH2]]; simpl.
  - split; [constructor|reflexivity].
  - simpl in *. split.
    + constructor; [simpl; rewrite H4; eauto|exact IH1].
    + rewrite <- IH2. f_equal. unfold member_with. simpl. rewrite H4. simpl.
      destruct d; simpl in *. congruence.
Qed.

(** X5.  The order in which the range loop visits the member map shows
    in the order of the members and of the warnings and in nothing
    else: two visits of the same map return the same members and log
    the same warnings, up to their order. *)
Theorem convertGroupMembers_range_order members members' protocolType lg out :
  members ≡ₚ members' ->
  convertGroupMembers members protocolType = (lg, Done (Ok out)) ->
  exists lg' out',
    convertGroupMembers members' protocolType = (lg', Done (Ok out')) /\
    out ≡ₚ out' /\ lg ≡ₚ lg'.
Proof.
  intros Hperm H. apply convertGroupMembers_Done in H as (out0 & [= <-] & H).
  pose proof (range_members_Done _ _ _ _ H) as [_ Hlg].
  apply range_members_map in H as [Hsome ->].
  destruct (range_members_total members' protocolType) as (lg' & out' & H').
  { intros id m Hin. rewrite <- Hperm in Hin. rewrite Forall_forall in Hsome.
    apply (Hsome (id, m) Hin). }
  pose proof (range_members_Done _ _ _ _ H') as [_ Hlg'].
  apply range_members_map in H' as Hout'. destruct Hout' as [_ ->].
  eexists (lg' ++ []), _. unfold convertGroupMembers. rewrite H'. simpl.
  split; [reflexivity|split].
  - now apply Permutation_map.
  - rewrite app_nil_r, Hlg, Hlg'. now apply Permutation_concat, Permutation_map.
Qed.

Lemma member_warnings_is_warning protocolType m :
  Forall is_warning (member_warnings protocolType m).
Proof.
  unfold member_warnings. destruct (String.eqb protocolType "consumer"); [|constructor].
  destruct (sarama.GetMemberAssignment m).2; repeat constructor.
Qed.

Lemma range_members_log members protocolType :
  Forall is_warning (range_members members protocolType).1.
Proof.
  induction members as [|[id m] rest IH]; simpl; [constructor|].
  rewrite convertGroupMember_spec.
  pose proof (member_warnings_is_warning protocolType m) as Hm.
  destruct (member_assignments protocolType m); simpl; [|exact Hm].
  destruct (range_members rest protocolType) as [l2 [ds|]]; simpl in *.
  - rewrite app_nil_r. now apply Forall_app.
  - now apply Forall_app.
Qed.

(** ** convertSaramaGroupDescriptions *)

Lemma convertSaramaGroupDescriptions_log descriptions :
  Forall is_warning (convertSaramaGroupDescriptions descriptions).1.
Proof.
  induction descriptions as [|d rest IH]; simpl; [constructor|].
  destruct (sarama.Err d =? sarama.ErrNoError)%Z; simpl; [|constructor].
  unfold convertGroupMembers.
  pose proof (range_members_log (sarama.Members d) (sarama.ProtocolType d)) as Hm.
  destruct (range_members (sarama.Members d) (sarama.ProtocolType d)) as [l1 [ms|]];
    simpl in *; [|exact Hm].
  destruct (convertSaramaGroupDescriptions rest) as [l2 [[out|err]|]]; simpl in *;
    rewrite ?app_nil_r; apply Forall_app; split; auto; now apply Forall_app.
Qed.

(** X6.  The conversion of a batch stops at the first raw group with an
    error code: the groups after it are not converted, their payloads
    not decoded and nothing is logged for them, so the result and the
    log do not depend on them, and the result holds no description. *)
Theorem convertSaramaGroupDescriptions_stops pre d post post' :
  sarama.Err d <> sarama.ErrNoError ->
  convertSaramaGroupDescriptions (pre ++ d :: post)
    = convertSaramaGroupDescriptions (pre ++ d :: post') /\
  forall lg out, convertSaramaGroupDescriptions (pre ++ d :: post) <> (lg, Done (Ok out)).
Proof.
  intros Hd. split.
  - induction pre as [|rg pre IH]; simpl.
    + apply Z.eqb_neq in Hd. now rewrite Hd.
    + now rewrite IH.
  - intros lg out. apply convertSaramaGroupDescriptions_not_Ok with (d := d); auto.
    apply elem_of_app. right. left.
Qed.

(** X7.  A batch that is converted gives one description per raw group,
    in the order of the batch, with group id, state, protocol type and
    protocol copied; no raw group of such a batch has an error code,
    and only warnings are logged. *)
Theorem convertSaramaGroupDescriptions_fields descriptions lg out :
  convertSaramaGroupDescriptions descriptions = (lg, Done (Ok out)) ->
  length out = length descriptions /\
  map GroupID out = map sarama.GroupId descriptions /\
  map State out = map sarama.State descriptions /\
  map ProtocolType out = map sarama.ProtocolType descriptions /\
  map Protocol out = map sarama.Protocol descriptions /\
  Forall (fun rg => sarama.Err rg = sarama.ErrNoError) descriptions /\
  Forall is_warning lg.
Proof.
  intros H.
  pose proof (convertSaramaGroupDescriptions_log descriptions) as Hlog.
  rewrite H in Hlog. simpl in Hlog.
  apply convertSaramaGroupDescriptions_Ok in H.
  cut (length out = length descriptions /\
       map GroupID out = map sarama.GroupId descriptions /\
       map State out = map sarama.State descriptions /\
       map ProtocolType out = map sarama.ProtocolType descriptions /\
       map Protocol out = map sarama.Protocol descriptions /\
       Forall (fun rg => sarama.Err rg = sarama.ErrNoError) descriptions);
    [intuition|]. clear Hlog.
  induction H as [|rg g raw l (H0 & H1 & H2 & H3 & H4 & _) _
                    (IH0 & IH1 & IH2 & IH3 & IH4 & IH5)]; simpl.
  - repeat split; auto.
  - rewrite H1, H2, H3, H4, IH0, IH1, IH2, IH3, IH4. repeat split; auto.
Qed.

Lemma convertSaramaGroupDescriptions_Fail_inv descriptions lg err :
  convertSaramaGroupDescriptions descriptions = (lg, Done (Fail err)) ->
  exists pre rg post,
    descriptions = pre ++ rg :: post /\
    Forall (fun g => sarama.Err g = sarama.ErrNoError) pre /\
    sarama.Err rg <> sarama.ErrNoError /\
    err = KError (sarama.Err rg).
Proof.
  revert lg. induction descriptions as [|d rest IH]; intros lg; simpl; [discriminate|].
  destruct (sarama.Err d =? sarama.ErrNoError)%Z eqn:Hd; simpl.
  - intros H. apply bind_Done in H as (l1 & r & l2 & Hmem & H & ->).
    apply convertGroupMembers_Done in Hmem as (members & -> & _).
    apply bind_Done in H as (l3 & r & l4 & Hrest & H & ->).
    destruct r as [response|e]; simpl in H; [discriminate|].
    injection H as <- <-.
    destruct (IH _ Hrest) as (pre & rg & post & -> & Hpre & Hrg & ->).
    exists (d :: pre), rg, post. repeat split; auto.
    constructor; [now apply Z.eqb_eq|exact Hpre].
  - intros [= <- <-]. exists [], d, rest. repeat split; auto.
    now apply Z.eqb_neq.
Qed.

(** X8.  The only error that the conversion of a batch returns is the
    error code of the first raw group of the batch that has one. *)
Theorem convertSaramaGroupDescriptions_error descriptions lg err :
  convertSaramaGroupDescriptions descriptions = (lg, Done (Fail err)) ->
  exists pre rg post,
    descriptions = pre ++ rg :: post /\
    Forall (fun g => sarama.Err g = sarama.ErrNoError) pre /\
    sarama.Err rg <> sarama.ErrNoError /\
    err = KError (sarama.Err rg).
Proof.
  intros H. destruct (convertSaramaGroupDescriptions_Fail_inv _ _ _ H)
    as (pre & rg & post & H1 & H2 & H3 & H4).
  exists pre, rg, post. auto.
Qed.

(** ** The goroutines and the channel *)

(** X9.  The channel never holds more values than its capacity
    [len(groupsByBrokerID)], counting the workers that have not sent
    yet, so no worker blocks on its send, also after the call has
    returned; and the channel is closed only when every worker has
    sent, so no worker sends on a closed channel. *)
Theorem resCh_within_capacity s groups bs gs sched st :
  bucket s groups ∅ ∅ = Ok (bs, gs) ->
  run (start bs gs) sched = Some st ->
  (length (inflight st) + length (resCh st) <= size gs)%nat /\
  (closed st = true -> inflight st = []).
Proof.
  intros Hb Hrun.
  destruct (invariant_run _ _ _ _ (invariant_start bs gs) Hrun)
    as (consumed & HW & Hclosed & _).
  split; [|exact Hclosed].
  apply Permutation_length in HW. rewrite !length_app in HW.
  simpl in HW. rewrite length_map in HW.
  rewrite <- (Forall2_length _ _ _ (requests_spec _ _ _ _ Hb)) in HW.
  rewrite length_map_to_list in HW. lia.
Qed.

(** X10.  All or nothing: a call that returns descriptions has received
    an answer without error from every broker it asked, none of the raw
    groups has an error code, and the group ids of the output are the
    group ids of the raw groups of all answers, each as often as the
    brokers returned it. *)
Theorem DescribeConsumerGroups_describes_answers s groups sched lg out :
  DescribeConsumerGroups s groups sched = Some (lg, Done (Ok out)) ->
  map GroupID out
    ≡ₚ concat (map (fun d => map sarama.GroupId (Groups d)) (answers s groups)) /\
  Forall (fun d => Err d = None /\
                   Forall (fun rg => sarama.Err rg = sarama.ErrNoError) (Groups d))
         (answers s groups).
Proof.
  intros H. apply DescribeConsumerGroups_Ok in H as (consumed & ds & HW & Hds & ->).
  split.
  - rewrite (sort_slice_Permutation _ less_GroupID), (collect_ids _ _ Hds).
    now apply Permutation_concat, Permutation_map.
  - apply Forall_forall. intros d Hd. rewrite <- HW in Hd.
    destruct (collect_converted _ _ _ Hds Hd) as (l & Hl & _).
    apply converted_Some in Hl as (Herr & lg' & Hconv). split; [exact Herr|].
    apply convertSaramaGroupDescriptions_Ok in Hconv.
    apply Forall_forall. intros rg Hrg.
    apply list_elem_of_lookup in Hrg as [i Hi].
    destruct (Forall2_lookup_l _ _ _ _ _ Hconv Hi) as (g & _ & Hg). now destruct Hg.
Qed.

Lemma bucket_total s groups bs0 gs0 :
  Forall (fun g => is_Some (coordinator_id s g)) groups ->
  exists bs gs, bucket s groups bs0 gs0 = Ok (bs, gs).
Proof.
  intros Hres. revert bs0 gs0.
  induction Hres as [|group rest Hg _ IH]; intros bs0 gs0; simpl; [eauto|].
  unfold coordinator_id in Hg.
  destruct (sarama.Coordinator (Client s) group) as [c|e]; [apply IH|].
  now destruct Hg.
Qed.

(** The schedule of [run_can_return] does not cancel the context. *)
Lemma run_can_return_uncancelled (n : nat) st :
  (2 * length (inflight st) + length (resCh st) <= n)%nat ->
  returned st = None ->
  exists sched st', (Cancel ∉ sched) /\ run st sched = Some st' /\ is_Some (returned st').
Proof.
  assert (forall a sched, a <> Cancel -> Cancel ∉ sched -> Cancel ∉ a :: sched) as Hcons.
  { intros a sched Ha Hs Hin. apply elem_of_cons in Hin as [Hin|Hin]; auto. }
  assert (Cancel ∉ @nil action) as Hnil by (intros Hin; inversion Hin).
  revert st. induction n as [|n IH]; intros st Hn Hret.
  - destruct st as [fl ch cl cx ds lg rt]. simpl in *. subst rt.
    destruct fl; [|simpl in Hn; lia]. destruct ch; [|simpl in Hn; lia].
    destruct cl.
    + exists [Select_closed]. eexists. simpl.
      split; [apply Hcons; [discriminate|exact Hnil]|].
      split; [reflexivity|]. simpl. eauto.
    + exists [Close; Select_closed]. eexists. simpl.
      split; [repeat apply Hcons; try discriminate; exact Hnil|].
      split; [reflexivity|]. simpl. eauto.
  - destruct (resCh st) as [|d rest] eqn:Hch.
    + destruct (inflight st) as [|d fl] eqn:Hfl.
      * apply (IH st); [rewrite Hch, Hfl; simpl; lia|exact Hret].
      * destruct (IH (mkState fl [d] (closed st) (ctxDone st) (descriptions st)
                        (logged st) (returned st))) as (sched & st' & Hno & Hrun & Hst').
        { simpl in *. lia. }
        { exact Hret. }
        exists (WorkerSend 0 :: sched), st'.
        split; [apply Hcons; [discriminate|exact Hno]|]. split; [|exact Hst'].
        simpl. rewrite Hfl, Hch. simpl. exact Hrun.
    + destruct (returned (receive st d rest)) as [r|] eqn:Hrecv.
      * exists [Select_recv], (receive st d rest). simpl. rewrite Hret, Hch.
        split; [apply Hcons; [discriminate|exact Hnil]|].
        split; [reflexivity|]. rewrite Hrecv. eauto.
      * destruct (IH (receive st d rest)) as (sched & st' & Hno & Hrun & Hst').
        { unfold receive in *. simpl in Hn.
          destruct (Err d); [discriminate|].
          destruct (convertSaramaGroupDescriptions (Groups d)) as [lg0 [[o|e]|]];
            try discriminate.
          simpl. lia. }
        { exact Hrecv. }
        exists (Select_recv :: sched), st'.
        split; [apply Hcons; [discriminate|exact Hno]|]. split; [|exact Hst'].
        simpl. rewrite Hret, Hch. exact Hrun.
Qed.

(** X11.  When every requested group resolves, every broker answers
    without error, no raw group has an error code and no payload
    decodes to a nil pointer, a call whose context is not cancelled
    returns descriptions: some run does, and every run that returns
    does. *)
Theorem DescribeConsumerGroups_succeeds s groups :
  Forall (fun g => is_Some (coordinator_id s g)) groups ->
  Forall (fun d => Err d = None /\
            Forall (fun rg => sarama.Err rg = sarama.ErrNoError /\ decodes_non_nil rg)
                   (Groups d))
         (answers s groups) ->
  (exists sched lg out,
     (Cancel ∉ sched) /\
     DescribeConsumerGroups s groups sched = Some (lg, Done (Ok out))) /\
  (forall sched lg r,
     Cancel ∉ sched ->
     DescribeConsumerGroups s groups sched = Some (lg, r) ->
     exists out, r = Done (Ok out)).
Proof.
  intros Hres Hclean.
  destruct (bucket_total s groups ∅ ∅ Hres) as (bs & gs & Hb).
  assert (forall sched lg r,
            Cancel ∉ sched ->
            DescribeConsumerGroups s groups sched = Some (lg, r) ->
            exists out, r = Done (Ok out)) as Hall.
  { intros sched lg r Hno H.
    destruct (DescribeConsumerGroups_run _ _ _ _ _ _ _ Hb H)
      as (st & Hrun & Hret & _ & Hinv).
    pose proof (run_never_cancelled _ _ _ Hno Hrun eq_refl) as Hcx.
    destruct Hinv as (consumed & _ & _ & Hr). rewrite Hret in Hr.
    rewrite Forall_forall in Hclean.
    destruct r as [[out|err]|]; [eauto| |]; exfalso.
    - destruct Hr as [[_ Hc]|[(d & e & Hd & He & _)|(d & l & Hd & _ & Hc)]].
      + congruence.
      + destruct (Hclean d Hd) as [Hnone _]. congruence.
      + destruct (Hclean d Hd) as [_ Hgroups].
        destruct (convertSaramaGroupDescriptions_total _ Hgroups) as (l' & out & Hok).
        congruence.
    - destruct Hr as (d & l & Hd & _ & Hc).
      destruct (Hclean d Hd) as [_ Hgroups].
      destruct (convertSaramaGroupDescriptions_total _ Hgroups) as (l' & out & Hok).
      congruence. }
  split; [|exact Hall].
  destruct (run_can_return_uncancelled _ (start bs gs) (Nat.le_refl _) eq_refl)
    as (sched & st & Hno & Hrun & [r Hr]).
  assert (DescribeConsumerGroups s groups sched = Some (logged st, r)) as H.
  { unfold DescribeConsumerGroups. now rewrite Hb, Hrun, Hr. }
  destruct (Hall _ _ _ Hno H) as [out ->]. eauto 6.
Qed.

(** X12.  The empty request: no worker is started; the run that closes
    the channel and takes the closed channel returns an empty list of
    descriptions and logs nothing, and every run returns that list or,
    when the [select] takes a cancelled context first, the
    cancellation error. *)
Theorem DescribeConsumerGroups_empty s :
  DescribeConsumerGroups s [] [Close; Select_closed] = Some ([], Done (Ok [])) /\
  (forall sched lg r,
     DescribeConsumerGroups s [] sched = Some (lg, r) ->
     r = Done (Ok []) \/ r = Done (Fail cancelled_error)).
Proof.
  assert (start ∅ ∅ = mkState [] [] false false [] [] None) as Hstart.
  { unfold start, requests. now rewrite map_to_list_empty. }
  split.
  - unfold DescribeConsumerGroups. simpl bucket. cbv beta iota. rewrite Hstart.
    simpl. now rewrite sort_slice_nil.
  - intros sched lg r H.
    destruct (DescribeConsumerGroups_run s [] sched lg r ∅ ∅ eq_refl H)
      as (st & _ & Hret & _ & (consumed & HW & _ & Hr)).
    unfold answers in *. simpl bucket in *. cbv beta iota in *.
    rewrite Hstart in *. simpl in HW. rewrite Hret in Hr.
    destruct r as [[out|err]|].
    + destruct Hr as (Hfl & Hch & ds & Hds & ->). rewrite Hfl, Hch in HW. simpl in HW.
      apply Permutation_nil_r in HW. subst consumed. simpl in Hds. injection Hds as <-.
      left. now rewrite sort_slice_nil.
    + destruct Hr as [[-> _]|[(d & e & Hd & _)|(d & l & Hd & _)]]; [now right| |];
        inversion Hd.
    + destruct Hr as (d & l & Hd & _). inversion Hd.
Qed.

(** ** The log of a call *)

Lemma log_step st a st' :
  step st a = Some st' ->
  logs_as (returned st) (logged st) -> logs_as (returned st') (logged st').
Proof.
  unfold logs_as. intros Hstep Hinv. destruct st as [fl ch cl cx ds lg rt]. simpl in *.
  destruct a; simpl in Hstep.
  - destruct (fl !! i); [|discriminate]. now injection Hstep as <-.
  - destruct fl, cl; try discriminate. now injection Hstep as <-.
  - now injection Hstep as <-.
  - destruct rt; [discriminate|]. destruct ch as [|d rest]; [discriminate|].
    injection Hstep as <-. destruct Hinv as [[_ Hlg]|[Hc _]]; [|discriminate].
    left. unfold receive. simpl.
    destruct (Err d); simpl; [split; [discriminate|exact Hlg]|].
    pose proof (convertSaramaGroupDescriptions_log (Groups d)) as Hw.
    destruct (convertSaramaGroupDescriptions (Groups d)) as [l [[out|err]|]] eqn:Hconv;
      simpl in *; (split; [|now apply Forall_app]); try discriminate.
    apply convertSaramaGroupDescriptions_Fail_inv in Hconv
      as (pre & rg & post & _ & _ & _ & ->). discriminate.
  - destruct rt; [discriminate|]. destruct ch; [|discriminate].
    destruct cl; [|discriminate]. injection Hstep as <-.
    destruct Hinv as [[_ Hlg]|[Hc _]]; [|discriminate].
    left. simpl. split; [discriminate|exact Hlg].
  - destruct rt; [discriminate|]. destruct cx; [|discriminate].
    injection Hstep as <-. destruct Hinv as [[_ Hlg]|[Hc _]]; [|discriminate].
    right. simpl. split; [reflexivity|]. exists lg. split; [reflexivity|exact Hlg].
Qed.

Lemma log_run st sched st' :
  run st sched = Some st' ->
  logs_as (returned st) (logged st) -> logs_as (returned st') (logged st').
Proof.
  revert st. induction sched as [|a sched IH]; intros st; simpl.
  - now intros [= <-].
  - destruct (step st a) as [st1|] eqn:Hstep; [|discriminate].
    intros Hrun Hinv. apply (IH st1 Hrun). eapply log_step; eauto.
Qed.

(** X13.  What a call logs once every group has resolved: decode
    warnings, and after them one entry of level Error, "context has
    been cancelled", exactly when the call returns the cancellation
    error.  Broker failures and group error codes are returned and not
    logged. *)
Theorem DescribeConsumerGroups_log s groups bs gs sched lg r :
  bucket s groups ∅ ∅ = Ok (bs, gs) ->
  DescribeConsumerGroups s groups sched = Some (lg, r) ->
  (r <> Done (Fail cancelled_error) /\ Forall is_warning lg) \/
  (r = Done (Fail cancelled_error) /\
   exists l, lg = l ++ [cancelled_entry] /\ Forall is_warning l).
Proof.
  intros Hb H.
  destruct (DescribeConsumerGroups_run _ _ _ _ _ _ _ Hb H) as (st & Hrun & Hret & <- & _).
  assert (logs_as (returned st) (logged st)) as Hlog.
  { apply (log_run _ _ _ Hrun). left. simpl. split; [discriminate|constructor]. }
  rewrite Hret in Hlog. destruct Hlog as [[Hne Hw]|[[= ->] Hl]]; [left|right]; auto.
  split; [congruence|exact Hw].
Qed.

(** ** The order of the request *)

(** X14.  The order of the output does not depend on the order of the
    request: two successful calls for the same groups, requested in any
    order and answered by brokers that return what they are asked,
    return the group ids in the same, ascending, order. *)
Theorem DescribeConsumerGroups_request_order
    s groups groups' sched sched' lg lg' out out' :
  groups ≡ₚ groups' ->
  brokers_answer_requests s groups ->
  DescribeConsumerGroups s groups sched = Some (lg, Done (Ok out)) ->
  DescribeConsumerGroups s groups' sched' = Some (lg', Done (Ok out')) ->
  map GroupID out = map GroupID out' /\
  StronglySorted string_le (map GroupID out).
Proof.
  intros Hperm Hf H H'.
  assert (brokers_answer_requests s groups') as Hf'.
  { intros group b Hin. apply Hf. now rewrite Hperm. }
  pose proof (DescribeConsumerGroups_Ok_bucket _ _ _ _ _ H) as Hb.
  pose proof (DescribeConsumerGroups_Ok_bucket _ _ _ _ _ H') as Hb'.
  apply DescribeConsumerGroups_Ok in H as (c & ds & HW & Hds & ->).
  apply DescribeConsumerGroups_Ok in H' as (c' & ds' & HW' & Hds' & ->).
  split; [|apply StronglySorted_GroupID, sort_slice_GroupID_le].
  apply (StronglySorted_unique_strong string_le).
  - intros x y _ _. apply string_le_antisym.
  - apply StronglySorted_GroupID, sort_slice_GroupID_le.
  - apply StronglySorted_GroupID, sort_slice_GroupID_le.
  - rewrite !(sort_slice_Permutation _ less_GroupID).
    rewrite (collect_answers_ids _ _ _ _ Hb Hf HW Hds).
    rewrite (collect_answers_ids _ _ _ _ Hb' Hf' HW' Hds'). exact Hperm.
Qed.

(** ** Panics and errors *)

Lemma member_assignments_None protocolType m :
  member_assignments protocolType m = None <->
  protocolType = "consumer" /\ (sarama.GetMemberAssignment m).1 = None.
Proof.
  unfold member_assignments.
  destruct (String.eqb_spec protocolType "consumer") as [->|Hne].
  - destruct (sarama.GetMemberAssignment m).1; intuition discriminate.
  - intuition discriminate.
Qed.

Lemma range_members_Panicked members protocolType lg :
  range_members members protocolType = (lg, Panicked) ->
  exists id m, (id, m) ∈ members /\ member_assignments protocolType m = None.
Proof.
  revert lg. induction members as [|[id m] rest IH]; intros lg; simpl; [discriminate|].
  rewrite convertGroupMember_spec.
  destruct (member_assignments protocolType m) as [a|] eqn:Ha; simpl.
  - destruct (range_members rest protocolType) as [l2 [ds|]] eqn:Hrest; simpl;
      [discriminate|].
    intros _. destruct (IH _ eq_refl) as (id' & m' & Hin & Hnone).
    exists id', m'. split; [now right|exact Hnone].
  - intros _. exists id, m. split; [left|exact Ha].
Qed.

(** X15.  [convertGroupMembers] panics on a "consumer" group exactly
    when the decoder returns a nil pointer for some member of the map,
    with an error or without one. *)
Theorem convertGroupMembers_panics_iff members :
  (exists lg, convertGroupMembers members "consumer" = (lg, Panicked)) <->
  (exists id m, (id, m) ∈ members /\ (sarama.GetMemberAssignment m).1 = None).
Proof.
  split.
  - intros [lg H]. unfold convertGroupMembers in H.
    apply bind_Panicked in H as [H|(l1 & a & l2 & _ & H & _)]; [|discriminate].
    destruct (range_members_Panicked _ _ _ H) as (id & m & Hin & Hnone).
    apply member_assignments_None in Hnone as [_ Hnone]. eauto.
  - intros (id & m & Hin & Hnone).
    destruct (range_members_panics members "consumer" id m Hin) as [lg H].
    { now apply member_assignments_None. }
    exists lg. unfold convertGroupMembers. now rewrite H.
Qed.

Lemma convertSaramaGroupDescriptions_Panicked descriptions lg :
  convertSaramaGroupDescriptions descriptions = (lg, Panicked) ->
  exists rg id m, rg ∈ descriptions /\ (id, m) ∈ sarama.Members rg /\
    sarama.ProtocolType rg = "consumer" /\ (sarama.GetMemberAssignment m).1 = None.
Proof.
  revert lg. induction descriptions as [|d rest IH]; intros lg; simpl; [discriminate|].
  destruct (sarama.Err d =? sarama.ErrNoError)%Z; simpl; [|discriminate].
  unfold convertGroupMembers.
  destruct (range_members (sarama.Members d) (sarama.ProtocolType d)) as [l1 [ms|]] eqn:Hm;
    simpl.
  - destruct (convertSaramaGroupDescriptions rest) as [l2 [[out|err]|]] eqn:Hrest; simpl;
      try discriminate.
    intros _. destruct (IH _ eq_refl) as (rg & id & m & Hin & H).
    exists rg, id, m. split; [now right|exact H].
  - intros _. destruct (range_members_Panicked _ _ _ Hm) as (id & m & Hin & Hnone).
    apply member_assignments_None in Hnone as [Hpt Hnone].
    exists d, id, m. split; [left|auto].
Qed.

(** X16.  A call panics only on a nil pointer from the decoder: some
    broker has answered without error with a raw group of protocol
    type "consumer" that has a member for which [GetMemberAssignment]
    returns a nil pointer. *)
Theorem DescribeConsumerGroups_panics_only_on_nil s groups sched lg :
  DescribeConsumerGroups s groups sched = Some (lg, Panicked) ->
  exists d rg id m,
    d ∈ answers s groups /\ Err d = None /\ rg ∈ Groups d /\
    sarama.ProtocolType rg = "consumer" /\
    (id, m) ∈ sarama.Members rg /\ (sarama.GetMemberAssignment m).1 = None.
Proof.
  intros H. destruct (bucket s groups ∅ ∅) as [[bs gs]|err] eqn:Hb.
  - destruct (DescribeConsumerGroups_run _ _ _ _ _ _ _ Hb H)
      as (st & _ & Hret & _ & (consumed & _ & _ & Hr)).
    rewrite Hret in Hr. destruct Hr as (d & l & Hd & Herr & Hp).
    destruct (convertSaramaGroupDescriptions_Panicked _ _ Hp)
      as (rg & id & m & Hrg & Hm & Hpt & Hnone).
    exists d, rg, id, m. auto 6.
  - rewrite (DescribeConsumerGroups_bucket_Fail _ _ _ _ Hb) in H. discriminate.
Qed.

Lemma bucket_Fail_inv s groups bs0 gs0 err :
  bucket s groups bs0 gs0 = Fail err ->
  exists group, group ∈ groups /\ sarama.Coordinator (Client s) group = Fail err.
Proof.
  revert bs0 gs0. induction groups as [|group rest IH]; intros bs0 gs0; simpl;
    [discriminate|].
  destruct (sarama.Coordinator (Client s) group) as [c|e] eqn:Hc.
  - intros H. destruct (IH _ _ H) as (g & Hin & Hg). exists g. split; [now right|exact Hg].
  - intros [= ->]. exists group. split; [left|exact Hc].
Qed.

(** X17.  The errors of a call.  An error that [DescribeConsumerGroups]
    returns is the error of the coordinator lookup of a requested
    group, or the cancellation error, or the error built from the id
    and the error of a broker whose request failed, or the error code
    of a raw group in the answer of a broker. *)
Theorem DescribeConsumerGroups_errors s groups sched lg err :
  DescribeConsumerGroups s groups sched = Some (lg, Done (Fail err)) ->
  (exists group, group ∈ groups /\ sarama.Coordinator (Client s) group = Fail err) \/
  err = cancelled_error \/
  (exists d e, d ∈ answers s groups /\ Err d = Some e /\
     err = broker_failed (BrokerID d) e) \/
  (exists d rg, d ∈ answers s groups /\ Err d = None /\ rg ∈ Groups d /\
     sarama.Err rg <> sarama.ErrNoError /\ err = KError (sarama.Err rg)).
Proof.
  intros H. destruct (bucket s groups ∅ ∅) as [[bs gs]|e] eqn:Hb.
  - right.
    destruct (DescribeConsumerGroups_run _ _ _ _ _ _ _ Hb H)
      as (st & _ & Hret & _ & (consumed & _ & _ & Hr)).
    rewrite Hret in Hr.
    destruct Hr as [[-> _]|[(d & e & Hd & He & ->)|(d & l & Hd & Herr & Hc)]].
    + now left.
    + right. left. eauto.
    + right. right.
      apply convertSaramaGroupDescriptions_Fail_inv in Hc
        as (pre & rg & post & Hgroups & _ & Hrg & ->).
      exists d, rg. repeat split; auto.
      rewrite Hgroups. apply elem_of_app. right. left.
  - left. rewrite (DescribeConsumerGroups_bucket_Fail _ _ _ _ Hb) in H.
    injection H as _ Heq. subst e. eapply bucket_Fail_inv, Hb.
Qed.

(** * The revised claims *)

(** ** The requests that are issued *)




(** ** A payload that does not decode *)

Lemma logs_received_start brokersByID groupsByBrokerID :
  logs_received (inflight (start brokersByID groupsByBrokerID))
                (start brokersByID groupsByBrokerID).
Proof.
  exists []. simpl. rewrite app_nil_r. repeat split; auto; try discriminate.
  intros d e Hd. inversion Hd.
Qed.

Lemma logs_received_step W st a st' :
  logs_received W st -> step st a = Some st' -> logs_received W st'.
Proof.
  intros (consumed & HW & Hclosed & Hret & Hlog) Hstep.
  destruct st as [fl ch cl cx ds lg rt]. simpl in *.
  destruct a; simpl in Hstep.
  - (* WorkerSend *)
    destruct (fl !! i) as [d|] eqn:Hi; [|discriminate]. injection Hstep as <-.
    exists consumed. simpl. split; [|split; [|split]]; auto.
    + rewrite <- HW.
      etransitivity;
        [|apply Permutation_app_tail; symmetry; apply (delete_Permutation fl i d Hi)].
      rewrite <- (app_assoc ch [d] consumed). simpl.
      rewrite <- (Permutation_middle ch consumed d).
      rewrite <- (Permutation_middle (delete i fl) (ch ++ consumed) d). reflexivity.
    + intros Hcl. rewrite (Hclosed Hcl) in Hi. discriminate.
    + intros out Hout. destruct (Hret out Hout) as [-> _]. discriminate.
  - (* Close *)
    destruct fl; [|discriminate]. destruct cl; [discriminate|].
    injection Hstep as <-. exists consumed. simpl.
    split; [exact HW|split; [reflexivity|split; [exact Hret|exact Hlog]]].
  - (* Cancel *)
    injection Hstep as <-. exists consumed. simpl.
    split; [exact HW|split; [exact Hclosed|split; [exact Hret|exact Hlog]]].
  - (* Select_recv *)
    destruct rt; [discriminate|]. destruct ch as [|d rest]; [discriminate|].
    injection Hstep as <-.
    assert (fl ++ rest ++ consumed ++ [d] ≡ₚ W) as HW'.
    { rewrite <- HW. apply Permutation_app_head. simpl.
      rewrite (app_assoc rest consumed [d]).
      now rewrite <- (Permutation_cons_append (rest ++ consumed) d). }
    exists (consumed ++ [d]). unfold receive. simpl.
    destruct (Err d) as [e0|] eqn:He; simpl.
    { split; [exact HW'|split; [exact Hclosed|split; [discriminate|]]].
      intros d' e Hd' Herr He'. apply elem_of_app in Hd' as [Hd'|Hd'].
      - now apply (Hlog d' e).
      - apply list_elem_of_singleton in Hd' as ->. congruence. }
    assert (forall l, forall d' e, d' ∈ consumed ++ [d] -> Err d' = None ->
              e ∈ (convertSaramaGroupDescriptions (Groups d')).1 ->
              (convertSaramaGroupDescriptions (Groups d)).1 = l -> e ∈ lg ++ l) as Hlog'.
    { intros l d' e Hd' Herr He' Hl. apply elem_of_app.
      apply elem_of_app in Hd' as [Hd'|Hd'].
      - left. now apply (Hlog d' e).
      - apply list_elem_of_singleton in Hd' as ->. right. now rewrite <- Hl. }
    destruct (convertSaramaGroupDescriptions (Groups d)) as [l [[out|err]|]] eqn:Hconv;
      simpl; (split; [exact HW'|split; [exact Hclosed|split; [discriminate|]]]);
      intros d' e Hd' Herr He'; now apply (Hlog' l d' e).
  - (* Select_closed *)
    destruct rt; [discriminate|]. destruct ch; [|discriminate].
    destruct cl; [|discriminate]. injection Hstep as <-.
    exists consumed. simpl.
    split; [exact HW|split; [exact Hclosed|split; [|exact Hlog]]].
    intros _ _. split; [now apply Hclosed|reflexivity].
  - (* Select_ctxDone *)
    destruct rt; [discriminate|]. destruct cx; [|discriminate].
    injection Hstep as <-. exists consumed. simpl.
    split; [exact HW|split; [exact Hclosed|split; [discriminate|]]].
    intros d e Hd Herr He. apply elem_of_app. left. now apply (Hlog d e).
Qed.

Lemma logs_received_run W st sched st' :
  logs_received W st -> run st sched = Some st' -> logs_received W st'.
Proof.
  revert st. induction sched as [|a sched IH]; intros st Hinv; simpl.
  - now intros [= <-].
  - destruct (step st a) as [st1|] eqn:Hstep; [|discriminate].
    apply IH. eapply logs_received_step; eauto.
Qed.

(** A call that returns descriptions has logged what the conversion of
    every answer logs. *)
Lemma DescribeConsumerGroups_Ok_log s groups sched lg out d e :
  DescribeConsumerGroups s groups sched = Some (lg, Done (Ok out)) ->
  d ∈ answers s groups -> Err d = None ->
  e ∈ (convertSaramaGroupDescriptions (Groups d)).1 -> e ∈ lg.
Proof.
  intros H. destruct (DescribeConsumerGroups_Ok_bucket _ _ _ _ _ H) as [[bs gs] Hb].
  unfold DescribeConsumerGroups, answers in *. rewrite Hb in *.
  destruct (run (start bs gs) sched) as [st|] eqn:Hrun; [|discriminate].
  destruct (returned st) as [r|] eqn:Hr; [|discriminate]. injection H as <- ->.
  destruct (logs_received_run _ _ _ _ (logs_received_start bs gs) Hrun)
    as (consumed & HW & _ & Hret & Hlog).
  destruct (Hret out Hr) as [Hfl Hch]. rewrite Hfl, Hch in HW. simpl in HW.
  intros Hd. rewrite <- HW in Hd. now apply Hlog.
Qed.

(** The warnings of every member of every group are in the log of a
    conversion that returns. *)
Lemma convertSaramaGroupDescriptions_warnings descriptions lg out rg i id m e :
  convertSaramaGroupDescriptions descriptions = (lg, Done (Ok out)) ->
  rg ∈ descriptions -> sarama.Members rg !! i = Some (id, m) ->
  e ∈ member_warnings (sarama.ProtocolType rg) m -> e ∈ lg.
Proof.
  revert lg out. induction descriptions as [|d rest IH]; intros lg out; simpl.
  - intros _ Hin. inversion Hin.
  - destruct (sarama.Err d =? sarama.ErrNoError)%Z eqn:Herr; simpl; [|discriminate].
    intros H Hin Hi He. apply bind_Done in H as (l1 & r & l2 & Hmem & H & ->).
    apply convertGroupMembers_Done in Hmem as (members & -> & Hmem).
    apply bind_Done in H as (l3 & r & l4 & Hrest & H & ->).
    destruct r as [response|err]; simpl in H; [|discriminate].
    injection H as <- <-. rewrite app_nil_r. apply elem_of_app.
    apply elem_of_cons in Hin as [->|Hin].
    + left. destruct (range_members_lookup _ _ _ _ _ _ _ Hmem Hi) as (_ & _ & _ & Hlg).
      now apply Hlg.
    + right. eapply IH; eauto.
Qed.

(** A call that nothing makes fail returns descriptions when its
    context is not cancelled. *)
Lemma healthy_call_returns s groups :
  Forall (fun group => is_Some (coordinator_id s group)) groups ->
  Forall healthy (answers s groups) ->
  (exists sched lg out,
     (Cancel ∉ sched) /\
     DescribeConsumerGroups s groups sched = Some (lg, Done (Ok out))) /\
  (forall sched lg r,
     Cancel ∉ sched ->
     DescribeConsumerGroups s groups sched = Some (lg, r) ->
     exists out, r = Done (Ok out)).
Proof.
  intros Hres Hhealthy.
  destruct (bucket_total s groups ∅ ∅ Hres) as (bs & gs & Hb).
  assert (forall d, d ∈ answers s groups ->
            Err d = None /\ is_Some (converted d)) as Hconv.
  { intros d Hd. rewrite Forall_forall in Hhealthy.
    destruct (Hhealthy d Hd) as [Herr Hgroups]. split; [exact Herr|].
    destruct (convertSaramaGroupDescriptions_total _ Hgroups) as (l & out & Hok).
    unfold converted. rewrite Herr, Hok. eauto. }
  assert (forall sched lg r,
            Cancel ∉ sched ->
            DescribeConsumerGroups s groups sched = Some (lg, r) ->
            exists out, r = Done (Ok out)) as Hall.
  { intros sched lg r Hno H.
    destruct (DescribeConsumerGroups_run _ _ _ _ _ _ _ Hb H)
      as (st & Hrun & Hret & _ & (consumed & _ & _ & Hr)).
    pose proof (run_never_cancelled _ _ _ Hno Hrun eq_refl) as Hcx.
    rewrite Hret in Hr.
    destruct r as [[out|err]|]; [eauto| |]; exfalso.
    - destruct Hr as [[_ Hc]|[(d & e & Hd & He & _)|(d & l & Hd & Herr & Hc)]].
      + congruence.
      + destruct (Hconv d Hd) as [Hnone _]. congruence.
      + destruct (Hconv d Hd) as [_ [out Hout]]. unfold converted in Hout.
        rewrite Herr, Hc in Hout. discriminate.
    - destruct Hr as (d & l & Hd & Herr & Hc).
      destruct (Hconv d Hd) as [_ [out Hout]]. unfold converted in Hout.
      rewrite Herr, Hc in Hout. discriminate. }
  split; [|exact Hall].
  destruct (run_can_return_uncancelled _ (start bs gs) (Nat.le_refl _) eq_refl)
    as (sched & st & Hno & Hrun & [r Hr]).
  assert (DescribeConsumerGroups s groups sched = Some (logged st, r)) as H.
  { unfold DescribeConsumerGroups. now rewrite Hb, Hrun, Hr. }
  destruct (Hall _ _ _ Hno H) as [out ->]. eauto 6.
Qed.

(** C3, as the code has it.  A payload that does not decode does not
    make the call fail, as long as the decoder returns a value with its
    error.  Every call that returns descriptions has logged the warning
    and returns the member, in its group, with the sorted entries of
    the topic map of that value as its assignments; they are empty when
    that map is empty.  And when nothing else is wrong, that is when
    every group resolves, every broker answers, no raw group has an
    error code, no payload decodes to a nil pointer and the context is
    not cancelled, the call returns descriptions: some run does, and
    every run that returns does. *)
Theorem decode_failure_does_not_fail_call s groups d rg i id m asg err :
  d ∈ answers s groups ->
  rg ∈ Groups d ->
  sarama.ProtocolType rg = "consumer" ->
  sarama.Members rg !! i = Some (id, m) ->
  sarama.GetMemberAssignment m = (Some asg, Some err) ->
  (forall sched lg out,
     DescribeConsumerGroups s groups sched = Some (lg, Done (Ok out)) ->
     decode_warning m err ∈ lg /\
     exists g md,
       g ∈ out /\ GroupID g = sarama.GroupId rg /\
       Members g !! i = Some md /\ ID md = id /\
       ClientID md = sarama.ClientId m /\ ClientHost md = sarama.ClientHost m /\
       Assignments md
         = sort_slice less_TopicName (map assignment_of (sarama.Topics asg)) /\
       (sarama.Topics asg = [] -> Assignments md = [])) /\
  (Forall (fun group => is_Some (coordinator_id s group)) groups ->
   Forall healthy (answers s groups) ->
   (exists sched lg out,
      (Cancel ∉ sched) /\
      DescribeConsumerGroups s groups sched = Some (lg, Done (Ok out))) /\
   (forall sched lg r,
      Cancel ∉ sched ->
      DescribeConsumerGroups s groups sched = Some (lg, r) ->
      exists out, r = Done (Ok out))).
Proof.
  intros Hd Hrg Hpt Hi Hget. split; [|apply healthy_call_returns].
  intros sched lg out H.
  pose proof (DescribeConsumerGroups_Ok _ _ _ _ _ H) as (consumed & ds & HW & Hds & ->).
  assert (d ∈ consumed) as Hdc by now rewrite HW.
  destruct (collect_converted _ _ _ Hds Hdc) as (l & Hl & Hsub).
  apply converted_Some in Hl as (Herr & lg' & Hconv).
  split.
  - apply (DescribeConsumerGroups_Ok_log _ _ _ _ _ d _ H Hd Herr).
    rewrite Hconv. simpl.
    apply (convertSaramaGroupDescriptions_warnings _ _ _ rg i id m _ Hconv Hrg Hi).
    unfold member_warnings. rewrite Hpt, Hget. simpl. left.
  - pose proof (convertSaramaGroupDescriptions_Ok _ _ _ Hconv) as Hrel.
    apply list_elem_of_lookup in Hrg as [j Hj].
    destruct (Forall2_lookup_l _ _ _ _ _ Hrel Hj) as (g & Hg & (_ & Hid & _ & _ & _ & Hmem)).
    destruct (Forall2_lookup_l _ _ _ _ _ Hmem Hi) as (md & Hmd & (H1 & H2 & H3 & H4)).
    exists g, md. simpl in *.
    assert (Assignments md
            = sort_slice less_TopicName (map assignment_of (sarama.Topics asg))) as Hasg.
    { unfold member_assignments in H4. rewrite Hpt, Hget in H4. simpl in H4.
      now injection H4 as <-. }
    repeat split; auto.
    + apply sort_slice_elem_of, Hsub. eapply list_elem_of_lookup_2, Hg.
    + intros Hempty. rewrite Hasg, Hempty. simpl. apply sort_slice_nil.
Qed.

(** ** Two runs against the same brokers *)

Lemma member_assignments_same protocolType m1 m2 :
  same_member m1 m2 ->
  member_assignments protocolType m1 = member_assignments protocolType m2.
Proof.
  intros (_ & _ & _ & Hsame). unfold member_assignments.
  destruct (String.eqb protocolType "consumer"); [|reflexivity].
  destruct (sarama.GetMemberAssignment m1).1 as [a1|],
           (sarama.GetMemberAssignment m2).1 as [a2|]; simpl in Hsame;
    try contradiction; [|reflexivity].
  destruct Hsame as [Hperm Hnd]. f_equal. apply sort_slice_unique.
  - apply less_TopicName_strict_weak_order.
  - now apply assignment_of_antisym_on.
  - now apply Permutation_map.
Qed.

Lemma member_rel_same protocolType x y d1 d2 :
  x.1 = y.1 -> same_member x.2 y.2 ->
  member_rel protocolType x d1 -> member_rel protocolType y d2 -> d1 = d2.
Proof.
  intros Hid Hsame (H1 & H2 & H3 & H4) (H1' & H2' & H3' & H4').
  rewrite (member_assignments_same protocolType _ _ Hsame) in H4.
  destruct Hsame as (Hc & Hh & _). destruct d1, d2. simpl in *. congruence.
Qed.

Lemma Forall2_joined {A B C D} (S : A -> B -> Prop) (P : A -> C -> Prop)
    (Q : B -> D -> Prop) (T : C -> D -> Prop) a b x y :
  (forall a b x y, S a b -> P a x -> Q b y -> T x y) ->
  Forall2 S a b -> Forall2 P a x -> Forall2 Q b y -> Forall2 T x y.
Proof.
  intros HT HS. revert x y.
  induction HS as [|a0 b0 a b H0 _ IH]; intros x y HP HQ;
    inversion HP; inversion HQ; subst; constructor; eauto.
Qed.

Lemma members_same protocolType l1 l2 out1 out2 :
  same_members l1 l2 ->
  Forall2 (member_rel protocolType) l1 out1 ->
  Forall2 (member_rel protocolType) l2 out2 ->
  out1 ≡ₚ out2.
Proof.
  intros (l & Hperm & Hsame) H1 H2.
  symmetry in Hperm.
  destruct (Permutation_Forall2 Hperm H1) as (out1' & Hout1 & H1').
  rewrite Hout1.
  assert (Forall2 eq out1' out2) as Heq.
  { apply (Forall2_joined _ _ _ _ _ _ _ _
             (fun x y d1 d2 Hxy => member_rel_same protocolType x y d1 d2
                                     (proj1 Hxy) (proj2 Hxy))
             Hsame H1' H2). }
  assert (out1' = out2) as ->.
  { clear -Heq. induction Heq as [|x y l k Hxy _ IH]; [reflexivity|].
    now rewrite Hxy, IH. }
  reflexivity.
Qed.

Lemma group_rel_same rg1 rg2 g1 g2 :
  same_group rg1 rg2 -> group_rel rg1 g1 -> group_rel rg2 g2 -> same_description g1 g2.
Proof.
  intros (_ & Hid & Hst & Hpt & Hp & Hmem) (_ & A1 & A2 & A3 & A4 & A5)
         (_ & B1 & B2 & B3 & B4 & B5).
  repeat split; try congruence.
  rewrite <- Hpt in B5. exact (members_same _ _ _ _ _ Hmem A5 B5).
Qed.

Lemma converted_same d1 d2 l1 l2 :
  same_response d1 d2 -> converted d1 = Some l1 -> converted d2 = Some l2 ->
  Forall2 same_description l1 l2.
Proof.
  intros (_ & _ & Hsame) H1 H2.
  apply converted_Some in H1 as (_ & lg1 & H1).
  apply converted_Some in H2 as (_ & lg2 & H2).
  apply convertSaramaGroupDescriptions_Ok in H1, H2.
  exact (Forall2_joined _ _ _ _ _ _ _ _ group_rel_same Hsame H1 H2).
Qed.

Lemma collect_same W1 W2 ds1 ds2 :
  Forall2 same_response W1 W2 -> collect W1 = Some ds1 -> collect W2 = Some ds2 ->
  Forall2 same_description ds1 ds2.
Proof.
  intros HW. revert ds1 ds2.
  induction HW as [|d1 d2 W1 W2 Hd _ IH]; intros ds1 ds2; simpl.
  - intros [= <-] [= <-]. constructor.
  - destruct (converted d1) as [l1|] eqn:H1; [|discriminate].
    destruct (collect W1) as [ls1|]; [|discriminate]. intros [= <-].
    destruct (converted d2) as [l2|] eqn:H2; [|discriminate].
    destruct (collect W2) as [ls2|]; [|discriminate]. intros [= <-].
    apply Forall2_app; [exact (converted_same _ _ _ _ Hd H1 H2)|now apply IH].
Qed.

(** Step 1 fills the two maps alike in both runs. *)
Lemma bucket_same s1 s2 groups bs1 bs2 gs :
  same_service s1 s2 -> same_brokers bs1 bs2 ->
  match bucket s1 groups bs1 gs, bucket s2 groups bs2 gs with
  | Ok (bs1', gs1), Ok (bs2', gs2) => gs1 = gs2 /\ same_brokers bs1' bs2'
  | Fail e1, Fail e2 => e1 = e2
  | _, _ => False
  end.
Proof.
  intros Hs. revert bs1 bs2 gs.
  induction groups as [|group rest IH]; intros bs1 bs2 gs Hbs; simpl; [auto|].
  specialize (Hs group) as Hg.
  destruct (sarama.Coordinator (Client s1) group) as [b1|e1],
           (sarama.Coordinator (Client s2) group) as [b2|e2]; try contradiction;
    [|exact Hg].
  destruct Hg as [Hid Hans]. rewrite <- Hid. apply IH.
  intros id. destruct (decide (sarama.ID b1 = id)) as [<-|Hne].
  - rewrite !lookup_insert_eq. split; [exact Hid|exact Hans].
  - rewrite !lookup_insert_ne by exact Hne. apply Hbs.
Qed.

Lemma requests_same bs1 bs2 gs :
  same_brokers bs1 bs2 ->
  Forall2 (fun x y => same_broker x.1 y.1 /\ x.2 = y.2)
          (requests bs1 gs) (requests bs2 gs).
Proof.
  intros Hbs. unfold requests.
  induction (map_to_list gs) as [|[id grps] l IH]; simpl; [constructor|].
  pose proof (Hbs id) as Hid.
  destruct (bs1 !! id) as [b1|], (bs2 !! id) as [b2|]; try contradiction.
  - constructor; [split; [exact Hid|reflexivity]|exact IH].
  - exact IH.
Qed.

Lemma worker_same b1 b2 grps :
  same_broker b1 b2 -> same_response (worker b1 b1 grps) (worker b2 b2 grps).
Proof.
  intros [Hid Hans]. specialize (Hans grps). unfold worker.
  destruct (sarama.DescribeGroups b1 grps) as [r1|e1],
           (sarama.DescribeGroups b2 grps) as [r2|e2]; try contradiction.
  - split; [reflexivity|split; [exact Hid|exact Hans]].
  - simpl in Hans. subst e2. split; [reflexivity|split; [exact Hid|constructor]].
Qed.

(** The workers of the two runs send the same values, up to the order
    of the maps in them. *)
Lemma same_service_answers s1 s2 groups :
  same_service s1 s2 -> Forall2 same_response (answers s1 groups) (answers s2 groups).
Proof.
  intros Hs. unfold answers.
  pose proof (bucket_same s1 s2 groups ∅ ∅ ∅ Hs) as Hb.
  destruct (bucket s1 groups ∅ ∅) as [[bs1 gs1]|e1],
           (bucket s2 groups ∅ ∅) as [[bs2 gs2]|e2].
  - destruct Hb as [<- Hbs]; [intros id; now rewrite !lookup_empty|].
    cbn [start inflight].
    induction (requests_same bs1 bs2 gs1 Hbs) as [|[b1 g1] [b2 g2] l1 l2 [Hb Hg] _ IH];
      simpl in *; constructor; [|exact IH].
    subst g2. now apply worker_same.
  - exfalso. apply Hb. intros id. now rewrite !lookup_empty.
  - exfalso. apply Hb. intros id. now rewrite !lookup_empty.
  - constructor.
Qed.

Lemma same_description_ids l1 l2 :
  Forall2 same_description l1 l2 -> map GroupID l1 = map GroupID l2.
Proof.
  induction 1 as [|g1 g2 l1 l2 [Hid _] _ IH]; simpl; [reflexivity|].
  now rewrite Hid, IH.
Qed.

(** Sorting two lists of descriptions with distinct ids, related entry
    by entry, gives two lists related entry by entry. *)
Lemma sorted_same_description (a b a' b' : list GroupDescription) :
  Forall2 same_description a b -> NoDup (map GroupID a) ->
  a' ≡ₚ a -> b' ≡ₚ b ->
  StronglySorted GroupID_le a' -> StronglySorted GroupID_le b' ->
  Forall2 same_description a' b'.
Proof.
  intros Hab Hnd Ha Hb Hsa Hsb.
  pose proof (same_description_ids _ _ Hab) as Hk.
  assert (map GroupID a' = map GroupID b') as Hk'.
  { apply (StronglySorted_unique_strong string_le).
    - intros x y _ _. apply string_le_antisym.
    - now apply StronglySorted_GroupID.
    - now apply StronglySorted_GroupID.
    - now rewrite Ha, Hb, Hk. }
  apply Forall2_same_length_lookup_2.
  - rewrite <- (length_map GroupID a'), Hk'. apply length_map.
  - intros i x y Hx Hy.
    assert (GroupID x = GroupID y) as Hxy.
    { pose proof (list_lookup_fmap GroupID a' i) as E1.
      pose proof (list_lookup_fmap GroupID b' i) as E2.
      rewrite Hx in E1. rewrite Hy in E2. simpl in *.
      change (GroupID <$> a') with (map GroupID a') in E1.
      change (GroupID <$> b') with (map GroupID b') in E2.
      rewrite Hk' in E1. congruence. }
    assert (x ∈ a) as Hxa by (rewrite <- Ha; eapply list_elem_of_lookup_2, Hx).
    assert (y ∈ b) as Hyb by (rewrite <- Hb; eapply list_elem_of_lookup_2, Hy).
    apply list_elem_of_lookup in Hxa as [j Hj].
    destruct (Forall2_lookup_l _ _ _ _ _ Hab Hj) as (y0 & Hy0 & Hrel).
    assert (y0 = y) as <-; [|exact Hrel].
    apply (NoDup_map_inj_on GroupID b); auto.
    + now rewrite <- Hk.
    + eapply list_elem_of_lookup_2, Hy0.
    + destruct Hrel as [Hid _]. congruence.
Qed.

(** C1, as the code has it.  Determinism up to the order of the range
    loops: two successful calls for the same request, which names every
    group once, to the same brokers, which answer what they are asked,
    return the same groups in the same order, ascending by [GroupID],
    whatever the order in which the workers complete and the [select]
    arms are taken; the descriptions of a group agree in every field
    and hold the same members with the same assignments, and differ at
    most in the order of the members, which is the order in which the
    range loop visits the member map. *)
Theorem DescribeConsumerGroups_up_to_range_order
    s1 s2 groups sched1 sched2 lg1 lg2 out1 out2 :
  NoDup groups ->
  brokers_answer_requests s1 groups ->
  same_service s1 s2 ->
  DescribeConsumerGroups s1 groups sched1 = Some (lg1, Done (Ok out1)) ->
  DescribeConsumerGroups s2 groups sched2 = Some (lg2, Done (Ok out2)) ->
  Forall2 same_description out1 out2 /\
  map GroupID out1 = map GroupID out2 /\
  StronglySorted GroupID_le out1 /\ StronglySorted GroupID_le out2.
Proof.
  intros Hnd Hfaith Hs H1 H2.
  pose proof (DescribeConsumerGroups_Ok_bucket _ _ _ _ _ H1) as Hb1.
  apply DescribeConsumerGroups_Ok in H1 as (c1 & ds1 & HW1 & Hds1 & ->).
  apply DescribeConsumerGroups_Ok in H2 as (c2 & ds2 & HW2 & Hds2 & ->).
  destruct (collect_Permutation _ _ _ HW1 Hds1) as (a & Ha & Hpa).
  destruct (collect_Permutation _ _ _ HW2 Hds2) as (b & Hb & Hpb).
  assert (Forall2 same_description (sort_slice less_GroupID ds1)
                                   (sort_slice less_GroupID ds2)) as Hout.
  { apply (sorted_same_description a b).
    - exact (collect_same _ _ _ _ (same_service_answers s1 s2 groups Hs) Ha Hb).
    - rewrite (collect_answers_ids s1 groups _ _ Hb1 Hfaith (reflexivity _) Ha).
      exact Hnd.
    - now rewrite (sort_slice_Permutation _ less_GroupID).
    - now rewrite (sort_slice_Permutation _ less_GroupID).
    - apply sort_slice_GroupID_le.
    - apply sort_slice_GroupID_le. }
  split; [exact Hout|split; [exact (same_description_ids _ _ Hout)|]].
  split; apply sort_slice_GroupID_le.
Qed.

End DescribeConsumerGroups.

(** * The model at work

    The statements above hold for every sorting function that meets
    the contract of [sort.Slice].  Below they are applied with
    [merge_sort_slice] to concrete brokers, and the runs on which the
    code departs from its specification are evaluated. *)

Lemma echo_broker_answers_requests id : answers_requests (echo_broker id).
Proof.
  intros grps r [= <-]. rewrite map_map. simpl. apply map_id.
Qed.

Lemma one_broker_answers_requests groups : brokers_answer_requests one_broker groups.
Proof.
  intros group b _ [= <-]. apply echo_broker_answers_requests.
Qed.

Lemma two_brokers_answer_requests groups : brokers_answer_requests two_brokers groups.
Proof.
  intros group b _. simpl.
  destruct (String.eqb group "group-a"); intros [= <-]; apply echo_broker_answers_requests.
Qed.

Lemma NoDup_group_b_group_a : NoDup ["group-b"; "group-a"].
Proof.
  repeat constructor; rewrite ?elem_of_cons, ?elem_of_nil; intuition discriminate.
Qed.

(** Two brokers, two orders of arrival, one range order, one output. *)
Lemma DescribeConsumerGroups_deterministic_two_brokers :
  DescribeConsumerGroups merge_sort_slice two_brokers ["group-b"; "group-a"]
      [WorkerSend 0; WorkerSend 0; Select_recv; Select_recv; Close; Select_closed]
    = Some ([], Done (Ok [echo_description "group-a"; echo_description "group-b"])) /\
  DescribeConsumerGroups merge_sort_slice two_brokers ["group-b"; "group-a"]
      [WorkerSend 1; Select_recv; WorkerSend 0; Select_recv; Close; Select_closed]
    = Some ([], Done (Ok [echo_description "group-a"; echo_description "group-b"])) /\
  StronglySorted GroupID_le [echo_description "group-a"; echo_description "group-b"].
Proof.
  assert (DescribeConsumerGroups merge_sort_slice two_brokers ["group-b"; "group-a"]
            [WorkerSend 0; WorkerSend 0; Select_recv; Select_recv; Close; Select_closed]
          = Some ([], Done (Ok [echo_description "group-a"; echo_description "group-b"])))
    as H1 by (vm_compute; reflexivity).
  assert (DescribeConsumerGroups merge_sort_slice two_brokers ["group-b"; "group-a"]
            [WorkerSend 1; Select_recv; WorkerSend 0; Select_recv; Close; Select_closed]
          = Some ([], Done (Ok [echo_description "group-a"; echo_description "group-b"])))
    as H2 by (vm_compute; reflexivity).
  split; [exact H1|split; [exact H2|]].
  exact (proj2 (DescribeConsumerGroups_deterministic merge_sort_slice
                  merge_sort_slice_Permutation merge_sort_slice_Sorted
                  two_brokers ["group-b"; "group-a"] _ _ _ _ _ _
                  NoDup_group_b_group_a (two_brokers_answer_requests _) H1 H2)).
Defined.

(** The example scenario with a concrete broker 1. *)
Lemma example_scenario_witness :
  DescribeConsumerGroups merge_sort_slice scenario ["group-a"; "group-b"]
      [WorkerSend 0; Select_recv; Close; Select_closed]
    = Some ([], Done (Ok (example_output "range" "" "client-4" "/10.0.0.4"))).
Proof.
  exact (proj1 (example_scenario merge_sort_slice
                  merge_sort_slice_Permutation merge_sort_slice_Sorted
                  scenario scenario_broker scenario_member "range" ""
                  eq_refl eq_refl eq_refl eq_refl eq_refl)).
Defined.

(** The payload of [truncated_member] does not decode, and the member
    is emitted with the topic that the decoder had read, not with an
    empty assignment list. *)
Lemma decode_failure_keeps_decoded_topics :
  (sarama.GetMemberAssignment truncated_member).2 = Some truncated_error /\
  convertGroupMembers merge_sort_slice [("m1", truncated_member)] "consumer"
    = ([decode_warning truncated_member truncated_error],
       Done (Ok [ mkGroupMemberDescription "m1" "client-1" "/10.0.0.1"
                    [ mkGroupMemberAssignment "topic-x" [1] ] ])) /\
  [ mkGroupMemberAssignment "topic-x" [1] ] <> [].
Proof.
  split; [reflexivity|split; [vm_compute; reflexivity|discriminate]].
Qed.

Lemma decode_failure_not_fatal_truncated :
  exists lg out d,
    convertGroupMembers merge_sort_slice [("m1", truncated_member)] "consumer"
      = (lg, Done (Ok out)) /\
    decode_warning truncated_member truncated_error ∈ lg /\
    out !! 0%nat = Some d /\ ID d = "m1" /\
    Assignments d
      = merge_sort_slice _ less_TopicName
          (map (assignment_of merge_sort_slice) [("topic-x", [1])]) /\
    ([("topic-x", [1])] = [] -> Assignments d = []).
Proof.
  apply (decode_failure_not_fatal merge_sort_slice merge_sort_slice_Permutation
           [("m1", truncated_member)] 0 "m1" truncated_member
           (sarama.mkAssignment [("topic-x", [1])]) truncated_error).
  - intros id' m' Hin. apply list_elem_of_singleton in Hin.
    injection Hin as -> ->. discriminate.
  - reflexivity.
  - reflexivity.
Defined.

(** C4 as stated fails: a group that is requested twice is described
    twice, by a broker that answers what it is asked. *)
Lemma duplicates_are_described_twice :
  brokers_answer_requests one_broker ["group-a"; "group-a"] /\
  DescribeConsumerGroups merge_sort_slice one_broker ["group-a"; "group-a"]
      [WorkerSend 0; Select_recv; Close; Select_closed]
    = Some ([], Done (Ok [echo_description "group-a"; echo_description "group-a"])) /\
  ~ NoDup (map GroupID [echo_description "group-a"; echo_description "group-a"]).
Proof.
  split; [apply one_broker_answers_requests|split; [vm_compute; reflexivity|]].
  simpl. intros H. apply NoDup_cons in H as [H _]. apply H. left.
Qed.

Lemma DescribeConsumerGroups_one_per_entry_witness :
  map GroupID [echo_description "group-a"; echo_description "group-a"]
    ≡ₚ ["group-a"; "group-a"] /\
  (forall g, g ∈ [echo_description "group-a"; echo_description "group-a"] ->
     GroupID g ∈ ["group-a"; "group-a"]) /\
  (NoDup ["group-a"; "group-a"] ->
   NoDup (map GroupID [echo_description "group-a"; echo_description "group-a"])).
Proof.
  apply (DescribeConsumerGroups_one_per_entry merge_sort_slice
           merge_sort_slice_Permutation one_broker ["group-a"; "group-a"]
           [WorkerSend 0; Select_recv; Close; Select_closed] []).
  - apply one_broker_answers_requests.
  - vm_compute. reflexivity.
Defined.

(** C5 as stated fails: the context is cancelled before the channel is
    closed, the [select] takes the channel both times, and the call
    returns its output. *)
Lemma cancellation_can_lose_the_race :
  DescribeConsumerGroups merge_sort_slice one_broker ["group-a"]
      [Cancel; WorkerSend 0; Select_recv; Close; Select_closed]
    = Some ([], Done (Ok [echo_description "group-a"])).
Proof. vm_compute. reflexivity. Qed.

Lemma cancellation_when_selected_witness :
  DescribeConsumerGroups merge_sort_slice one_broker ["group-a"]
      ([WorkerSend 0; Select_recv; Cancel] ++ [Select_ctxDone])
    = Some ([] ++ [cancelled_entry], Done (Fail cancelled_error)) /\
  step merge_sort_slice
       (mkState [] [] false true [echo_description "group-a"] [] None) Select_recv = None /\
  step merge_sort_slice
       (mkState [] [] false true [echo_description "group-a"] [] None) Select_closed = None.
Proof.
  destruct (cancellation_when_selected merge_sort_slice one_broker ["group-a"]
              {[1 := echo_broker 1]} {[1 := ["group-a"]]}
              [WorkerSend 0; Select_recv; Cancel]
              (mkState [] [] false true [echo_description "group-a"] [] None))
    as [H1 H2].
  - vm_compute. reflexivity.
  - vm_compute. reflexivity.
  - reflexivity.
  - reflexivity.
  - split; [exact H1|apply H2; reflexivity].
Defined.

Lemma group_error_fails_call_witness :
  (forall st rest, returned st = None ->
     resCh st = mkResponse None
                  [echo_group "group-a"; sarama.mkGroup 15 "group-b" "" "" "" []] 1 :: rest ->
     exists st', step merge_sort_slice st Select_recv = Some st' /\
       returned st' = Some (Done (Fail (KError 15)))) /\
  (forall sched lg r,
     DescribeConsumerGroups merge_sort_slice group_error_service ["group-a"; "group-b"] sched
       = Some (lg, r) ->
     forall out, r <> Done (Ok out)) /\
  (exists sched lg,
     DescribeConsumerGroups merge_sort_slice group_error_service ["group-a"; "group-b"] sched
       = Some (lg, Done (Fail (KError 15)))).
Proof.
  apply (group_error_fails_call merge_sort_slice merge_sort_slice_Permutation
           group_error_service ["group-a"; "group-b"]
           (mkResponse None
              [echo_group "group-a"; sarama.mkGroup 15 "group-b" "" "" "" []] 1)
           [echo_group "group-a"] (sarama.mkGroup 15 "group-b" "" "" "" []) []).
  - apply list_elem_of_In. vm_compute. left. reflexivity.
  - reflexivity.
  - reflexivity.
  - constructor; [|constructor]. split; [reflexivity|].
    intros _ id m Hin. inversion Hin.
  - discriminate.
Defined.


Lemma assignments_ordered_witness :
  StronglySorted TopicName_le
    [ mkGroupMemberAssignment "topic-x" [0; 1; 2];
      mkGroupMemberAssignment "topic-y" [1; 3] ] /\
  (forall a, a ∈ [ mkGroupMemberAssignment "topic-x" [0; 1; 2];
                   mkGroupMemberAssignment "topic-y" [1; 3] ] ->
     StronglySorted Z.le (PartitionIDs a)).
Proof.
  set (m := mkGroupMemberDescription "m1" "client-3" "/10.0.0.3"
              [ mkGroupMemberAssignment "topic-x" [0; 1; 2];
                mkGroupMemberAssignment "topic-y" [1; 3] ]).
  set (g := mkGroupDescription "group-a" "Stable" "consumer" "range" [m]).
  assert (DescribeConsumerGroups merge_sort_slice (member_service healthy_member)
            ["group-a"] [WorkerSend 0; Select_recv; Close; Select_closed]
          = Some ([], Done (Ok [g]))) as H by (vm_compute; reflexivity).
  assert (g ∈ [g]) as Hg by left.
  assert (m ∈ Members g) as Hm by left.
  destruct (assignments_ordered merge_sort_slice
              merge_sort_slice_Permutation merge_sort_slice_Sorted
              _ _ _ _ _ g m H Hg Hm) as (H1 & H2 & _).
  split; [exact H1|exact H2].
Defined.

Lemma one_request_per_coordinator_two_brokers :
  length (requests (<[2 := echo_broker 2]> {[1 := echo_broker 1]})
                   (<[2 := ["group-b"; "group-c"]]> {[1 := ["group-a"]]}))
    = length (remove_dups
                (coordinator_ids two_brokers ["group-b"; "group-a"; "group-c"])) /\
  length (remove_dups (coordinator_ids two_brokers ["group-b"; "group-a"; "group-c"]))
    = 2%nat.
Proof.
  split; [|vm_compute; reflexivity].
  apply (one_request_per_coordinator two_brokers ["group-b"; "group-a"; "group-c"]).
  vm_compute. reflexivity.
Defined.

Lemma decode_error_value_is_read_witness :
  convertGroupMember merge_sort_slice "m1" truncated_member "consumer"
    = ([decode_warning truncated_member truncated_error],
       Done (mkGroupMemberDescription "m1" "client-1" "/10.0.0.1"
               (merge_sort_slice _ less_TopicName
                  (map (assignment_of merge_sort_slice) [("topic-x", [1])])))) /\
  (exists lg,
     convertGroupMembers merge_sort_slice
       [("m1", truncated_member); ("m2", nil_member)] "consumer" = (lg, Panicked)).
Proof.
  destruct (decode_error_value_is_read merge_sort_slice
              merge_sort_slice_Permutation merge_sort_slice_Sorted)
    as (Hread & _ & Hnil & _).
  split.
  - apply (Hread "m1" truncated_member (sarama.mkAssignment [("topic-x", [1])])
             truncated_error). reflexivity.
  - apply (Hnil _ "m2" nil_member truncated_error); [|reflexivity].
    right. left.
Defined.

(** ** The further properties at work *)

Lemma convertGroupMembers_other_protocol_witness :
  convertGroupMembers merge_sort_slice [("sr-1", nil_member); ("sr-2", healthy_member)] "sr"
    = ([], Done (Ok [ mkGroupMemberDescription "sr-1" "client-2" "/10.0.0.2" [];
                      mkGroupMemberDescription "sr-2" "client-3" "/10.0.0.3" [] ])).
Proof.
  apply (convertGroupMembers_other_protocol merge_sort_slice merge_sort_slice_Permutation
           [("sr-1", nil_member); ("sr-2", healthy_member)] "sr").
  discriminate.
Defined.

Lemma two_members_converted :
  convertGroupMembers merge_sort_slice two_members "consumer"
    = ([decode_warning truncated_member truncated_error], Done (Ok two_members_out)).
Proof. vm_compute. reflexivity. Qed.

Lemma convertGroupMembers_members_witness :
  exists out, Ok two_members_out = Ok out /\
    length out = length two_members /\
    map ID out = map fst two_members /\
    map ClientID out = map (fun idm => sarama.ClientId idm.2) two_members /\
    map ClientHost out = map (fun idm => sarama.ClientHost idm.2) two_members /\
    (NoDup (map fst two_members) -> NoDup (map ID out)).
Proof.
  exact (convertGroupMembers_members merge_sort_slice merge_sort_slice_Permutation
           two_members "consumer" _ _ two_members_converted).
Defined.

Lemma convertGroupMembers_log_witness :
  (convertGroupMembers merge_sort_slice
     [("m1", truncated_member); ("m2", nil_member); ("m3", truncated_member)]
     "consumer").1
    = [decode_warning truncated_member truncated_error;
       decode_warning nil_member truncated_error] /\
  [decode_warning truncated_member truncated_error] = omap decode_warning_of two_members.
Proof.
  destruct (convertGroupMembers_log merge_sort_slice merge_sort_slice_Permutation
              [("m1", truncated_member); ("m2", nil_member); ("m3", truncated_member)])
    as (H1 & _ & _).
  destruct (convertGroupMembers_log merge_sort_slice merge_sort_slice_Permutation
              two_members) as (_ & _ & H2).
  split; [exact H1|exact (H2 _ _ two_members_converted)].
Defined.

Lemma convertGroupMember_topic_order_witness :
  convertGroupMember merge_sort_slice "m2"
      (sarama.mkMember "client-3" "/10.0.0.3"
         (Some (sarama.mkAssignment [("topic-y", [3; 1]); ("topic-x", [2; 0; 1])]), None))
      "consumer"
    = convertGroupMember merge_sort_slice "m2"
        (sarama.mkMember "client-3" "/10.0.0.3"
           (Some (sarama.mkAssignment [("topic-x", [2; 0; 1]); ("topic-y", [3; 1])]), None))
        "consumer".
Proof.
  apply (convertGroupMember_topic_order merge_sort_slice
           merge_sort_slice_Permutation merge_sort_slice_Sorted
           "m2" "client-3" "/10.0.0.3"
           [("topic-y", [3; 1]); ("topic-x", [2; 0; 1])]
           [("topic-x", [2; 0; 1]); ("topic-y", [3; 1])] None).
  - simpl. repeat constructor; rewrite ?elem_of_cons, ?elem_of_nil; intuition discriminate.
  - apply perm_swap.
Defined.

Lemma convertGroupMembers_range_order_witness :
  exists lg' out',
    convertGroupMembers merge_sort_slice
      [("m2", healthy_member); ("m1", truncated_member)] "consumer"
      = (lg', Done (Ok out')) /\
    two_members_out ≡ₚ out' /\
    [decode_warning truncated_member truncated_error] ≡ₚ lg'.
Proof.
  apply (convertGroupMembers_range_order merge_sort_slice merge_sort_slice_Permutation
           two_members [("m2", healthy_member); ("m1", truncated_member)] "consumer").
  - apply perm_swap.
  - exact two_members_converted.
Defined.

Lemma convertSaramaGroupDescriptions_stops_witness :
  convertSaramaGroupDescriptions merge_sort_slice
      ([echo_group "group-a"] ++ error_group
         :: [sarama.mkGroup sarama.ErrNoError "group-c" "Stable" "consumer" ""
               [("m", nil_member)]])
    = convertSaramaGroupDescriptions merge_sort_slice
        ([echo_group "group-a"] ++ error_group :: []).
Proof.
  apply (convertSaramaGroupDescriptions_stops merge_sort_slice merge_sort_slice_Permutation
           [echo_group "group-a"] error_group).
  discriminate.
Defined.

Lemma convertSaramaGroupDescriptions_fields_witness :
  map GroupID [echo_description "group-b"; echo_description "group-a"]
    = map sarama.GroupId [echo_group "group-b"; echo_group "group-a"] /\
  map State [echo_description "group-b"; echo_description "group-a"]
    = map sarama.State [echo_group "group-b"; echo_group "group-a"].
Proof.
  assert (convertSaramaGroupDescriptions merge_sort_slice
            [echo_group "group-b"; echo_group "group-a"]
          = ([], Done (Ok [echo_description "group-b"; echo_description "group-a"])))
    as H by (vm_compute; reflexivity).
  destruct (convertSaramaGroupDescriptions_fields merge_sort_slice
              merge_sort_slice_Permutation _ _ _ H) as (_ & H1 & H2 & _).
  split; [exact H1|exact H2].
Defined.

Lemma convertSaramaGroupDescriptions_error_witness :
  exists pre rg post,
    [echo_group "group-a"; error_group; echo_group "group-c"] = pre ++ rg :: post /\
    Forall (fun g => sarama.Err g = sarama.ErrNoError) pre /\
    sarama.Err rg <> sarama.ErrNoError /\
    KError 15 = KError (sarama.Err rg).
Proof.
  apply (convertSaramaGroupDescriptions_error merge_sort_slice
           [echo_group "group-a"; error_group; echo_group "group-c"] []).
  vm_compute. reflexivity.
Defined.

Lemma resCh_within_capacity_witness :
  exists st,
    run merge_sort_slice (start two_brokers_brokersByID two_brokers_groupsByBrokerID)
        [WorkerSend 1; Select_recv; WorkerSend 0] = Some st /\
    (length (inflight st) + length (resCh st) <= size two_brokers_groupsByBrokerID)%nat /\
    (closed st = true -> inflight st = []).
Proof.
  destruct (run merge_sort_slice
              (start two_brokers_brokersByID two_brokers_groupsByBrokerID)
              [WorkerSend 1; Select_recv; WorkerSend 0]) as [st|] eqn:Hrun;
    [|vm_compute in Hrun; discriminate].
  exists st. split; [reflexivity|].
  apply (resCh_within_capacity merge_sort_slice two_brokers ["group-b"; "group-a"]
           two_brokers_brokersByID two_brokers_groupsByBrokerID
           [WorkerSend 1; Select_recv; WorkerSend 0] st).
  - vm_compute. reflexivity.
  - exact Hrun.
Defined.

Lemma two_brokers_described :
  DescribeConsumerGroups merge_sort_slice two_brokers ["group-b"; "group-a"]
      [WorkerSend 0; WorkerSend 0; Select_recv; Select_recv; Close; Select_closed]
    = Some ([], Done (Ok [echo_description "group-a"; echo_description "group-b"])).
Proof. vm_compute. reflexivity. Qed.

Lemma DescribeConsumerGroups_describes_answers_witness :
  map GroupID [echo_description "group-a"; echo_description "group-b"]
    ≡ₚ concat (map (fun d => map sarama.GroupId (Groups d))
                   (answers two_brokers ["group-b"; "group-a"])) /\
  Forall (fun d => Err d = None /\
                   Forall (fun rg => sarama.Err rg = sarama.ErrNoError) (Groups d))
         (answers two_brokers ["group-b"; "group-a"]).
Proof.
  exact (DescribeConsumerGroups_describes_answers merge_sort_slice
           merge_sort_slice_Permutation two_brokers ["group-b"; "group-a"] _ _ _
           two_brokers_described).
Defined.

Lemma DescribeConsumerGroups_succeeds_witness :
  (exists sched lg out,
     (Cancel ∉ sched) /\
     DescribeConsumerGroups merge_sort_slice two_brokers ["group-b"; "group-a"] sched
       = Some (lg, Done (Ok out))) /\
  (forall sched lg r,
     Cancel ∉ sched ->
     DescribeConsumerGroups merge_sort_slice two_brokers ["group-b"; "group-a"] sched
       = Some (lg, r) ->
     exists out, r = Done (Ok out)).
Proof.
  apply (DescribeConsumerGroups_succeeds merge_sort_slice merge_sort_slice_Permutation
           two_brokers ["group-b"; "group-a"]).
  - repeat constructor; eexists; reflexivity.
  - assert (answers two_brokers ["group-b"; "group-a"]
            = [mkResponse None [echo_group "group-b"] 2;
               mkResponse None [echo_group "group-a"] 1]) as -> by (vm_compute; reflexivity).
    repeat constructor; intros _ id m Hin; inversion Hin.
Defined.

Lemma DescribeConsumerGroups_empty_witness :
  DescribeConsumerGroups merge_sort_slice failing_service [] [Close; Select_closed]
    = Some ([], Done (Ok [])).
Proof.
  exact (proj1 (DescribeConsumerGroups_empty merge_sort_slice merge_sort_slice_Permutation
                  failing_service)).
Defined.

Lemma DescribeConsumerGroups_log_witness :
  exists l,
    [decode_warning truncated_member truncated_error; cancelled_entry]
      = l ++ [cancelled_entry] /\
    Forall is_warning l.
Proof.
  destruct (DescribeConsumerGroups_log merge_sort_slice merge_sort_slice_Permutation
              (member_service truncated_member) ["group-a"]
              {[1 := member_broker truncated_member]} {[1 := ["group-a"]]}
              [WorkerSend 0; Select_recv; Cancel; Select_ctxDone]
              [decode_warning truncated_member truncated_error; cancelled_entry]
              (Done (Fail cancelled_error)))
    as [[Hne _]|[_ H]].
  - vm_compute. reflexivity.
  - vm_compute. reflexivity.
  - now destruct Hne.
  - exact H.
Defined.

Lemma DescribeConsumerGroups_request_order_witness :
  map GroupID [echo_description "group-a"; echo_description "group-b"]
    = map GroupID [echo_description "group-a"; echo_description "group-b"] /\
  StronglySorted string_le
    (map GroupID [echo_description "group-a"; echo_description "group-b"]).
Proof.
  assert (DescribeConsumerGroups merge_sort_slice two_brokers ["group-a"; "group-b"]
            [WorkerSend 1; Select_recv; WorkerSend 0; Select_recv; Close; Select_closed]
          = Some ([], Done (Ok [echo_description "group-a"; echo_description "group-b"])))
    as H' by (vm_compute; reflexivity).
  exact (DescribeConsumerGroups_request_order merge_sort_slice
           merge_sort_slice_Permutation merge_sort_slice_Sorted
           two_brokers ["group-b"; "group-a"] ["group-a"; "group-b"] _ _ _ _ _ _
           (perm_swap _ _ _) (two_brokers_answer_requests _) two_brokers_described H').
Defined.

Lemma convertGroupMembers_panics_iff_witness :
  (exists lg,
     convertGroupMembers merge_sort_slice
       [("m1", healthy_member);
        ("m2", sarama.mkMember "client-5" "/10.0.0.5" (None, None))] "consumer"
     = (lg, Panicked)).
Proof.
  apply (proj2 (convertGroupMembers_panics_iff merge_sort_slice
                  merge_sort_slice_Permutation
                  [("m1", healthy_member);
                   ("m2", sarama.mkMember "client-5" "/10.0.0.5" (None, None))])).
  exists "m2", (sarama.mkMember "client-5" "/10.0.0.5" (None, None)).
  split; [right; left|reflexivity].
Defined.

Lemma DescribeConsumerGroups_panics_only_on_nil_witness :
  exists d rg id m,
    d ∈ answers (member_service nil_member) ["group-a"] /\ Err d = None /\
    rg ∈ Groups d /\ sarama.ProtocolType rg = "consumer" /\
    (id, m) ∈ sarama.Members rg /\ (sarama.GetMemberAssignment m).1 = None.
Proof.
  apply (DescribeConsumerGroups_panics_only_on_nil merge_sort_slice
           merge_sort_slice_Permutation (member_service nil_member) ["group-a"] [WorkerSend 0; Select_recv]
           [decode_warning nil_member truncated_error]).
  vm_compute. reflexivity.
Defined.

Lemma DescribeConsumerGroups_errors_witness :
  (exists group, group ∈ ["group-a"; "group-b"] /\
     sarama.Coordinator (Client failing_service) group
       = Fail (broker_failed 2 unreachable)) \/
  broker_failed 2 unreachable = cancelled_error \/
  (exists d e, d ∈ answers failing_service ["group-a"; "group-b"] /\ Err d = Some e /\
     broker_failed 2 unreachable = broker_failed (BrokerID d) e) \/
  (exists d rg, d ∈ answers failing_service ["group-a"; "group-b"] /\ Err d = None /\
     rg ∈ Groups d /\ sarama.Err rg <> sarama.ErrNoError /\
     broker_failed 2 unreachable = KError (sarama.Err rg)).
Proof.
  apply (DescribeConsumerGroups_errors merge_sort_slice failing_service
           ["group-a"; "group-b"] [WorkerSend 0; Select_recv] []).
  vm_compute. reflexivity.
Defined.

(** ** The revised claims at work *)


(** C6 as stated fails: the batch holds a group with error code 15
    after a group with a member whose empty payload decodes to a nil
    pointer; the call panics when it receives the batch, and no run
    returns the error of the group. *)
Lemma group_error_after_nil_panics :
  DescribeConsumerGroups merge_sort_slice nil_before_error_service
      ["group-a"; "group-b"] [WorkerSend 0; Select_recv]
    = Some ([], Panicked) /\
  (forall sched lg,
     DescribeConsumerGroups merge_sort_slice nil_before_error_service
         ["group-a"; "group-b"] sched
       <> Some (lg, Done (Fail (KError 15)))).
Proof.
  split; [vm_compute; reflexivity|].
  intros sched lg H.
  assert (bucket nil_before_error_service ["group-a"; "group-b"] ∅ ∅
          = Ok ({[1 := nil_before_error_broker]}, {[1 := ["group-a"; "group-b"]]}))
    as Hb by (vm_compute; reflexivity).
  destruct (DescribeConsumerGroups_run merge_sort_slice _ _ _ _ _ _ _ Hb H)
    as (st & _ & Hret & _ & (consumed & _ & _ & Hr)).
  rewrite Hret in Hr.
  assert (forall d, d ∈ answers nil_before_error_service ["group-a"; "group-b"] ->
            Err d = None /\
            convertSaramaGroupDescriptions merge_sort_slice (Groups d) = ([], Panicked))
    as Hd.
  { intros d Hin. apply list_elem_of_In in Hin. vm_compute in Hin.
    destruct Hin as [<-|[]]. split; vm_compute; reflexivity. }
  destruct Hr as [[Hc _]|[(d & e & Hin & He & _)|(d & l & Hin & _ & Hc)]].
  - discriminate.
  - destruct (Hd d Hin) as [Hnone _]. congruence.
  - destruct (Hd d Hin) as [_ Hp]. congruence.
Qed.

(** The payload of [truncated_member] does not decode; the call
    returns the member all the same, and has logged the warning. *)
Lemma decode_failure_does_not_fail_call_witness :
  exists sched lg out,
    (Cancel ∉ sched) /\
    DescribeConsumerGroups merge_sort_slice (member_service truncated_member)
        ["group-a"] sched
      = Some (lg, Done (Ok out)) /\
    decode_warning truncated_member truncated_error ∈ lg /\
    exists g md,
      g ∈ out /\ GroupID g = "group-a" /\ Members g !! 0%nat = Some md /\
      ID md = "m1" /\
      Assignments md
        = merge_sort_slice _ less_TopicName
            (map (assignment_of merge_sort_slice) [("topic-x", [1])]).
Proof.
  assert (answers (member_service truncated_member) ["group-a"]
          = [mkResponse None
               [sarama.mkGroup sarama.ErrNoError "group-a" "Stable" "consumer" "range"
                  [("m1", truncated_member)]] 1]) as Hans by (vm_compute; reflexivity).
  destruct (decode_failure_does_not_fail_call merge_sort_slice merge_sort_slice_Permutation
              (member_service truncated_member) ["group-a"]
              (mkResponse None
                 [sarama.mkGroup sarama.ErrNoError "group-a" "Stable" "consumer" "range"
                    [("m1", truncated_member)]] 1)
              (sarama.mkGroup sarama.ErrNoError "group-a" "Stable" "consumer" "range"
                 [("m1", truncated_member)])
              0 "m1" truncated_member
              (sarama.mkAssignment [("topic-x", [1])]) truncated_error)
    as [Hmember Hreturns].
  - rewrite Hans. left.
  - left.
  - reflexivity.
  - reflexivity.
  - reflexivity.
  - destruct Hreturns as [(sched & lg & out & Hno & Hrun) _].
    + repeat constructor; eexists; reflexivity.
    + rewrite Hans. constructor; [|constructor]. split; [reflexivity|].
      constructor; [|constructor]. split; [reflexivity|].
      intros _ id m Hin. apply list_elem_of_singleton in Hin.
      injection Hin as -> ->. discriminate.
    + exists sched, lg, out. split; [exact Hno|split; [exact Hrun|]].
      destruct (Hmember sched lg out Hrun)
        as (Hlg & g & md & Hg & Hid & Hmd & Hm & _ & _ & Hasg & _).
      split; [exact Hlg|]. exists g, md. repeat split; assumption.
Defined.

(** C3 as stated fails.  The payload of [truncated_member] does not
    decode, and the call returns the member with the topic that the
    decoder had read, not with an empty assignment list.  The payload
    of [nil_member] does not decode either, and the decoder returns a
    nil pointer with the error: the call logs the warning and panics,
    and no run of it returns descriptions.  And a call whose context
    is cancelled fails, whatever the payloads. *)
Lemma decode_failure_keeps_topics_or_panics :
  ((sarama.GetMemberAssignment truncated_member).2 = Some truncated_error /\
   DescribeConsumerGroups merge_sort_slice (member_service truncated_member)
       ["group-a"] [WorkerSend 0; Select_recv; Close; Select_closed]
     = Some ([decode_warning truncated_member truncated_error],
             Done (Ok [ mkGroupDescription "group-a" "Stable" "consumer" "range"
                          [ mkGroupMemberDescription "m1" "client-1" "/10.0.0.1"
                              [ mkGroupMemberAssignment "topic-x" [1] ] ] ])) /\
   [ mkGroupMemberAssignment "topic-x" [1] ] <> []) /\
  ((sarama.GetMemberAssignment nil_member).2 = Some truncated_error /\
   DescribeConsumerGroups merge_sort_slice (member_service nil_member)
       ["group-a"] [WorkerSend 0; Select_recv]
     = Some ([decode_warning nil_member truncated_error], Panicked) /\
   (forall sched lg out,
      DescribeConsumerGroups merge_sort_slice (member_service nil_member)
          ["group-a"] sched
        <> Some (lg, Done (Ok out)))) /\
  DescribeConsumerGroups merge_sort_slice (member_service truncated_member)
      ["group-a"] [Cancel; Select_ctxDone]
    = Some ([cancelled_entry], Done (Fail cancelled_error)).
Proof.
  split; [|split].
  - split; [reflexivity|split; [vm_compute; reflexivity|discriminate]].
  - split; [reflexivity|split; [vm_compute; reflexivity|]].
    intros sched lg out H.
    apply DescribeConsumerGroups_Ok in H as (consumed & ds & HW & Hds & _).
    assert (answers (member_service nil_member) ["group-a"]
            = [mkResponse None
                 [sarama.mkGroup sarama.ErrNoError "group-a" "Stable" "consumer" "range"
                    [("m1", nil_member)]] 1]) as Hans by (vm_compute; reflexivity).
    rewrite Hans in HW.
    assert (mkResponse None
              [sarama.mkGroup sarama.ErrNoError "group-a" "Stable" "consumer" "range"
                 [("m1", nil_member)]] 1 ∈ consumed) as Hin by (rewrite HW; left).
    destruct (collect_converted _ _ _ _ Hds Hin) as (l & Hl & _).
    vm_compute in Hl. discriminate.
  - vm_compute. reflexivity.
Qed.

(** ** Two range orders *)

Lemma NoDup_topic_y_topic_x : NoDup ["topic-y"; "topic-x"].
Proof.
  repeat constructor; rewrite ?elem_of_cons, ?elem_of_nil; intuition discriminate.
Qed.

Lemma same_member_healthy_member : same_member healthy_member healthy_member.
Proof.
  repeat split; [reflexivity|]. exact NoDup_topic_y_topic_x.
Qed.

Lemma same_member_scenario_member : same_member scenario_member scenario_member.
Proof.
  repeat split; [reflexivity|].
  repeat constructor; rewrite ?elem_of_nil; intuition.
Qed.

(** The same broker, whose member maps two runs visit in two orders. *)
Lemma members_service_same :
  same_service (members_service members_m1_m2) (members_service members_m2_m1).
Proof.
  intros group. simpl. split; [reflexivity|]. intros grps. simpl.
  induction grps as [|g grps IH]; simpl; constructor; [|exact IH].
  repeat split. exists members_m2_m1. split; [apply perm_swap|].
  constructor; [|constructor; [|constructor]].
  - split; [reflexivity|exact same_member_scenario_member].
  - split; [reflexivity|exact same_member_healthy_member].
Qed.

Lemma members_service_answers_requests members groups :
  brokers_answer_requests (members_service members) groups.
Proof.
  intros group b _ [= <-] grps r [= <-]. rewrite map_map. simpl. apply map_id.
Qed.

Lemma NoDup_group_a : NoDup ["group-a"].
Proof. repeat constructor; rewrite ?elem_of_nil; intuition. Qed.

(** One group with two members, two range orders: the two calls
    return the same description up to the order of the members. *)
Lemma DescribeConsumerGroups_up_to_range_order_witness :
  DescribeConsumerGroups merge_sort_slice (members_service members_m1_m2) ["group-a"]
      [WorkerSend 0; Select_recv; Close; Select_closed]
    = Some ([], Done (Ok [group_a_m1_m2])) /\
  DescribeConsumerGroups merge_sort_slice (members_service members_m2_m1) ["group-a"]
      [WorkerSend 0; Close; Select_recv; Select_closed]
    = Some ([], Done (Ok [group_a_m2_m1])) /\
  Forall2 same_description [group_a_m1_m2] [group_a_m2_m1] /\
  map GroupID [group_a_m1_m2] = map GroupID [group_a_m2_m1] /\
  StronglySorted GroupID_le [group_a_m1_m2] /\ StronglySorted GroupID_le [group_a_m2_m1].
Proof.
  assert (DescribeConsumerGroups merge_sort_slice (members_service members_m1_m2)
              ["group-a"] [WorkerSend 0; Select_recv; Close; Select_closed]
          = Some ([], Done (Ok [group_a_m1_m2]))) as H1 by (vm_compute; reflexivity).
  assert (DescribeConsumerGroups merge_sort_slice (members_service members_m2_m1)
              ["group-a"] [WorkerSend 0; Close; Select_recv; Select_closed]
          = Some ([], Done (Ok [group_a_m2_m1]))) as H2 by (vm_compute; reflexivity).
  split; [exact H1|split; [exact H2|]].
  exact (DescribeConsumerGroups_up_to_range_order merge_sort_slice
           merge_sort_slice_Permutation merge_sort_slice_Sorted
           (members_service members_m1_m2) (members_service members_m2_m1) ["group-a"]
           _ _ _ _ _ _
           NoDup_group_a (members_service_answers_requests members_m1_m2 ["group-a"])
           members_service_same H1 H2).
Defined.

(** C1 as stated fails.  Two calls for the same group to the same
    broker, with the same order of arrival, visit the member map in two
    orders and return two sequences: the members "m1" and "m2" come in
    the order of the range loop.  And when two brokers both answer with
    a record for "group-a", the two records come in the order in which
    the answers arrive. *)
Lemma member_order_follows_range_order :
  (same_service (members_service members_m1_m2) (members_service members_m2_m1) /\
   DescribeConsumerGroups merge_sort_slice (members_service members_m1_m2) ["group-a"]
       [WorkerSend 0; Select_recv; Close; Select_closed]
     = Some ([], Done (Ok [group_a_m1_m2])) /\
   DescribeConsumerGroups merge_sort_slice (members_service members_m2_m1) ["group-a"]
       [WorkerSend 0; Select_recv; Close; Select_closed]
     = Some ([], Done (Ok [group_a_m2_m1])) /\
   [group_a_m1_m2] <> [group_a_m2_m1]) /\
  (DescribeConsumerGroups merge_sort_slice misnaming_service ["group-a"; "group-b"]
       [WorkerSend 0; Select_recv; WorkerSend 0; Select_recv; Close; Select_closed]
     = Some ([], Done (Ok [ mkGroupDescription "group-a" "Empty" "consumer" "" [];
                            mkGroupDescription "group-a" "Stable" "consumer" "range" [] ])) /\
   DescribeConsumerGroups merge_sort_slice misnaming_service ["group-a"; "group-b"]
       [WorkerSend 1; Select_recv; WorkerSend 0; Select_recv; Close; Select_closed]
     = Some ([], Done (Ok [ mkGroupDescription "group-a" "Stable" "consumer" "range" [];
                            mkGroupDescription "group-a" "Empty" "consumer" "" [] ]))).
Proof.
  split.
  - split; [exact members_service_same|].
    split; [vm_compute; reflexivity|split; [vm_compute; reflexivity|discriminate]].
  - split; vm_compute; reflexivity.
Qed.
